(** * aurelia-task-queue: a shallow embedding of [dist/es6/aurelia-task-queue.js]

    The scheduler keeps two arrays of tasks (the micro and the macro tier),
    asks the host to call a drain routine when a tier goes from empty to
    non-empty, and drains each tier in its own loop.  The embedding follows
    the JavaScript text: arrays are lists of cells that may hold [undefined],
    methods are computations in a small state/exception monad over the heap
    and the host, and every call of interest leaves an event in a trace. *)

From stdpp Require Import base numbers list.

Set Default Proof Using "Type".

(** ** Tasks, errors and the host *)

Section TaskQueue.

Context {Task Error : Type}.

(** What JavaScript can throw here: the two engine errors the drain code can
    provoke itself, or any value thrown by user code. *)
Inductive exn : Type :=
| TypeError
| RangeError
| Thrown (e : Error).

(** A task or an error handler reaches the scheduler only through its public
    surface: while it runs it may call [queueMicroTask] and [queueTask], any
    number of times, and it ends by returning or by throwing.  [Task] is any
    type of names for the callables handed to the scheduler; a callable that
    behaves differently from one run to the next is given one name per
    run. *)
Inductive action : Type :=
| QueueMicroTask (task : Task)
| QueueTask (task : Task).

Record behaviour : Type := Behaviour {
  effects : list action;
  raises : option exn
}.

(** [call t] is the body run by [task.call()]; [onErrorOf t] is [Some h] when
    ['onError' in task] holds, [h error] being the body of
    [task.onError(error)]; [hasSetImmediate] is the module-level probe. *)
Variable call : Task → behaviour.
Variable onErrorOf : Task → option (exn → behaviour).
Variable hasSetImmediate : bool.

(** Callbacks the module hands to the host's timers. *)
Inductive closure : Type :=
| HandleFlushTimer (timeoutHandle intervalHandle : nat)
| Rethrow (error : exn).

Inductive timerKind : Type := Timeout | Interval.

Record timer : Type := Timer {
  handle : nat;
  kind : timerKind;
  delay : nat;
  callback : closure
}.

(** The heap of one [TaskQueue] instance together with the host state it
    touches.  An array cell is [None] when it holds [undefined]. *)
Record World : Type := MkWorld {
  microTaskQueue : list (option Task);
  microTaskQueueCapacity : nat;
  taskQueue : list (option Task);
  toggle : Z;
  nodeData : option Z;
  timers : list timer;
  nextHandle : nat;
  immediates : list closure
}.

Definition with_microTaskQueue (q : list (option Task)) (w : World) : World :=
  MkWorld q (microTaskQueueCapacity w) (taskQueue w) (toggle w) (nodeData w)
          (timers w) (nextHandle w) (immediates w).

Definition with_taskQueue (q : list (option Task)) (w : World) : World :=
  MkWorld (microTaskQueue w) (microTaskQueueCapacity w) q (toggle w) (nodeData w)
          (timers w) (nextHandle w) (immediates w).

Definition with_toggle (z : Z) (w : World) : World :=
  MkWorld (microTaskQueue w) (microTaskQueueCapacity w) (taskQueue w) z (nodeData w)
          (timers w) (nextHandle w) (immediates w).

Definition with_nodeData (d : option Z) (w : World) : World :=
  MkWorld (microTaskQueue w) (microTaskQueueCapacity w) (taskQueue w) (toggle w) d
          (timers w) (nextHandle w) (immediates w).

Definition with_timers (ts : list timer) (w : World) : World :=
  MkWorld (microTaskQueue w) (microTaskQueueCapacity w) (taskQueue w) (toggle w)
          (nodeData w) ts (nextHandle w) (immediates w).

Definition with_nextHandle (n : nat) (w : World) : World :=
  MkWorld (microTaskQueue w) (microTaskQueueCapacity w) (taskQueue w) (toggle w)
          (nodeData w) (timers w) n (immediates w).

Definition with_immediates (cs : list closure) (w : World) : World :=
  MkWorld (microTaskQueue w) (microTaskQueueCapacity w) (taskQueue w) (toggle w)
          (nodeData w) (timers w) (nextHandle w) cs.

(** [constructor()]: both arrays empty, capacity 1024, the mutation observer's
    [toggle] at 1 over a text node created with empty data. *)
Definition constructor : World :=
  MkWorld [] 1024 [] 1%Z None [] 0 [].

(** ** Traces *)

Inductive event : Type :=
| EvQueueMicroTask (task : Task)
| EvQueueTask (task : Task)
| EvRequestFlushMicroTaskQueue
| EvRequestFlushTaskQueue
| EvFlushMicroTaskQueue
| EvFlushTaskQueue
| EvCall (task : Task)
| EvOnError (task : Task) (error : exn)
| EvFired (h : nat)
| EvHandleFlushTimer (timeoutHandle intervalHandle : nat)
| EvUnhandled (error : exn).

(** ** The computation monad

    A computation reads and writes the world, appends to the trace, and
    completes normally, by a throw, or not within the fuel it was given. *)

Inductive completion (A : Type) : Type :=
| Normal (a : A)
| Throw (error : exn)
| OutOfFuel.
Global Arguments Normal {A} a.
Global Arguments Throw {A} error.
Global Arguments OutOfFuel {A}.

Record run (A : Type) : Type := Run {
  outcome : completion A;
  final : World;
  trace : list event
}.
Global Arguments Run {A} outcome final trace.
Global Arguments outcome {A} r.
Global Arguments final {A} r.
Global Arguments trace {A} r.

Definition js (A : Type) : Type := World → run A.

Definition ret {A} (a : A) : js A := λ w, Run (Normal a) w [].

Definition bind {A B} (m : js A) (k : A → js B) : js B := λ w,
  let r := m w in
  match outcome r with
  | Normal a => let r' := k a (final r) in
                Run (outcome r') (final r') (trace r ++ trace r')
  | Throw error => Run (Throw error) (final r) (trace r)
  | OutOfFuel => Run OutOfFuel (final r) (trace r)
  end.

Definition throw {A} (error : exn) : js A := λ w, Run (Throw error) w [].
Definition diverge {A} : js A := λ w, Run OutOfFuel w [].
Definition emit (ev : event) : js unit := λ w, Run (Normal tt) w [ev].
Definition gets {A} (f : World → A) : js A := λ w, Run (Normal (f w)) w [].
Definition modify (f : World → World) : js unit := λ w, Run (Normal tt) (f w) [].

(** [attempt m] is the body of a [try] block: a throw becomes a value the
    [catch] clause inspects; running out of fuel is not catchable. *)
Definition attempt {A} (m : js A) : js (A + exn) := λ w,
  let r := m w in
  match outcome r with
  | Normal a => Run (Normal (inl a)) (final r) (trace r)
  | Throw error => Run (Normal (inr error)) (final r) (trace r)
  | OutOfFuel => Run OutOfFuel (final r) (trace r)
  end.

Local Notation "x ← m ; k" := (bind m (λ x, k))
  (at level 20, m at level 100, k at level 200, only parsing).
Local Notation "m ;; k" := (bind m (λ _, k))
  (at level 100, k at level 200, right associativity, only parsing).

(** ** JavaScript arrays *)

(** [a[i]]: reading past the end yields [undefined]. *)
Definition array_get (a : list (option Task)) (i : nat) : option Task :=
  default None (a !! i).

(** [a[i] = v]: writing past the end grows the array, leaving holes. *)
Definition array_set (a : list (option Task)) (i : nat) (v : option Task)
  : list (option Task) :=
  if decide (i < length a) then <[i:=v]> a
  else a ++ replicate (i - length a) None ++ [v].

(** [a.length = n] for a non-negative [n]: truncate, or pad with holes. *)
Definition array_set_length (a : list (option Task)) (n : nat)
  : list (option Task) :=
  take n a ++ replicate (n - length a) None.

(** [a.push(v)] *)
Definition array_push (a : list (option Task)) (v : option Task)
  : list (option Task) := a ++ [v].

(** ** The host's timers *)

(** [setTimeout(cb, delay)] and [setInterval(cb, delay)] register a timer
    under a fresh handle and return the handle. *)
Definition setTimeout (cb : closure) (delay : nat) : js nat := λ w,
  let h := nextHandle w in
  Run (Normal h)
      (with_nextHandle (S h) (with_timers (timers w ++ [Timer h Timeout delay cb]) w))
      [].

Definition setInterval (cb : closure) (delay : nat) : js nat := λ w,
  let h := nextHandle w in
  Run (Normal h)
      (with_nextHandle (S h) (with_timers (timers w ++ [Timer h Interval delay cb]) w))
      [].

Definition cancel (h : nat) (ts : list timer) : list timer :=
  filter (λ tm, handle tm ≠ h) ts.

(** [clearTimeout(h)] and [clearInterval(h)]: timers share one pool of
    handles, and clearing a handle that is not active does nothing. *)
Definition clearTimeout (h : nat) : js unit :=
  modify (λ w, with_timers (cancel h (timers w)) w).

Definition clearInterval (h : nat) : js unit :=
  modify (λ w, with_timers (cancel h (timers w)) w).

(** [setImmediate(cb)] *)
Definition setImmediate (cb : closure) : js unit :=
  modify (λ w, with_immediates (immediates w ++ [cb]) w).

(** ** requestFlush, both strategies *)

(** [makeRequestFlushFromMutationObserver]: the returned closure flips
    [toggle] and writes it to the observed text node. *)
Definition requestFlushMicroTaskQueue : js unit :=
  emit EvRequestFlushMicroTaskQueue ;;
  modify (λ w, with_toggle (- toggle w)%Z w) ;;
  modify (λ w, with_nodeData (Some (toggle w)) w).

(** [makeRequestFlushFromTimer]: the returned closure starts a zero-delay
    timeout and a 50ms interval on the same callback [handleFlushTimer],
    which closes over both handles.  The handles are the next two the host
    gives out, so the callback is built from them. *)
Definition requestFlushTaskQueue : js unit :=
  emit EvRequestFlushTaskQueue ;;
  next ← gets nextHandle ;
  let handleFlushTimer := HandleFlushTimer next (S next) in
  timeoutHandle ← setTimeout handleFlushTimer 0 ;
  intervalHandle ← setInterval handleFlushTimer 50 ;
  ret tt.

(** ** Enqueue *)

Definition queueMicroTask (task : Task) : js unit :=
  emit (EvQueueMicroTask task) ;;
  queue ← gets microTaskQueue ;
  (if decide (length queue < 1) then requestFlushMicroTaskQueue else ret tt) ;;
  modify (λ w, with_microTaskQueue (array_push (microTaskQueue w) (Some task)) w).

Definition queueTask (task : Task) : js unit :=
  emit (EvQueueTask task) ;;
  queue ← gets taskQueue ;
  (if decide (length queue < 1) then requestFlushTaskQueue else ret tt) ;;
  modify (λ w, with_taskQueue (array_push (taskQueue w) (Some task)) w).

(** ** Running user code *)

Definition act (a : action) : js unit :=
  match a with
  | QueueMicroTask task => queueMicroTask task
  | QueueTask task => queueTask task
  end.

Fixpoint acts (l : list action) : js unit :=
  match l with
  | [] => ret tt
  | a :: l => act a ;; acts l
  end.

Definition perform (b : behaviour) : js unit :=
  acts (effects b) ;;
  match raises b with
  | Some error => throw error
  | None => ret tt
  end.

(** [task.call()]; on [undefined] the property access throws. *)
Definition invoke (task : option Task) : js unit :=
  match task with
  | None => throw TypeError
  | Some t => emit (EvCall t) ;; perform (call t)
  end.

(** ** onError *)

(** ['onError' in task] throws when [task] is not an object. *)
Definition onError (error : exn) (task : option Task) : js unit :=
  match task with
  | None => throw TypeError
  | Some t =>
      match onErrorOf t with
      | Some h => emit (EvOnError t error) ;; perform (h error)
      | None =>
          if hasSetImmediate then setImmediate (Rethrow error)
          else (_ ← setTimeout (Rethrow error) 0 ; ret tt)
      end
  end.

(** ** The drains *)

(** What the [try] statement of a drain hands on: the loop ran to its end, or
    the [catch] clause is entered with [error] and the current value of the
    local [task]. *)
Inductive tried : Type :=
| Completed
| Caught (error : exn) (task : option Task).

(** The [while] loop of [flushTaskQueue].  [queue] is the array swapped out
    of the instance, which nothing can reach any more, so its length is
    fixed: [pending] counts the iterations left, [length queue - index]. *)
Fixpoint whileTaskQueue (pending : nat) (queue : list (option Task)) (index : nat)
  : js tried :=
  match pending with
  | 0 => ret Completed
  | S pending =>
      let task := array_get queue index in
      r ← attempt (invoke task) ;
      match r with
      | inr error => ret (Caught error task)
      | inl _ => whileTaskQueue pending queue (S index)
      end
  end.

Definition flushTaskQueue : js unit :=
  emit EvFlushTaskQueue ;;
  queue ← gets taskQueue ;
  modify (with_taskQueue []) ;;
  r ← whileTaskQueue (length queue) queue 0 ;
  match r with
  | Caught error task => onError error task
  | Completed => ret tt
  end.

(** The [for] loop of the compaction: [index - scan] iterations are left. *)
Fixpoint shiftDown (todo scan index : nat) (queue : list (option Task))
  : list (option Task) :=
  match todo with
  | 0 => queue
  | S todo =>
      shiftDown todo (S scan) index
                (array_set queue scan (array_get queue (scan + index)))
  end.

(** The compaction block; [queue] is the instance's own array.  A negative
    length makes [queue.length -= index] throw. *)
Definition compact (index : nat) : js unit :=
  modify (λ w, with_microTaskQueue (shiftDown index 0 index (microTaskQueue w)) w) ;;
  queue ← gets microTaskQueue ;
  if decide (index ≤ length queue)
  then modify (with_microTaskQueue (array_set_length queue (length queue - index)))
  else throw RangeError.

(** The [while] loop of [flushMicroTaskQueue].  The array is re-read at every
    iteration, since the running task may have pushed onto it. *)
Fixpoint whileMicroTaskQueue (fuel : nat) (capacity index : nat) : js tried :=
  match fuel with
  | 0 => diverge
  | S fuel =>
      queue ← gets microTaskQueue ;
      if decide (index < length queue) then
        let task := array_get queue index in
        r ← attempt (invoke task) ;
        match r with
        | inr error => ret (Caught error task)
        | inl _ =>
            let index := S index in
            if decide (capacity < index) then
              r ← attempt (compact index) ;
              match r with
              | inr error => ret (Caught error task)
              | inl _ => whileMicroTaskQueue fuel capacity 0
              end
            else whileMicroTaskQueue fuel capacity index
        end
      else ret Completed
  end.

Definition flushMicroTaskQueue (fuel : nat) : js unit :=
  emit EvFlushMicroTaskQueue ;;
  capacity ← gets microTaskQueueCapacity ;
  r ← whileMicroTaskQueue fuel capacity 0 ;
  match r with
  | Caught error task => onError error task
  | Completed => ret tt
  end ;;
  modify (with_microTaskQueue []).

(** ** The host firing a timer *)

Definition runClosure (cb : closure) : js unit :=
  match cb with
  | HandleFlushTimer timeoutHandle intervalHandle =>
      emit (EvHandleFlushTimer timeoutHandle intervalHandle) ;;
      clearTimeout timeoutHandle ;;
      clearInterval intervalHandle ;;
      flushTaskQueue
  | Rethrow error => throw error
  end.

Definition findTimer (h : nat) (ts : list timer) : option timer :=
  list_find (λ tm, handle tm = h) ts ≫= λ p, Some p.2.

(** The host fires the timer registered under [h], if it is still active: a
    timeout is spent by firing, an interval stays; what the callback throws
    goes to the host's unhandled-error channel. *)
Definition fire (h : nat) : js unit :=
  ts ← gets timers ;
  match findTimer h ts with
  | None => ret tt
  | Some tm =>
      emit (EvFired h) ;;
      match kind tm with
      | Timeout => modify (λ w, with_timers (cancel h (timers w)) w)
      | Interval => ret tt
      end ;;
      r ← attempt (runClosure (callback tm)) ;
      match r with
      | inr error => emit (EvUnhandled error)
      | inl _ => ret tt
      end
  end.

Fixpoint fires (schedule : list nat) : js unit :=
  match schedule with
  | [] => ret tt
  | h :: schedule => fire h ;; fires schedule
  end.

(** ** Reading traces, queues and the timer table *)

(** The tasks a trace invokes, in order. *)
Definition calls (tr : list event) : list Task :=
  omap (λ ev, match ev with EvCall t => Some t | _ => None end) tr.

(** The tasks a trace hands to [queueMicroTask], resp. [queueTask]. *)
Definition queuedMicro (tr : list event) : list Task :=
  omap (λ ev, match ev with EvQueueMicroTask t => Some t | _ => None end) tr.

Definition queuedMacro (tr : list event) : list Task :=
  omap (λ ev, match ev with EvQueueTask t => Some t | _ => None end) tr.

(** How often a trace calls a tier's [requestFlush]. *)
Definition isRequestMicro (ev : event) : bool :=
  match ev with EvRequestFlushMicroTaskQueue => true | _ => false end.

Definition isRequestMacro (ev : event) : bool :=
  match ev with EvRequestFlushTaskQueue => true | _ => false end.

Definition requestsMicro (tr : list event) : nat :=
  length (filter (λ ev, isRequestMicro ev = true) tr).

Definition requestsMacro (tr : list event) : nat :=
  length (filter (λ ev, isRequestMacro ev = true) tr).

(** How often a trace enters the [handleFlushTimer] closure made by one call
    of the timer-based [requestFlush], the one holding the two given handles;
    each entry calls the drain once. *)
Definition isHandleFlushTimer (timeoutHandle intervalHandle : nat) (ev : event)
  : bool :=
  match ev with
  | EvHandleFlushTimer a b => (a =? timeoutHandle) && (b =? intervalHandle)
  | _ => false
  end.

Definition handleFlushTimerCalls (timeoutHandle intervalHandle : nat)
    (tr : list event) : nat :=
  length (filter (λ ev, isHandleFlushTimer timeoutHandle intervalHandle ev = true) tr).

(** The tasks a body enqueues on each tier. *)
Definition microOf (l : list action) : list Task :=
  omap (λ a, match a with QueueMicroTask t => Some t | _ => None end) l.

Definition macroOf (l : list action) : list Task :=
  omap (λ a, match a with QueueTask t => Some t | _ => None end) l.

(** A task whose body returns. *)
Definition returns (t : Task) : Prop := raises (call t) = None.

(** A task whose body neither enqueues nor throws. *)
Definition inert (t : Task) : Prop := call t = Behaviour [] None.

(** An array without [undefined] cells: every array built by the two
    enqueue operations is one. *)
Definition defined (q : list (option Task)) : Prop := Forall is_Some q.

(** The world after each strategy's [requestFlush], and after a push. *)
Definition armMicro (w : World) : World :=
  with_nodeData (Some (- toggle w)%Z) (with_toggle (- toggle w)%Z w).

Definition armMacro (w : World) : World :=
  let next := nextHandle w in
  let handleFlushTimer := HandleFlushTimer next (S next) in
  with_nextHandle (S (S next))
    (with_timers ((timers w ++ [Timer next Timeout 0 handleFlushTimer])
                    ++ [Timer (S next) Interval 50 handleFlushTimer]) w).

Definition pushMicro (t : Task) (w : World) : World :=
  with_microTaskQueue (array_push (microTaskQueue w) (Some t)) w.

Definition pushMacro (t : Task) (w : World) : World :=
  with_taskQueue (array_push (taskQueue w) (Some t)) w.

(** The instance's micro array after the compaction block has run with the
    given [index]. *)
Definition compacted (index : nat) (queue : list (option Task))
  : list (option Task) :=
  array_set_length (shiftDown index 0 index queue) (length queue - index).

(** ** The timer table *)

(** A timer registered while the host's handle counter went from [lo] to
    [hi]: its handle is in that range, and a [handleFlushTimer] callback
    holds the timer's own handle and handles of that range only. *)
Definition fresh (lo hi : nat) (tm : timer) : Prop :=
  lo ≤ handle tm < hi ∧
  ∀ a b, callback tm = HandleFlushTimer a b →
         (handle tm = a ∨ handle tm = b) ∧ lo ≤ a < hi ∧ lo ≤ b < hi.

(** The timer table of every world the module can produce. *)
Definition hostOK (w : World) : Prop :=
  Forall (fresh 0 (nextHandle w)) (timers w).

(** [w'] has the timers of [w] and newly registered ones. *)
Definition grows (w w' : World) : Prop :=
  nextHandle w ≤ nextHandle w' ∧
  ∃ new, timers w' = timers w ++ new ∧
         Forall (fresh (nextHandle w) (nextHandle w')) new.

(** A computation that only registers timers, enters no [handleFlushTimer]
    and does not run out of fuel. *)
Definition tame {A} (m : js A) : Prop :=
  ∀ w, outcome (m w) ≠ OutOfFuel ∧ grows w (final (m w)) ∧
       ∀ a b, handleFlushTimerCalls a b (trace (m w)) = 0.

(** The two timers of one [requestFlush] call are both active, and no other
    timer's callback holds either handle. *)
Definition armed (timeoutHandle intervalHandle : nat) (w : World) : Prop :=
  hostOK w ∧ timeoutHandle < nextHandle w ∧ intervalHandle < nextHandle w ∧
  (∃ tm, findTimer timeoutHandle (timers w) = Some tm ∧
         callback tm = HandleFlushTimer timeoutHandle intervalHandle) ∧
  (∃ tm, findTimer intervalHandle (timers w) = Some tm ∧
         callback tm = HandleFlushTimer timeoutHandle intervalHandle) ∧
  Forall (λ tm, ∀ a b, callback tm = HandleFlushTimer a b →
                       a = timeoutHandle ∨ a = intervalHandle ∨
                       b = timeoutHandle ∨ b = intervalHandle →
                       a = timeoutHandle ∧ b = intervalHandle)
         (timers w).

(** Neither timer of the call is active, and no callback holds its handles. *)
Definition disarmed (timeoutHandle intervalHandle : nat) (w : World) : Prop :=
  hostOK w ∧ timeoutHandle < nextHandle w ∧ intervalHandle < nextHandle w ∧
  Forall (λ tm, handle tm ≠ timeoutHandle ∧ handle tm ≠ intervalHandle ∧
                ∀ a b, callback tm = HandleFlushTimer a b →
                       a ≠ timeoutHandle ∧ a ≠ intervalHandle ∧
                       b ≠ timeoutHandle ∧ b ≠ intervalHandle)
         (timers w).

(** What holds of every world reached from [constructor] by enqueueing,
    draining and firing timers. *)
Definition wellFormed (w : World) : Prop :=
  defined (microTaskQueue w) ∧ defined (taskQueue w) ∧ hostOK w.

(** ** More of the host: what a world keeps *)

(** A computation that keeps a property of the world, however it completes. *)
Definition keeps (P : World → Prop) {A} (m : js A) : Prop :=
  ∀ w, P w → P (final (m w)).

(** The macro tier is never left stranded: while its array holds a task, the
    two timers of some call of the timer-based [requestFlush] are active. *)
Definition live (w : World) : Prop :=
  hostOK w ∧ (taskQueue w ≠ [] → ∃ th ih, armed th ih w).

(** The state of the mutation-observer [requestFlush]: [toggle] is 1 or -1
    and the observed node holds its initial empty data or the current
    [toggle]. *)
Definition observerOK (w : World) : Prop :=
  (toggle w = 1 ∨ toggle w = -1)%Z ∧
  (nodeData w = None ∨ nodeData w = Some (toggle w)).

(** How often one tier's [requestFlush] is called by a computation that
    starts on the array [queue] of that tier and enqueues [queued] on it:
    once, when it starts on the empty array and enqueues something. *)
Definition armings (queue : list (option Task)) (queued : list Task) : nat :=
  match queue, queued with
  | [], _ :: _ => 1
  | _, _ => 0
  end.

(** A computation that treats one tier as the enqueue operation of that tier
    does: what it enqueues is appended to the tier's array, and it calls the
    tier's [requestFlush] as [armings] says.  The tier is given by its array
    [queue] and by how a trace is read for it. *)
Definition arming (queue : World → list (option Task))
    (queued : list event → list Task) (requests : list event → nat)
    {A} (m : js A) : Prop :=
  ∀ w, queue (final (m w)) = queue w ++ (Some <$> queued (trace (m w))) ∧
       requests (trace (m w)) = armings (queue w) (queued (trace (m w))).

(** The events that are no enqueue and no [requestFlush]. *)
Definition plain (ev : event) : Prop :=
  match ev with
  | EvQueueMicroTask _ | EvQueueTask _
  | EvRequestFlushMicroTaskQueue | EvRequestFlushTaskQueue => False
  | _ => True
  end.

(** ** More readers of traces and of the host *)

(** The [task.onError(error)] calls a trace makes: the task and the error of
    each, in order. *)
Definition handled (tr : list event) : list (Task * exn) :=
  omap (λ ev, match ev with EvOnError t error => Some (t, error) | _ => None end) tr.

(** The errors that timers of a table are waiting to rethrow. *)
Definition rethrows (ts : list timer) : list exn :=
  omap (λ tm, match callback tm with Rethrow error => Some error | _ => None end) ts.

(** How often a trace enters [flushTaskQueue]. *)
Definition isFlushTaskQueue (ev : event) : bool :=
  match ev with EvFlushTaskQueue => true | _ => false end.

Definition flushesMacro (tr : list event) : nat :=
  length (filter (λ ev, isFlushTaskQueue ev = true) tr).

(** The events that code run by a drain leaves: the two enqueue operations
    and what they call, and task calls.  No drain is entered, no handler
    called and no timer fired among them. *)
Definition inner (ev : event) : Prop :=
  match ev with
  | EvQueueMicroTask _ | EvQueueTask _
  | EvRequestFlushMicroTaskQueue | EvRequestFlushTaskQueue | EvCall _ => True
  | _ => False
  end.

(** A computation whose trace holds events of one kind only. *)
Definition emits (Q : event → Prop) {A} (m : js A) : Prop :=
  ∀ w, Forall Q (trace (m w)).

(** * Properties *)

(** ** Runs of the elementary computations *)

Lemma run_eta {A} (r : run A) : r = Run (outcome r) (final r) (trace r).
Proof. by destruct r. Qed.

Lemma run_eq {A} (r r' : run A) :
  outcome r = outcome r' → final r = final r' → trace r = trace r' → r = r'.
Proof. destruct r, r'; simpl; congruence. Qed.

Lemma bind_Normal {A B} (m : js A) (k : A → js B) w a :
  outcome (m w) = Normal a →
  bind m k w = Run (outcome (k a (final (m w)))) (final (k a (final (m w))))
                   (trace (m w) ++ trace (k a (final (m w)))).
Proof. intros H. unfold bind. by rewrite H. Qed.

Lemma bind_Throw {A B} (m : js A) (k : A → js B) w error :
  outcome (m w) = Throw error →
  bind m k w = Run (Throw error) (final (m w)) (trace (m w)).
Proof. intros H. unfold bind. by rewrite H. Qed.

Lemma attempt_Normal {A} (m : js A) w a :
  outcome (m w) = Normal a →
  attempt m w = Run (Normal (inl a)) (final (m w)) (trace (m w)).
Proof. intros H. unfold attempt. by rewrite H. Qed.

Lemma attempt_Throw {A} (m : js A) w error :
  outcome (m w) = Throw error →
  attempt m w = Run (Normal (inr error)) (final (m w)) (trace (m w)).
Proof. intros H. unfold attempt. by rewrite H. Qed.

Lemma bind_gets {A B} (f : World → A) (k : A → js B) w :
  bind (gets f) k w = k (f w) w.
Proof. unfold bind, gets. simpl. by destruct (k (f w) w). Qed.

Lemma bind_emit {B} ev (k : unit → js B) w :
  bind (emit ev) k w =
  Run (outcome (k tt w)) (final (k tt w)) (ev :: trace (k tt w)).
Proof. reflexivity. Qed.

Lemma bind_modify {B} f (k : unit → js B) w :
  bind (modify f) k w = k tt (f w).
Proof. unfold bind, modify. simpl. by destruct (k tt (f w)). Qed.

(** ** Enqueue *)

Lemma requestFlushMicroTaskQueue_run w :
  requestFlushMicroTaskQueue w =
  Run (Normal tt) (armMicro w) [EvRequestFlushMicroTaskQueue].
Proof. reflexivity. Qed.

Lemma requestFlushTaskQueue_run w :
  requestFlushTaskQueue w = Run (Normal tt) (armMacro w) [EvRequestFlushTaskQueue].
Proof. reflexivity. Qed.

Lemma queueMicroTask_run t w :
  queueMicroTask t w =
  if decide (length (microTaskQueue w) < 1)
  then Run (Normal tt) (pushMicro t (armMicro w))
           [EvQueueMicroTask t; EvRequestFlushMicroTaskQueue]
  else Run (Normal tt) (pushMicro t w) [EvQueueMicroTask t].
Proof.
  unfold queueMicroTask, bind. simpl.
  destruct (decide (length (microTaskQueue w) < 1)); reflexivity.
Qed.

Lemma queueTask_run t w :
  queueTask t w =
  if decide (length (taskQueue w) < 1)
  then Run (Normal tt) (pushMacro t (armMacro w))
           [EvQueueTask t; EvRequestFlushTaskQueue]
  else Run (Normal tt) (pushMacro t w) [EvQueueTask t].
Proof.
  unfold queueTask, bind. simpl.
  destruct (decide (length (taskQueue w) < 1)); reflexivity.
Qed.

(** ** Bodies of tasks and handlers *)

Lemma calls_app tr1 tr2 : calls (tr1 ++ tr2) = calls tr1 ++ calls tr2.
Proof. apply omap_app. Qed.

Lemma queuedMicro_app tr1 tr2 :
  queuedMicro (tr1 ++ tr2) = queuedMicro tr1 ++ queuedMicro tr2.
Proof. apply omap_app. Qed.

Lemma queuedMacro_app tr1 tr2 :
  queuedMacro (tr1 ++ tr2) = queuedMacro tr1 ++ queuedMacro tr2.
Proof. apply omap_app. Qed.

Lemma requestsMicro_app tr1 tr2 :
  requestsMicro (tr1 ++ tr2) = requestsMicro tr1 + requestsMicro tr2.
Proof. unfold requestsMicro. by rewrite filter_app, length_app. Qed.

Lemma requestsMacro_app tr1 tr2 :
  requestsMacro (tr1 ++ tr2) = requestsMacro tr1 + requestsMacro tr2.
Proof. unfold requestsMacro. by rewrite filter_app, length_app. Qed.

Lemma act_outcome a w : outcome (act a w) = Normal tt.
Proof.
  destruct a as [t|t]; unfold act.
  - rewrite queueMicroTask_run. by case_decide.
  - rewrite queueTask_run. by case_decide.
Qed.

Lemma acts_cons a l w :
  acts (a :: l) w =
  Run (outcome (acts l (final (act a w)))) (final (acts l (final (act a w))))
      (trace (act a w) ++ trace (acts l (final (act a w)))).
Proof.
  change (acts (a :: l) w) with (bind (act a) (λ _, acts l) w).
  by rewrite (bind_Normal _ _ _ tt) by apply act_outcome.
Qed.

Lemma acts_outcome l w : outcome (acts l w) = Normal tt.
Proof.
  revert w. induction l as [|a l IH]; intros w; [done|].
  rewrite acts_cons. cbn [final trace outcome]. apply IH.
Qed.

Lemma act_microTaskQueue a w :
  microTaskQueue (final (act a w)) = microTaskQueue w ++ (Some <$> microOf [a]).
Proof.
  destruct a as [t|t]; unfold act.
  - rewrite queueMicroTask_run. by case_decide.
  - rewrite queueTask_run. case_decide; simpl; by rewrite app_nil_r.
Qed.

Lemma act_taskQueue a w :
  taskQueue (final (act a w)) = taskQueue w ++ (Some <$> macroOf [a]).
Proof.
  destruct a as [t|t]; unfold act.
  - rewrite queueMicroTask_run. case_decide; simpl; by rewrite app_nil_r.
  - rewrite queueTask_run. by case_decide.
Qed.

Lemma act_capacity a w :
  microTaskQueueCapacity (final (act a w)) = microTaskQueueCapacity w.
Proof.
  destruct a as [t|t]; unfold act.
  - rewrite queueMicroTask_run. by case_decide.
  - rewrite queueTask_run. by case_decide.
Qed.

Lemma microOf_cons a l : microOf (a :: l) = microOf [a] ++ microOf l.
Proof. unfold microOf. simpl. by destruct a. Qed.

Lemma macroOf_cons a l : macroOf (a :: l) = macroOf [a] ++ macroOf l.
Proof. unfold macroOf. simpl. by destruct a. Qed.

Lemma acts_microTaskQueue l w :
  microTaskQueue (final (acts l w)) = microTaskQueue w ++ (Some <$> microOf l).
Proof.
  revert w. induction l as [|a l IH]; intros w.
  - simpl. by rewrite app_nil_r.
  - rewrite acts_cons. cbn [final trace outcome]. rewrite IH, act_microTaskQueue, (microOf_cons a l).
    by rewrite fmap_app, app_assoc.
Qed.

Lemma acts_taskQueue l w :
  taskQueue (final (acts l w)) = taskQueue w ++ (Some <$> macroOf l).
Proof.
  revert w. induction l as [|a l IH]; intros w.
  - simpl. by rewrite app_nil_r.
  - rewrite acts_cons. cbn [final trace outcome]. rewrite IH, act_taskQueue, (macroOf_cons a l).
    by rewrite fmap_app, app_assoc.
Qed.

Lemma acts_capacity l w :
  microTaskQueueCapacity (final (acts l w)) = microTaskQueueCapacity w.
Proof.
  revert w. induction l as [|a l IH]; intros w; [done|].
  rewrite acts_cons. cbn [final trace outcome]. by rewrite IH, act_capacity.
Qed.

Lemma act_calls a w : calls (trace (act a w)) = [].
Proof.
  destruct a as [t|t]; unfold act.
  - rewrite queueMicroTask_run. by case_decide.
  - rewrite queueTask_run. by case_decide.
Qed.

Lemma acts_calls l w : calls (trace (acts l w)) = [].
Proof.
  revert w. induction l as [|a l IH]; intros w; [done|].
  rewrite acts_cons. cbn [final trace outcome]. by rewrite calls_app, act_calls, IH.
Qed.

Lemma act_queuedMacro a w : queuedMacro (trace (act a w)) = macroOf [a].
Proof.
  destruct a as [t|t]; unfold act.
  - rewrite queueMicroTask_run. by case_decide.
  - rewrite queueTask_run. by case_decide.
Qed.

Lemma acts_queuedMacro l w : queuedMacro (trace (acts l w)) = macroOf l.
Proof.
  revert w. induction l as [|a l IH]; intros w; [done|].
  rewrite acts_cons. cbn [final trace outcome].
  by rewrite queuedMacro_app, act_queuedMacro, IH, (macroOf_cons a l).
Qed.

Lemma act_queuedMicro a w : queuedMicro (trace (act a w)) = microOf [a].
Proof.
  destruct a as [t|t]; unfold act.
  - rewrite queueMicroTask_run. by case_decide.
  - rewrite queueTask_run. by case_decide.
Qed.

Lemma acts_queuedMicro l w : queuedMicro (trace (acts l w)) = microOf l.
Proof.
  revert w. induction l as [|a l IH]; intros w; [done|].
  rewrite acts_cons. cbn [final trace outcome].
  by rewrite queuedMicro_app, act_queuedMicro, IH, (microOf_cons a l).
Qed.

(** While the micro array is non-empty no body arms the micro tier. *)
Lemma acts_requestsMicro l w :
  microTaskQueue w ≠ [] → requestsMicro (trace (acts l w)) = 0.
Proof.
  revert w. induction l as [|a l IH]; intros w Hne; [done|].
  rewrite acts_cons. cbn [final trace outcome]. rewrite requestsMicro_app, IH.
  - destruct a as [t|t]; unfold act.
    + rewrite queueMicroTask_run. destruct (microTaskQueue w); [done|].
      case_decide; [simpl in *; lia | done].
    + rewrite queueTask_run. by case_decide.
  - rewrite act_microTaskQueue. by destruct (microTaskQueue w).
Qed.

Lemma perform_outcome b w :
  outcome (perform b w) =
  match raises b with Some error => Throw error | None => Normal tt end.
Proof.
  unfold perform. rewrite (bind_Normal _ _ w tt) by apply acts_outcome.
  simpl. by destruct (raises b).
Qed.

Lemma perform_final b w : final (perform b w) = final (acts (effects b) w).
Proof.
  unfold perform. rewrite (bind_Normal _ _ w tt) by apply acts_outcome.
  simpl. by destruct (raises b).
Qed.

Lemma perform_trace b w : trace (perform b w) = trace (acts (effects b) w).
Proof.
  unfold perform. rewrite (bind_Normal _ _ w tt) by apply acts_outcome.
  simpl. destruct (raises b); simpl; by rewrite app_nil_r.
Qed.

Lemma invoke_outcome t w :
  outcome (invoke (Some t) w) =
  match raises (call t) with Some error => Throw error | None => Normal tt end.
Proof.
  unfold invoke, bind. simpl. rewrite <- (perform_outcome (call t) w).
  by destruct (outcome (perform (call t) w)).
Qed.

Lemma invoke_final t w :
  final (invoke (Some t) w) = final (acts (effects (call t)) w).
Proof.
  unfold invoke, bind. simpl. rewrite <- (perform_final (call t) w).
  by destruct (outcome (perform (call t) w)).
Qed.

Lemma invoke_trace t w :
  trace (invoke (Some t) w) = EvCall t :: trace (acts (effects (call t)) w).
Proof.
  unfold invoke, bind. simpl. rewrite <- (perform_trace (call t) w).
  by destruct (outcome (perform (call t) w)).
Qed.

Lemma microOf_burst ts : microOf (QueueMicroTask <$> ts) = ts.
Proof.
  induction ts as [|t ts IH]; [done|].
  cbn [fmap list_fmap]. rewrite microOf_cons. cbn [fmap list_fmap] in IH.
  by rewrite IH.
Qed.

Lemma macroOf_burst ts : macroOf (QueueTask <$> ts) = ts.
Proof.
  induction ts as [|t ts IH]; [done|].
  cbn [fmap list_fmap]. rewrite macroOf_cons. cbn [fmap list_fmap] in IH.
  by rewrite IH.
Qed.

(** ** onError *)

Lemma onError_handler error t h w :
  onErrorOf t = Some h →
  onError error (Some t) w =
  Run (match raises (h error) with Some x => Throw x | None => Normal tt end)
      (final (acts (effects (h error)) w))
      (EvOnError t error :: trace (acts (effects (h error)) w)).
Proof.
  intros Hh. unfold onError. rewrite Hh. unfold bind. simpl.
  rewrite <- (perform_outcome (h error) w), <- (perform_final (h error) w),
    <- (perform_trace (h error) w).
  by destruct (outcome (perform (h error) w)).
Qed.

Lemma onError_unhandled error t w :
  onErrorOf t = None →
  onError error (Some t) w =
  Run (Normal tt)
      (if hasSetImmediate
       then with_immediates (immediates w ++ [Rethrow error]) w
       else with_nextHandle (S (nextHandle w))
              (with_timers (timers w ++ [Timer (nextHandle w) Timeout 0 (Rethrow error)]) w))
      [].
Proof. intros Hh. unfold onError. rewrite Hh. by destruct hasSetImmediate. Qed.

Lemma onError_calls error task w : calls (trace (onError error task w)) = [].
Proof.
  destruct task as [t|]; [|done].
  destruct (onErrorOf t) as [h|] eqn:Hh.
  - rewrite (onError_handler _ _ h) by done. simpl. apply acts_calls.
  - by rewrite onError_unhandled.
Qed.

(** ** The macro drain *)

Lemma whileTaskQueue_step pending queue index w t :
  queue !! index = Some (Some t) →
  whileTaskQueue (S pending) queue index w =
  match raises (call t) with
  | Some error =>
      Run (Normal (Caught error (Some t)))
          (final (invoke (Some t) w)) (trace (invoke (Some t) w))
  | None =>
      let r := whileTaskQueue pending queue (S index) (final (invoke (Some t) w)) in
      Run (outcome r) (final r) (trace (invoke (Some t) w) ++ trace r)
  end.
Proof.
  intros Hq. cbn [whileTaskQueue]. unfold array_get. rewrite Hq.
  cbn [default from_option id].
  pose proof (invoke_outcome t w) as Ho. unfold bind.
  destruct (raises (call t)) as [error|].
  - rewrite (attempt_Throw _ _ error) by done. simpl. by rewrite app_nil_r.
  - by rewrite (attempt_Normal _ _ tt) by done.
Qed.

Lemma flushTaskQueue_run w :
  flushTaskQueue w =
  let r := whileTaskQueue (length (taskQueue w)) (taskQueue w) 0
                          (with_taskQueue [] w) in
  match outcome r with
  | Normal Completed => Run (Normal tt) (final r) (EvFlushTaskQueue :: trace r)
  | Normal (Caught error task) =>
      let r' := onError error task (final r) in
      Run (outcome r') (final r') (EvFlushTaskQueue :: trace r ++ trace r')
  | Throw error => Run (Throw error) (final r) (EvFlushTaskQueue :: trace r)
  | OutOfFuel => Run OutOfFuel (final r) (EvFlushTaskQueue :: trace r)
  end.
Proof.
  unfold flushTaskQueue, bind. simpl.
  destruct (outcome (whileTaskQueue _ _ _ _)) as [[|error task]| |]; simpl;
    try done.
  by rewrite app_nil_r.
Qed.

(** What the loop does on an array of tasks, from any position: it stops at
    the first task that throws and hands that task to the [catch] clause;
    the tasks it invokes are those before it, in array order; what the
    bodies enqueue is appended to the instance's arrays. *)
Lemma whileTaskQueue_spec rest done w :
  let r := whileTaskQueue (length rest) (Some <$> (done ++ rest)) (length done) w in
  match outcome r with
  | Normal Completed => Forall returns rest ∧ calls (trace r) = rest
  | Normal (Caught error task) =>
      ∃ pre t post,
        task = Some t ∧ rest = pre ++ t :: post ∧ Forall returns pre ∧
        raises (call t) = Some error ∧ calls (trace r) = pre ++ [t]
  | Throw _ => False
  | OutOfFuel => False
  end
  ∧ taskQueue (final r) = taskQueue w ++ (Some <$> queuedMacro (trace r))
  ∧ microTaskQueue (final r) = microTaskQueue w ++ (Some <$> queuedMicro (trace r)).
Proof.
  revert done w. induction rest as [|t rest IH]; intros done w.
  { simpl. by rewrite !app_nil_r. }
  cbn [length]. cbn zeta.
  rewrite (whileTaskQueue_step _ _ _ _ t).
  2:{ rewrite list_lookup_fmap, lookup_app_r, Nat.sub_diag by done. done. }
  assert (Hq : queuedMacro (trace (invoke (Some t) w)) = macroOf (effects (call t))).
  { rewrite invoke_trace. apply acts_queuedMacro. }
  assert (Hm : queuedMicro (trace (invoke (Some t) w)) = microOf (effects (call t))).
  { rewrite invoke_trace. apply acts_queuedMicro. }
  assert (Hc : calls (trace (invoke (Some t) w)) = [t]).
  { rewrite invoke_trace. cbn. by rewrite (acts_calls _ w). }
  destruct (raises (call t)) as [error|] eqn:Hr.
  - cbn [outcome final trace]. split_and!.
    + exists [], t, rest. by split_and!.
    + by rewrite Hq, invoke_final, acts_taskQueue.
    + by rewrite Hm, invoke_final, acts_microTaskQueue.
  - specialize (IH (done ++ [t]) (final (invoke (Some t) w))).
    rewrite length_app, Nat.add_1_r, <- app_assoc in IH. cbn [app] in IH.
    cbn zeta in IH |- *. cbn [outcome final trace].
    destruct IH as (IH1 & IH2 & IH3). split_and!.
    + destruct (outcome (whileTaskQueue _ _ _ _)) as [[|error task]| |]; try done.
      * destruct IH1 as [IH1 IH1']. split; [by constructor|].
        by rewrite calls_app, Hc, IH1'.
      * destruct IH1 as (pre & t' & post & -> & -> & Hpre & Ht' & Hcalls).
        exists (t :: pre), t', post. split_and!; try done.
        -- by constructor.
        -- by rewrite calls_app, Hc, Hcalls.
    + rewrite IH2, queuedMacro_app, Hq, invoke_final, acts_taskQueue.
      by rewrite (fmap_app Some (macroOf _)), app_assoc.
    + rewrite IH3, queuedMicro_app, Hm, invoke_final, acts_microTaskQueue.
      by rewrite (fmap_app Some (microOf _)), app_assoc.
Qed.

Lemma onError_taskQueue error task w :
  taskQueue (final (onError error task w)) =
  taskQueue w ++ (Some <$> queuedMacro (trace (onError error task w))).
Proof.
  destruct task as [t|]; [|simpl; by rewrite app_nil_r].
  destruct (onErrorOf t) as [h|] eqn:Hh.
  - rewrite (onError_handler _ _ h) by done. cbn [final trace].
    rewrite acts_taskQueue. cbn. by rewrite (acts_queuedMacro _ w).
  - rewrite onError_unhandled by done. cbn [final trace].
    destruct hasSetImmediate; simpl; by rewrite app_nil_r.
Qed.

Lemma flushTaskQueue_calls w :
  calls (trace (flushTaskQueue w)) =
  calls (trace (whileTaskQueue (length (taskQueue w)) (taskQueue w) 0
                               (with_taskQueue [] w))).
Proof.
  rewrite flushTaskQueue_run. cbn zeta.
  destruct (outcome (whileTaskQueue _ _ _ _)) as [[|error task]| |]; try done.
  cbn [trace]. change (calls (?e :: ?l)) with (calls ([e] ++ l)).
  rewrite !calls_app, onError_calls, app_nil_r. done.
Qed.

Lemma flushTaskQueue_taskQueue w ts :
  taskQueue w = Some <$> ts →
  taskQueue (final (flushTaskQueue w)) =
  Some <$> queuedMacro (trace (flushTaskQueue w)).
Proof.
  intros Hts. rewrite flushTaskQueue_run. cbn zeta. rewrite Hts, length_fmap.
  pose proof (whileTaskQueue_spec ts [] (with_taskQueue [] w)) as (H1 & H2 & _).
  cbn zeta in *. simpl in H1, H2.
  destruct (outcome (whileTaskQueue _ _ _ _)) as [[|error task]| |]; try done.
  cbn [final trace]. rewrite onError_taskQueue, H2.
  change (queuedMacro (?e :: ?l)) with (queuedMacro ([e] ++ l)).
  rewrite !queuedMacro_app. cbn. by rewrite fmap_app.
Qed.

Lemma flushTaskQueue_prefix w ts :
  taskQueue w = Some <$> ts → calls (trace (flushTaskQueue w)) `prefix_of` ts.
Proof.
  intros Hts. rewrite flushTaskQueue_calls, Hts, length_fmap.
  pose proof (whileTaskQueue_spec ts [] (with_taskQueue [] w)) as (H1 & _).
  cbn zeta in *. simpl in H1.
  destruct (outcome (whileTaskQueue _ _ _ _)) as [[|error task]| |]; try done.
  - destruct H1 as [_ ->]. done.
  - destruct H1 as (pre & t & post & _ & -> & _ & _ & ->).
    apply prefix_app, prefix_cons, prefix_nil.
Qed.

(** A macro drain over tasks that all return runs every one of them, in
    array order, and returns. *)
Lemma flushTaskQueue_fifo w ts :
  taskQueue w = Some <$> ts → Forall returns ts →
  outcome (flushTaskQueue w) = Normal tt ∧ calls (trace (flushTaskQueue w)) = ts.
Proof.
  intros Hts Hret. rewrite flushTaskQueue_calls. rewrite flushTaskQueue_run.
  cbn zeta. rewrite Hts, length_fmap.
  pose proof (whileTaskQueue_spec ts [] (with_taskQueue [] w)) as (H1 & _).
  cbn zeta in *. simpl in H1.
  destruct (outcome (whileTaskQueue _ _ _ _)) as [[|error task]| |]; try done.
  - by destruct H1 as [_ ->].
  - destruct H1 as (pre & t & post & _ & -> & _ & Ht & _).
    apply Forall_app in Hret as [_ Hret]. apply Forall_cons in Hret as [Hret _].
    unfold returns in Hret. congruence.
Qed.

(** The loop reaches every entry that has only returning tasks ahead of it. *)
Lemma whileTaskQueue_reaches pre D post done w :
  Forall returns pre →
  (pre ++ [D]) `prefix_of`
    calls (trace (whileTaskQueue (length (pre ++ D :: post))
                                 (Some <$> (done ++ pre ++ D :: post))
                                 (length done) w)).
Proof.
  revert done w. induction pre as [|t pre IH]; intros done w Hpre.
  - cbn [app length].
    rewrite (whileTaskQueue_step _ _ _ _ D).
    2:{ rewrite list_lookup_fmap, lookup_app_r, Nat.sub_diag by done. done. }
    destruct (raises (call D)); cbn [trace]; rewrite ?calls_app, invoke_trace;
      cbn; rewrite (acts_calls _ w); apply prefix_cons, prefix_nil.
  - apply Forall_cons in Hpre as [Ht Hpre]. cbn [app length].
    rewrite (whileTaskQueue_step _ _ _ _ t).
    2:{ rewrite list_lookup_fmap, lookup_app_r, Nat.sub_diag by done. done. }
    unfold returns in Ht. rewrite Ht. cbn zeta. cbn [trace].
    rewrite calls_app, invoke_trace. cbn. rewrite (acts_calls _ w). cbn.
    apply prefix_cons.
    specialize (IH (done ++ [t]) (final (invoke (Some t) w)) Hpre).
    replace (length (done ++ [t])) with (S (length done)) in IH
      by (rewrite length_app; simpl; lia).
    rewrite <- app_assoc in IH. rewrite invoke_final in IH.
    rewrite perform_final. exact IH.
Qed.

(** A macro drain in which some invoked task throws: that task is the last
    one invoked, and the drain ends by running [onError] on it; the drain
    completes as [onError] does. *)
Lemma flushTaskQueue_thrower w t error :
  defined (taskQueue w) →
  t ∈ calls (trace (flushTaskQueue w)) →
  raises (call t) = Some error →
  ∃ pre w1 tr1,
    calls tr1 = pre ++ [t] ∧ Forall returns pre ∧
    flushTaskQueue w =
      Run (outcome (onError error (Some t) w1)) (final (onError error (Some t) w1))
          (EvFlushTaskQueue :: tr1 ++ trace (onError error (Some t) w1)).
Proof.
  intros Hdef Hin Hraise.
  assert (∃ ts, taskQueue w = Some <$> ts) as [ts Hts].
  { clear -Hdef. induction Hdef as [|c q [t ->] _ [ts ->]]; [by exists []|].
    by exists (t :: ts). }
  pose proof (whileTaskQueue_spec ts [] (with_taskQueue [] w)) as [Hspec _].
  cbn zeta in Hspec. simpl in Hspec.
  rewrite flushTaskQueue_calls in Hin. rewrite flushTaskQueue_run. cbn zeta.
  rewrite Hts, length_fmap in Hin |- *.
  set (r := whileTaskQueue (length ts) (Some <$> ts) 0 (with_taskQueue [] w)) in *.
  destruct (outcome r) as [[|error' task]| |]; try done.
  - exfalso. destruct Hspec as [Hall Hcalls]. rewrite Hcalls in Hin.
    rewrite Forall_forall in Hall. apply Hall in Hin.
    unfold returns in Hin. congruence.
  - destruct Hspec as (pre & t' & post & -> & _ & Hpre & Ht' & Hcalls).
    rewrite Hcalls in Hin. apply elem_of_app in Hin as [Hin|Hin].
    + exfalso. rewrite Forall_forall in Hpre. apply Hpre in Hin.
      unfold returns in Hin. congruence.
    + apply list_elem_of_singleton in Hin as <-.
      assert (error' = error) as -> by congruence.
      by exists pre, (final r), (trace r).
Qed.

(** ** The compaction block *)

Lemma array_get_lookup (q : list (option Task)) i c :
  q !! i = Some c → array_get q i = c.
Proof. unfold array_get. by intros ->. Qed.

Lemma array_get_ge (q : list (option Task)) i :
  length q ≤ i → array_get q i = None.
Proof. intros H. unfold array_get. by rewrite lookup_ge_None_2. Qed.

Lemma array_set_lt (q : list (option Task)) i v :
  i < length q → array_set q i v = <[i:=v]> q.
Proof. intros H. unfold array_set. by rewrite decide_True. Qed.

(** The copy loop writes cells [scan .. scan + todo - 1] and reads cells at
    or above [index]; as long as the former stay below [index] and inside
    the array, cell [i] of the result is cell [i + index] of the array it
    started from, and the other cells are untouched. *)
Lemma shiftDown_length todo scan index (q : list (option Task)) :
  scan + todo ≤ length q → length (shiftDown todo scan index q) = length q.
Proof.
  revert scan q. induction todo as [|todo IH]; intros scan q Hlen; [done|].
  cbn [shiftDown]. rewrite array_set_lt by lia.
  rewrite IH; rewrite length_insert; [done|lia].
Qed.

Lemma shiftDown_lookup todo scan index (q : list (option Task)) i :
  scan + todo ≤ index → scan + todo ≤ length q →
  shiftDown todo scan index q !! i =
  if decide (scan ≤ i < scan + todo) then Some (array_get q (i + index))
  else q !! i.
Proof.
  revert scan q. induction todo as [|todo IH]; intros scan q Hidx Hlen.
  { cbn [shiftDown]. rewrite decide_False by lia. done. }
  cbn [shiftDown]. rewrite array_set_lt by lia.
  rewrite IH by (rewrite ?length_insert; lia).
  destruct (decide (S scan ≤ i < S scan + todo)) as [Hi|Hi].
  - rewrite decide_True by lia. f_equal. unfold array_get.
    by rewrite list_lookup_insert_ne by lia.
  - destruct (decide (i = scan)) as [->|Hne].
    + rewrite decide_True by lia. by rewrite list_lookup_insert_eq by lia.
    + rewrite decide_False by lia. by rewrite list_lookup_insert_ne by lia.
Qed.

Lemma compacted_length index (q : list (option Task)) :
  index ≤ length q → length (compacted index q) = length q - index.
Proof.
  intros H. unfold compacted, array_set_length.
  rewrite length_app, length_take, length_replicate, shiftDown_length by lia. lia.
Qed.

Lemma compacted_lookup index (q : list (option Task)) i :
  index ≤ length q →
  compacted index q !! i =
  if decide (i < length q - index)
  then if decide (i < index) then Some (array_get q (i + index)) else q !! i
  else None.
Proof.
  intros H. unfold compacted, array_set_length.
  assert (Hlen : length (shiftDown index 0 index q) = length q)
    by (apply shiftDown_length; lia).
  replace (length q - index - length (shiftDown index 0 index q)) with 0 by lia.
  cbn [replicate]. rewrite app_nil_r.
  destruct (decide (i < length q - index)) as [Hi|Hi].
  - rewrite lookup_take_lt by done. rewrite shiftDown_lookup by lia.
    destruct (decide (i < index)).
    + by rewrite decide_True by lia.
    + by rewrite decide_False by lia.
  - apply lookup_ge_None_2. rewrite length_take. lia.
Qed.

(** When at most [index] cells are pending, the block does what its comment
    says: the pending cells move to the front. *)
Lemma compacted_drop index (q : list (option Task)) :
  index ≤ length q → length q ≤ 2 * index → compacted index q = drop index q.
Proof.
  intros H1 H2. apply list_eq. intros i.
  rewrite compacted_lookup, lookup_drop by done.
  destruct (decide (i < length q - index)) as [Hi|Hi].
  - rewrite decide_True by lia.
    destruct (lookup_lt_is_Some_2 q (index + i)) as [c Hc]; [lia|].
    rewrite Hc. f_equal. apply array_get_lookup. by rewrite Nat.add_comm.
  - symmetry. apply lookup_ge_None_2. lia.
Qed.

(** With more than [index] cells pending, only [index] of them are copied:
    the result is the first [index] pending cells followed by cells that were
    never moved, and the last [length q - 2 * index] pending cells are cut
    off. *)
Lemma compacted_long index (q : list (option Task)) :
  2 * index ≤ length q →
  compacted index q =
  take index (drop index q) ++ take (length q - 2 * index) (drop index q).
Proof.
  intros H. apply list_eq. intros i.
  rewrite compacted_lookup by lia.
  destruct (decide (i < length q - index)) as [Hi|Hi].
  - destruct (decide (i < index)) as [Hlt|Hge].
    + rewrite lookup_app_l by (rewrite length_take, length_drop; lia).
      rewrite lookup_take_lt, lookup_drop by done.
      destruct (lookup_lt_is_Some_2 q (index + i)) as [c Hc]; [lia|].
      rewrite Hc. f_equal. apply array_get_lookup. by rewrite Nat.add_comm.
    + rewrite lookup_app_r by (rewrite length_take, length_drop; lia).
      rewrite length_take, length_drop.
      replace (index `min` (length q - index)) with index by lia.
      rewrite lookup_take_lt, lookup_drop by lia. f_equal. lia.
  - symmetry. apply lookup_ge_None_2.
    rewrite length_app, !length_take, length_drop. lia.
Qed.

Lemma compacted_defined index (q : list (option Task)) :
  index ≤ length q → defined q → defined (compacted index q).
Proof.
  intros H Hq. apply Forall_lookup. intros i c Hc.
  rewrite compacted_lookup in Hc by done.
  destruct (decide (i < length q - index)); [|done].
  destruct (decide (i < index)).
  - destruct (lookup_lt_is_Some_2 q (i + index)) as [c' Hc']; [lia|].
    rewrite (array_get_lookup _ _ _ Hc') in Hc. injection Hc as <-.
    by eapply (Forall_lookup_1 _ _ _ _ Hq).
  - by eapply (Forall_lookup_1 _ _ _ _ Hq).
Qed.

Lemma compact_run index w :
  index ≤ length (microTaskQueue w) →
  compact index w =
  Run (Normal tt) (with_microTaskQueue (compacted index (microTaskQueue w)) w) [].
Proof.
  intros H. unfold compact, bind, modify, gets.
  cbn [outcome final trace microTaskQueue with_microTaskQueue].
  case_decide as Hd.
  - cbn [outcome final trace app]. rewrite shiftDown_length by lia. reflexivity.
  - rewrite shiftDown_length in Hd; lia.
Qed.

(** ** The micro drain *)

Lemma whileMicroTaskQueue_exit fuel cap index w :
  length (microTaskQueue w) ≤ index →
  whileMicroTaskQueue (S fuel) cap index w = Run (Normal Completed) w [].
Proof.
  intros H. cbn [whileMicroTaskQueue]. rewrite bind_gets.
  by rewrite decide_False by lia.
Qed.

Lemma whileMicroTaskQueue_step fuel cap index w t :
  microTaskQueue w !! index = Some (Some t) →
  whileMicroTaskQueue (S fuel) cap index w =
  let r := invoke (Some t) w in
  match raises (call t) with
  | Some error => Run (Normal (Caught error (Some t))) (final r) (trace r)
  | None =>
      let r' :=
        if decide (cap < S index)
        then whileMicroTaskQueue fuel cap 0
               (with_microTaskQueue
                  (compacted (S index) (microTaskQueue (final r))) (final r))
        else whileMicroTaskQueue fuel cap (S index) (final r) in
      Run (outcome r') (final r') (trace r ++ trace r')
  end.
Proof.
  intros Hq. cbn [whileMicroTaskQueue]. rewrite bind_gets.
  rewrite decide_True by (by eapply lookup_lt_Some).
  unfold array_get. rewrite Hq. cbn [default from_option id].
  pose proof (invoke_outcome t w) as Ho. unfold bind at 1. cbn zeta.
  destruct (raises (call t)) as [error|].
  - rewrite (attempt_Throw _ _ error) by done. cbn [outcome final trace].
    unfold ret. cbn [outcome final trace]. by rewrite app_nil_r.
  - rewrite (attempt_Normal _ _ tt) by done. cbn [outcome final trace].
    destruct (decide (cap < S index)); [|by rewrite run_eta at 1].
    assert (Hlen : S index ≤ length (microTaskQueue (final (invoke (Some t) w)))).
    { rewrite invoke_final, acts_microTaskQueue, length_app.
      apply lookup_lt_Some in Hq. lia. }
    unfold bind. rewrite (attempt_Normal _ _ tt) by (by rewrite compact_run).
    rewrite compact_run by done. cbn [outcome final trace app]. done.
Qed.

Lemma flushMicroTaskQueue_run fuel w :
  flushMicroTaskQueue fuel w =
  let r := whileMicroTaskQueue fuel (microTaskQueueCapacity w) 0 w in
  match outcome r with
  | Normal Completed =>
      Run (Normal tt) (with_microTaskQueue [] (final r))
          (EvFlushMicroTaskQueue :: trace r)
  | Normal (Caught error task) =>
      let r' := onError error task (final r) in
      match outcome r' with
      | Normal _ =>
          Run (Normal tt) (with_microTaskQueue [] (final r'))
              (EvFlushMicroTaskQueue :: trace r ++ trace r')
      | Throw x =>
          Run (Throw x) (final r') (EvFlushMicroTaskQueue :: trace r ++ trace r')
      | OutOfFuel =>
          Run OutOfFuel (final r') (EvFlushMicroTaskQueue :: trace r ++ trace r')
      end
  | Throw x => Run (Throw x) (final r) (EvFlushMicroTaskQueue :: trace r)
  | OutOfFuel => Run OutOfFuel (final r) (EvFlushMicroTaskQueue :: trace r)
  end.
Proof.
  unfold flushMicroTaskQueue, bind, emit, gets, modify.
  cbn [outcome final trace app].
  destruct (outcome (whileMicroTaskQueue _ _ _ _)) as [[|error task]| |];
    cbn [outcome final trace app]; try done.
  - by rewrite !app_nil_r.
  - destruct (outcome (onError _ _ _)); cbn [outcome final trace app]; try done.
    by rewrite !app_nil_r.
Qed.

(** What the loop guarantees from any index over an array without holes: the
    array never gets a hole; the loop itself never throws; it enters the
    [catch] clause exactly when the last task it invoked threw, with that
    task and its error, and only over a non-empty array. *)
Lemma whileMicroTaskQueue_spec fuel cap index w :
  defined (microTaskQueue w) →
  let r := whileMicroTaskQueue fuel cap index w in
  defined (microTaskQueue (final r)) ∧
  match outcome r with
  | Normal Completed => Forall returns (calls (trace r))
  | Normal (Caught error task) =>
      ∃ t pre,
        task = Some t ∧ raises (call t) = Some error ∧
        calls (trace r) = pre ++ [t] ∧ Forall returns pre ∧
        microTaskQueue (final r) ≠ []
  | Throw _ => False
  | OutOfFuel => Forall returns (calls (trace r))
  end.
Proof.
  revert index w. induction fuel as [|fuel IH]; intros index w Hdef; cbn zeta.
  { simpl. split; [done|]. constructor. }
  destruct (decide (index < length (microTaskQueue w))) as [Hlt|Hge].
  2:{ rewrite whileMicroTaskQueue_exit by lia. simpl. split; [done|constructor]. }
  destruct (lookup_lt_is_Some_2 _ _ Hlt) as [c Hc].
  destruct (Forall_lookup_1 _ _ _ _ Hdef Hc) as [t ->].
  rewrite (whileMicroTaskQueue_step _ _ _ _ t) by done. cbn zeta.
  assert (Hcalls : calls (trace (invoke (Some t) w)) = [t]).
  { rewrite invoke_trace. cbn. by rewrite (acts_calls _ w). }
  assert (Hdef' : defined (microTaskQueue (final (invoke (Some t) w)))).
  { rewrite invoke_final, acts_microTaskQueue. apply Forall_app. split; [done|].
    apply Forall_fmap, Forall_true. by eexists. }
  assert (Hlen : S index ≤ length (microTaskQueue (final (invoke (Some t) w)))).
  { rewrite invoke_final, acts_microTaskQueue, length_app. lia. }
  destruct (raises (call t)) as [error|] eqn:Hr.
  - cbn [outcome final trace]. split; [done|].
    exists t, []. split_and!; try done.
    intros Hnil. rewrite Hnil in Hlen. simpl in Hlen. lia.
  - set (w' := if decide (cap < S index)
               then with_microTaskQueue
                      (compacted (S index) (microTaskQueue (final (invoke (Some t) w))))
                      (final (invoke (Some t) w))
               else final (invoke (Some t) w)).
    set (index' := if decide (cap < S index) then 0 else S index).
    assert (Hw' : defined (microTaskQueue w')).
    { subst w'. case_decide; [|done]. by apply compacted_defined. }
    specialize (IH index' w' Hw'). cbn zeta in IH.
    assert (Heq : (if decide (cap < S index)
                   then whileMicroTaskQueue fuel cap 0
                          (with_microTaskQueue
                             (compacted (S index)
                                (microTaskQueue (final (invoke (Some t) w))))
                             (final (invoke (Some t) w)))
                   else whileMicroTaskQueue fuel cap (S index)
                          (final (invoke (Some t) w)))
                  = whileMicroTaskQueue fuel cap index' w').
    { subst w' index'. by case_decide. }
    rewrite Heq. cbn [outcome final trace].
    destruct IH as [IH1 IH2]. split; [done|].
    rewrite calls_app, Hcalls.
    destruct (outcome (whileMicroTaskQueue fuel cap index' w'))
      as [[|error task]| |]; try done.
    + constructor; done.
    + destruct IH2 as (t' & pre & -> & Ht' & Hpre & Hret & Hne).
      exists t', (t :: pre). split_and!; try done.
      * by rewrite Hpre.
      * by constructor.
    + constructor; done.
Qed.

Lemma defined_fmap_Some (ts : list Task) : defined (Some <$> ts).
Proof. apply Forall_fmap, Forall_true. by eexists. Qed.

Lemma defined_inv (q : list (option Task)) :
  defined q → ∃ ts, q = Some <$> ts.
Proof.
  induction 1 as [|c q [t ->] _ [ts ->]]; [by exists []|]. by exists (t :: ts).
Qed.

Lemma elem_of_microOf X l : QueueMicroTask X ∈ l → X ∈ microOf l.
Proof. intros H. apply list_elem_of_omap. by exists (QueueMicroTask X). Qed.

Lemma elem_of_macroOf D l : QueueTask D ∈ l → D ∈ macroOf l.
Proof. intros H. apply list_elem_of_omap. by exists (QueueTask D). Qed.

(** A micro drain in which some invoked task throws: that task is the last
    one invoked, and the drain ends by running [onError] on it, from the
    world [w1] the loop left, after the events [tr1] of the loop. *)
Lemma flushMicroTaskQueue_thrower fuel w t error :
  defined (microTaskQueue w) →
  t ∈ calls (trace (flushMicroTaskQueue fuel w)) →
  raises (call t) = Some error →
  ∃ pre w1 tr1,
    whileMicroTaskQueue fuel (microTaskQueueCapacity w) 0 w =
      Run (Normal (Caught error (Some t))) w1 tr1 ∧
    calls tr1 = pre ++ [t] ∧ Forall returns pre ∧ microTaskQueue w1 ≠ [] ∧
    trace (flushMicroTaskQueue fuel w) =
      EvFlushMicroTaskQueue :: tr1 ++ trace (onError error (Some t) w1).
Proof.
  intros Hdef Hin Hraise.
  pose proof (whileMicroTaskQueue_spec fuel (microTaskQueueCapacity w) 0 w Hdef)
    as [_ Hspec]. cbn zeta in Hspec.
  rewrite flushMicroTaskQueue_run in Hin |- *. cbn zeta in Hin |- *.
  set (r := whileMicroTaskQueue fuel (microTaskQueueCapacity w) 0 w) in *.
  assert (Hno : Forall returns (calls (trace r)) → t ∈ calls (trace r) → False).
  { intros Hall Ht. rewrite Forall_forall in Hall; apply Hall in Ht.
    unfold returns in Ht. congruence. }
  destruct (outcome r) as [[|error' task]| |] eqn:Ho; try done.
  - exfalso. apply Hno; [done|]. exact Hin.
  - destruct Hspec as (t' & pre & -> & Ht' & Hcalls & Hpre & Hne).
    assert (Htr : ∀ A (x : run A),
               (trace x = EvFlushMicroTaskQueue :: trace r ++
                            trace (onError error' (Some t') (final r))) →
               t ∈ calls (trace x) → t = t').
    { intros A x -> Hx.
      change (calls (?e :: ?l)) with (calls ([e] ++ l)) in Hx.
      rewrite !calls_app, onError_calls, app_nil_r, Hcalls in Hx. cbn in Hx.
      apply elem_of_app in Hx as [Hx|Hx].
      - exfalso. rewrite Forall_forall in Hpre; apply Hpre in Hx.
        unfold returns in Hx. congruence.
      - by apply list_elem_of_singleton in Hx. }
    assert (t = t') as <-.
    { destruct (outcome (onError error' (Some t') (final r)));
        (eapply Htr; [|exact Hin]); reflexivity. }
    assert (error' = error) as -> by congruence.
    exists pre, (final r), (trace r). split_and!; try done.
    + rewrite (run_eta r). by rewrite Ho.
    + by destruct (outcome (onError error (Some t) (final r))).
  - exfalso. apply Hno; [done|]. exact Hin.
Qed.

Lemma invoke_inert t w :
  inert t → invoke (Some t) w = Run (Normal tt) w [EvCall t].
Proof.
  intros Ht. apply run_eq.
  - rewrite invoke_outcome. by rewrite Ht.
  - rewrite invoke_final. by rewrite Ht.
  - rewrite invoke_trace. by rewrite Ht.
Qed.

(** Up to [2 * (capacity + 1)] queued tasks that neither enqueue nor throw:
    the loop runs all of them, in array order, through at most two
    compactions, each of which finds no more cells pending than it copies. *)
Lemma whileMicroTaskQueue_fifo fuel cap index w ts :
  microTaskQueue w = Some <$> ts →
  Forall inert (drop index ts) →
  index ≤ cap → length ts ≤ 2 * S cap → length ts - index < fuel →
  outcome (whileMicroTaskQueue fuel cap index w) = Normal Completed ∧
  calls (trace (whileMicroTaskQueue fuel cap index w)) = drop index ts.
Proof.
  revert index w ts.
  induction fuel as [|fuel IH]; intros index w ts Hq Hin Hidx Hlen Hfuel; [lia|].
  destruct (decide (index < length ts)) as [Hlt|Hge].
  2:{ rewrite whileMicroTaskQueue_exit by (rewrite Hq, length_fmap; lia).
      by rewrite drop_ge by lia. }
  destruct (lookup_lt_is_Some_2 _ _ Hlt) as [t Ht].
  rewrite (drop_S _ _ _ Ht) in Hin |- *. apply Forall_cons in Hin as [Hit Hin].
  rewrite (whileMicroTaskQueue_step _ _ _ _ t)
    by (by rewrite Hq, list_lookup_fmap, Ht).
  rewrite (invoke_inert _ _ Hit). cbn zeta. cbn [final trace].
  assert (Hr : raises (call t) = None) by (by rewrite Hit). rewrite Hr.
  cbn [outcome final trace].
  destruct (decide (cap < S index)) as [Hc|Hc].
  - assert (Hcomp : compacted (S index) (microTaskQueue w) = Some <$> drop (S index) ts).
    { rewrite Hq, compacted_drop by (rewrite length_fmap; lia). by rewrite fmap_drop. }
    destruct (IH 0 (with_microTaskQueue (compacted (S index) (microTaskQueue w)) w)
                 (drop (S index) ts)) as [Ho Hcalls];
      [by rewrite <- Hcomp|done|lia|rewrite length_drop; lia
      |rewrite length_drop; lia|].
    split; [done|]. rewrite calls_app, Hcalls. done.
  - destruct (IH (S index) w ts) as [Ho Hcalls]; [done|done|lia|lia|lia|].
    split; [done|]. by rewrite calls_app, Hcalls.
Qed.

Lemma flushMicroTaskQueue_fifo fuel w ts :
  microTaskQueue w = Some <$> ts →
  Forall inert ts →
  length ts ≤ 2 * S (microTaskQueueCapacity w) → length ts < fuel →
  outcome (flushMicroTaskQueue fuel w) = Normal tt ∧
  calls (trace (flushMicroTaskQueue fuel w)) = ts ∧
  microTaskQueue (final (flushMicroTaskQueue fuel w)) = [].
Proof.
  intros Hq Hin Hlen Hfuel.
  destruct (whileMicroTaskQueue_fifo fuel (microTaskQueueCapacity w) 0 w ts)
    as [Ho Hcalls]; [done|done|lia|done|lia|].
  rewrite flushMicroTaskQueue_run. cbn zeta. rewrite Ho. by cbn.
Qed.

(** While no compaction intervenes, that is, while the index stays within the
    capacity, a drain that returns has invoked the pending cells and, after
    them, every task handed to [queueMicroTask] while it ran, in the order of
    enqueueing. *)
Lemma whileMicroTaskQueue_reentrant fuel cap index w q :
  microTaskQueue w = Some <$> q →
  outcome (whileMicroTaskQueue fuel cap index w) = Normal Completed →
  index + length (calls (trace (whileMicroTaskQueue fuel cap index w))) ≤ cap →
  calls (trace (whileMicroTaskQueue fuel cap index w)) =
  drop index q ++ queuedMicro (trace (whileMicroTaskQueue fuel cap index w)).
Proof.
  revert index w q. induction fuel as [|fuel IH]; intros index w q Hq; [done|].
  destruct (decide (index < length q)) as [Hlt|Hge].
  2:{ rewrite whileMicroTaskQueue_exit by (rewrite Hq, length_fmap; lia).
      intros _ _. by rewrite drop_ge by lia. }
  destruct (lookup_lt_is_Some_2 _ _ Hlt) as [t Ht].
  rewrite (whileMicroTaskQueue_step _ _ _ _ t)
    by (by rewrite Hq, list_lookup_fmap, Ht).
  cbn zeta. destruct (raises (call t)) as [error|]; [done|].
  cbn [outcome final trace]. rewrite calls_app, queuedMicro_app, length_app.
  rewrite !invoke_trace, invoke_final.
  change (calls (EvCall t :: ?l)) with (t :: calls l).
  change (queuedMicro (EvCall t :: ?l)) with (queuedMicro l).
  rewrite acts_calls, acts_queuedMicro. cbn [length app].
  destruct (decide (cap < S index)) as [Hc|Hc]; [intros _ Hlen; lia|].
  intros Ho Hlen.
  rewrite (IH (S index) _ (q ++ microOf (effects (call t)))); [|
    by rewrite acts_microTaskQueue, Hq, fmap_app | done | lia ].
  rewrite (drop_S _ _ _ Ht), drop_app_le by lia.
  by rewrite <- !app_assoc.
Qed.

Lemma flushMicroTaskQueue_calls fuel w :
  calls (trace (flushMicroTaskQueue fuel w)) =
  calls (trace (whileMicroTaskQueue fuel (microTaskQueueCapacity w) 0 w)).
Proof.
  rewrite flushMicroTaskQueue_run. cbn zeta.
  destruct (outcome (whileMicroTaskQueue _ _ _ _)) as [[|error task]| |]; try done.
  destruct (outcome (onError _ _ _)); cbn [trace];
    change (calls (EvFlushMicroTaskQueue :: ?l)) with (calls l);
    by rewrite calls_app, onError_calls, app_nil_r.
Qed.

(** The same for a whole drain in which no task throws. *)
Lemma flushMicroTaskQueue_reentrant fuel w q :
  microTaskQueue w = Some <$> q →
  outcome (flushMicroTaskQueue fuel w) = Normal tt →
  Forall returns (calls (trace (flushMicroTaskQueue fuel w))) →
  length (calls (trace (flushMicroTaskQueue fuel w))) ≤ microTaskQueueCapacity w →
  calls (trace (flushMicroTaskQueue fuel w)) =
  q ++ queuedMicro (trace (flushMicroTaskQueue fuel w)).
Proof.
  intros Hq Ho Hall Hlen. rewrite flushMicroTaskQueue_calls in Hall, Hlen |- *.
  pose proof (whileMicroTaskQueue_spec fuel (microTaskQueueCapacity w) 0 w) as Hspec.
  pose proof (whileMicroTaskQueue_reentrant fuel (microTaskQueueCapacity w) 0 w q Hq)
    as Hre.
  rewrite flushMicroTaskQueue_run in Ho |- *. cbn zeta in *.
  destruct Hspec as [_ Hspec]; [rewrite Hq; apply defined_fmap_Some|].
  destruct (outcome (whileMicroTaskQueue _ _ _ _)) as [[|error task]| |]; try done.
  - cbn [trace].
    change (queuedMicro (EvFlushMicroTaskQueue :: ?l)) with (queuedMicro l).
    by apply Hre.
  - destruct Hspec as (t & pre & -> & Ht & Hcalls & _ & _). exfalso.
    rewrite Hcalls, Forall_app, Forall_singleton in Hall.
    destruct Hall as [_ Hall]. unfold returns in Hall. congruence.
Qed.

(** ** Timers: what the module's own code does to the timer table *)

Lemma handleFlushTimerCalls_app a b tr1 tr2 :
  handleFlushTimerCalls a b (tr1 ++ tr2) =
  handleFlushTimerCalls a b tr1 + handleFlushTimerCalls a b tr2.
Proof. unfold handleFlushTimerCalls. by rewrite filter_app, length_app. Qed.

Lemma fresh_mono lo hi lo' hi' tm :
  lo' ≤ lo → hi ≤ hi' → fresh lo hi tm → fresh lo' hi' tm.
Proof.
  intros Hlo Hhi [Hh Hcb]. split; [lia|].
  intros a b Hab. destruct (Hcb a b Hab) as (? & ? & ?). split_and!; [done|lia..].
Qed.

Lemma grows_refl w : grows w w.
Proof. split; [done|]. exists []. by rewrite app_nil_r. Qed.

Lemma grows_same w w' :
  timers w' = timers w → nextHandle w' = nextHandle w → grows w w'.
Proof. intros Ht Hn. split; [lia|]. exists []. by rewrite app_nil_r. Qed.

Lemma grows_trans w1 w2 w3 : grows w1 w2 → grows w2 w3 → grows w1 w3.
Proof.
  intros [Hn1 (new1 & Ht1 & Hf1)] [Hn2 (new2 & Ht2 & Hf2)]. split; [lia|].
  exists (new1 ++ new2). split; [by rewrite Ht2, Ht1, app_assoc|].
  apply Forall_app. split.
  - eapply Forall_impl; [exact Hf1|]. intros tm. apply fresh_mono; lia.
  - eapply Forall_impl; [exact Hf2|]. intros tm. apply fresh_mono; lia.
Qed.

Lemma hostOK_grows w w' : hostOK w → grows w w' → hostOK w'.
Proof.
  unfold hostOK. intros Hok [Hn (new & -> & Hf)]. apply Forall_app. split.
  - eapply Forall_impl; [exact Hok|]. intros tm. apply fresh_mono; lia.
  - eapply Forall_impl; [exact Hf|]. intros tm. apply fresh_mono; lia.
Qed.

Lemma tame_ret {A} (a : A) : tame (ret a).
Proof. intros w. split_and!; [done|apply grows_refl|done]. Qed.

Lemma tame_throw {A} error : tame (@throw A error).
Proof. intros w. split_and!; [done|apply grows_refl|done]. Qed.

Lemma tame_gets {A} (f : World → A) : tame (gets f).
Proof. intros w. split_and!; [done|apply grows_refl|done]. Qed.

Lemma tame_modify f :
  (∀ w, timers (f w) = timers w ∧ nextHandle (f w) = nextHandle w) →
  tame (modify f).
Proof.
  intros Hf w. split_and!; [done| |done]. simpl. by apply grows_same; apply Hf.
Qed.

Lemma tame_emit ev :
  (∀ a b, isHandleFlushTimer a b ev = false) → tame (emit ev).
Proof.
  intros Hev w. split_and!; [done|apply grows_refl|].
  intros a b. unfold handleFlushTimerCalls. simpl.
  rewrite filter_cons_False; [done|]. by rewrite Hev.
Qed.

Lemma tame_bind {A B} (m : js A) (k : A → js B) :
  tame m → (∀ a, tame (k a)) → tame (bind m k).
Proof.
  intros Hm Hk w. destruct (Hm w) as (Ho & Hg & Hc). unfold bind.
  destruct (outcome (m w)) as [a| |]; [|done..].
  destruct (Hk a (final (m w))) as (Ho' & Hg' & Hc'). cbn [outcome final trace].
  split_and!; [done|by eapply grows_trans|].
  intros a' b'. by rewrite handleFlushTimerCalls_app, Hc, Hc'.
Qed.

Lemma tame_attempt {A} (m : js A) : tame m → tame (attempt m).
Proof.
  intros Hm w. destruct (Hm w) as (Ho & Hg & Hc). unfold attempt.
  by destruct (outcome (m w)).
Qed.

Lemma tame_setTimeout cb delay :
  (∀ a b, cb ≠ HandleFlushTimer a b) → tame (setTimeout cb delay).
Proof.
  intros Hcb w. split_and!; [done| |done]. cbn. split; [simpl; lia|].
  exists [Timer (nextHandle w) Timeout delay cb]. split; [done|].
  apply Forall_singleton. split; [simpl; lia|]. intros a b Hab. by destruct (Hcb a b).
Qed.

Lemma tame_setImmediate cb : tame (setImmediate cb).
Proof. by apply tame_modify. Qed.

Lemma tame_requestFlushMicroTaskQueue : tame requestFlushMicroTaskQueue.
Proof.
  unfold requestFlushMicroTaskQueue.
  repeat first [apply tame_bind; [|intros ?] | by apply tame_emit
               | by apply tame_modify ].
Qed.

Lemma tame_requestFlushTaskQueue : tame requestFlushTaskQueue.
Proof.
  intros w. rewrite requestFlushTaskQueue_run. split_and!; [done| |done].
  split; [simpl; lia|].
  cbn [final armMacro timers with_timers with_nextHandle nextHandle].
  rewrite <- app_assoc. eexists. split; [reflexivity|].
  apply Forall_cons. split; [|apply Forall_singleton].
  - split; [simpl; lia|]. intros a b [= <- <-]. simpl. split_and!; [by left|lia..].
  - split; [simpl; lia|]. intros a b [= <- <-]. simpl. split_and!; [by right|lia..].
Qed.

Lemma tame_queueMicroTask t : tame (queueMicroTask t).
Proof.
  unfold queueMicroTask.
  repeat first [apply tame_bind; [|intros ?] | by apply tame_emit
               | by apply tame_modify | apply tame_gets ].
  case_decide; [apply tame_requestFlushMicroTaskQueue|apply tame_ret].
Qed.

Lemma tame_queueTask t : tame (queueTask t).
Proof.
  unfold queueTask.
  repeat first [apply tame_bind; [|intros ?] | by apply tame_emit
               | by apply tame_modify | apply tame_gets ].
  case_decide; [apply tame_requestFlushTaskQueue|apply tame_ret].
Qed.

Lemma tame_acts l : tame (acts l).
Proof.
  induction l as [|a l IH]; [apply tame_ret|].
  cbn [acts]. apply tame_bind; [|done].
  destruct a; [apply tame_queueMicroTask|apply tame_queueTask].
Qed.

Lemma tame_perform b : tame (perform b).
Proof.
  unfold perform. apply tame_bind; [apply tame_acts|]. intros _.
  destruct (raises b); [apply tame_throw|apply tame_ret].
Qed.

Lemma tame_invoke task : tame (invoke task).
Proof.
  destruct task as [t|]; [|apply tame_throw].
  cbn [invoke]. apply tame_bind; [by apply tame_emit|]. intros _. apply tame_perform.
Qed.

Lemma tame_onError error task : tame (onError error task).
Proof.
  destruct task as [t|]; [|apply tame_throw]. cbn [onError].
  destruct (onErrorOf t) as [h|].
  - apply tame_bind; [by apply tame_emit|]. intros _. apply tame_perform.
  - destruct hasSetImmediate; [apply tame_setImmediate|].
    apply tame_bind; [by apply tame_setTimeout|]. intros _. apply tame_ret.
Qed.

Lemma tame_whileTaskQueue pending queue index :
  tame (whileTaskQueue pending queue index).
Proof.
  revert index. induction pending as [|pending IH]; intros index; [apply tame_ret|].
  cbn [whileTaskQueue]. apply tame_bind; [apply tame_attempt, tame_invoke|].
  intros [[]|error]; [apply IH|apply tame_ret].
Qed.

Lemma tame_flushTaskQueue : tame flushTaskQueue.
Proof.
  unfold flushTaskQueue.
  apply tame_bind; [by apply tame_emit|]. intros _.
  apply tame_bind; [apply tame_gets|]. intros queue.
  apply tame_bind; [by apply tame_modify|]. intros _.
  apply tame_bind; [apply tame_whileTaskQueue|].
  intros [|error task]; [apply tame_ret|apply tame_onError].
Qed.

(** ** Timers: the table, looked up and cancelled *)

Lemma findTimer_nil h : findTimer h [] = None.
Proof. done. Qed.

Lemma findTimer_cons h tm ts :
  findTimer h (tm :: ts) =
  if decide (handle tm = h) then Some tm else findTimer h ts.
Proof.
  unfold findTimer. cbn [list_find]. case_decide; [done|].
  by destruct (list_find _ ts) as [[i x]|].
Qed.

Lemma findTimer_Some h ts tm :
  findTimer h ts = Some tm → tm ∈ ts ∧ handle tm = h.
Proof.
  induction ts as [|x ts IH]; [done|]. rewrite findTimer_cons.
  case_decide as Hx.
  - intros [= <-]. split; [left|done].
  - intros Hf. destruct (IH Hf). split; [by right|done].
Qed.

Lemma findTimer_None h ts :
  findTimer h ts = None ↔ Forall (λ tm, handle tm ≠ h) ts.
Proof.
  induction ts as [|x ts IH]; [by split; [constructor|]|].
  rewrite findTimer_cons, Forall_cons. case_decide as Hx; [|by rewrite IH; tauto].
  split; [done|]. by intros [? _].
Qed.

Lemma findTimer_app_l h ts new tm :
  findTimer h ts = Some tm → findTimer h (ts ++ new) = Some tm.
Proof.
  induction ts as [|x ts IH]; [done|]. cbn [app]. rewrite !findTimer_cons.
  by case_decide.
Qed.

Lemma findTimer_app_None h ts new :
  findTimer h ts = None → findTimer h (ts ++ new) = findTimer h new.
Proof.
  induction ts as [|x ts IH]; [done|]. cbn [app]. rewrite !findTimer_cons.
  by case_decide.
Qed.

Lemma cancel_cons a tm ts :
  cancel a (tm :: ts) =
  if decide (handle tm ≠ a) then tm :: cancel a ts else cancel a ts.
Proof. unfold cancel. by rewrite filter_cons. Qed.

Lemma findTimer_cancel_ne h a ts :
  h ≠ a → findTimer h (cancel a ts) = findTimer h ts.
Proof.
  intros Hne. induction ts as [|x ts IH]; [done|].
  rewrite cancel_cons. case_decide as Hx.
  - rewrite !findTimer_cons. by case_decide.
  - rewrite findTimer_cons, IH. rewrite decide_False; [done|].
    intros Hh. apply Hne. congruence.
Qed.

Lemma Forall_cancel (P : timer → Prop) a ts :
  Forall P ts → Forall P (cancel a ts).
Proof.
  intros H. unfold cancel. apply Forall_forall. intros tm Htm.
  apply list_elem_of_filter in Htm as [_ Htm]. rewrite Forall_forall in H. auto.
Qed.

Lemma cancel_gone a ts : Forall (λ tm, handle tm ≠ a) (cancel a ts).
Proof.
  unfold cancel. apply Forall_forall. intros tm Htm.
  by apply list_elem_of_filter in Htm as [? _].
Qed.

Lemma hostOK_cancel a w :
  hostOK w → hostOK (with_timers (cancel a (timers w)) w).
Proof. unfold hostOK. simpl. apply Forall_cancel. Qed.

(** ** Timers: the two timers of one requestFlush call *)

Section pair.

Variables timeoutHandle intervalHandle : nat.

Lemma armed_grows w w' :
  armed timeoutHandle intervalHandle w → grows w w' →
  armed timeoutHandle intervalHandle w'.
Proof.
  intros (Hok & Ht & Hi & (tm1 & Hf1 & Hc1) & (tm2 & Hf2 & Hc2) & Hp) Hg.
  pose proof (hostOK_grows _ _ Hok Hg) as Hok'.
  destruct Hg as [Hn (new & Hts & Hnew)].
  split_and!; [done|lia|lia| | |].
  - exists tm1. rewrite Hts. split; [by apply findTimer_app_l|done].
  - exists tm2. rewrite Hts. split; [by apply findTimer_app_l|done].
  - rewrite Hts. apply Forall_app. split; [done|].
    eapply Forall_impl; [exact Hnew|]. intros tm [_ Hcb] a b Hab Hor.
    destruct (Hcb a b Hab) as (_ & ? & ?). lia.
Qed.

Lemma disarmed_grows w w' :
  disarmed timeoutHandle intervalHandle w → grows w w' →
  disarmed timeoutHandle intervalHandle w'.
Proof.
  intros (Hok & Ht & Hi & Hp) Hg.
  pose proof (hostOK_grows _ _ Hok Hg) as Hok'.
  destruct Hg as [Hn (new & Hts & Hnew)].
  split_and!; [done|lia|lia|].
  rewrite Hts. apply Forall_app. split; [done|].
  eapply Forall_impl; [exact Hnew|]. intros tm [Hh Hcb].
  split_and!; [lia|lia|]. intros a b Hab.
  destruct (Hcb a b Hab) as (_ & ? & ?). lia.
Qed.

Lemma armed_cancel a w :
  armed timeoutHandle intervalHandle w →
  a ≠ timeoutHandle → a ≠ intervalHandle →
  armed timeoutHandle intervalHandle (with_timers (cancel a (timers w)) w).
Proof.
  intros (Hok & Ht & Hi & (tm1 & Hf1 & Hc1) & (tm2 & Hf2 & Hc2) & Hp) Ha1 Ha2.
  split_and!; [by apply hostOK_cancel|done|done| | |].
  - exists tm1. simpl. by rewrite findTimer_cancel_ne.
  - exists tm2. simpl. by rewrite findTimer_cancel_ne.
  - simpl. by apply Forall_cancel.
Qed.

Lemma disarmed_cancel a w :
  disarmed timeoutHandle intervalHandle w →
  disarmed timeoutHandle intervalHandle (with_timers (cancel a (timers w)) w).
Proof.
  intros (Hok & Ht & Hi & Hp).
  split_and!; [by apply hostOK_cancel|done|done|]. simpl. by apply Forall_cancel.
Qed.

End pair.

(** ** Timers: firing *)

Lemma runClosure_handleFlushTimer a b w :
  runClosure (HandleFlushTimer a b) w =
  let r := flushTaskQueue (with_timers (cancel b (cancel a (timers w))) w) in
  Run (outcome r) (final r) (EvHandleFlushTimer a b :: trace r).
Proof.
  cbn [runClosure]. rewrite bind_emit. unfold clearTimeout, clearInterval.
  by rewrite !bind_modify.
Qed.

Lemma fire_run h w :
  fire h w =
  match findTimer h (timers w) with
  | None => Run (Normal tt) w []
  | Some tm =>
      let w0 := match kind tm with
                | Timeout => with_timers (cancel h (timers w)) w
                | Interval => w
                end in
      let r := runClosure (callback tm) w0 in
      match outcome r with
      | Normal _ => Run (Normal tt) (final r) (EvFired h :: trace r)
      | Throw error =>
          Run (Normal tt) (final r) (EvFired h :: trace r ++ [EvUnhandled error])
      | OutOfFuel => Run OutOfFuel (final r) (EvFired h :: trace r)
      end
  end.
Proof.
  unfold fire. rewrite bind_gets.
  destruct (findTimer h (timers w)) as [tm|]; [|done].
  rewrite bind_emit. cbn zeta.
  assert (Hk : ∀ (k : unit → js unit),
    bind (match kind tm with
          | Timeout => modify (λ w, with_timers (cancel h (timers w)) w)
          | Interval => ret tt
          end) k w =
    k tt (match kind tm with
          | Timeout => with_timers (cancel h (timers w)) w
          | Interval => w
          end)).
  { intros k. destruct (kind tm);
      [apply (bind_modify (λ w, with_timers (cancel h (timers w)) w))|].
    unfold bind, ret. simpl. by destruct (k tt w). }
  rewrite Hk. unfold bind, attempt.
  destruct (outcome (runClosure _ _)); cbn [outcome final trace]; try done.
  by rewrite app_nil_r.
Qed.

Section race.

Variables timeoutHandle intervalHandle : nat.

Local Abbreviation armed' := (armed timeoutHandle intervalHandle).
Local Abbreviation disarmed' := (disarmed timeoutHandle intervalHandle).
Local Abbreviation entered := (handleFlushTimerCalls timeoutHandle intervalHandle).

Lemma entered_other a b tr :
  a ≠ timeoutHandle ∨ b ≠ intervalHandle →
  entered (EvHandleFlushTimer a b :: tr) = entered tr.
Proof.
  intros Hab. unfold handleFlushTimerCalls. rewrite filter_cons_False; [done|].
  simpl. intros H. apply andb_true_iff in H as [?%Nat.eqb_eq ?%Nat.eqb_eq]. lia.
Qed.

Lemma entered_own tr :
  entered (EvHandleFlushTimer timeoutHandle intervalHandle :: tr) = S (entered tr).
Proof.
  unfold handleFlushTimerCalls. rewrite filter_cons_True; [done|].
  simpl. by rewrite !Nat.eqb_refl.
Qed.

Lemma entered_skip ev tr :
  isHandleFlushTimer timeoutHandle intervalHandle ev = false →
  entered (ev :: tr) = entered tr.
Proof.
  intros Hev. unfold handleFlushTimerCalls. rewrite filter_cons_False; [done|].
  by rewrite Hev.
Qed.

Lemma entered_snoc_unhandled tr error :
  entered (tr ++ [EvUnhandled error]) = entered tr.
Proof.
  rewrite handleFlushTimerCalls_app. unfold handleFlushTimerCalls at 2.
  rewrite filter_cons_False by done. simpl. lia.
Qed.

(** A callback that does not hold the pair's handles leaves the pair as it
    was and does not enter the pair's [handleFlushTimer]. *)
Lemma runClosure_disarmed cb w :
  disarmed' w →
  (∀ a b, cb = HandleFlushTimer a b → a ≠ timeoutHandle) →
  let r := runClosure cb w in
  outcome r ≠ OutOfFuel ∧ disarmed' (final r) ∧ entered (trace r) = 0.
Proof.
  intros Hd Hcb. destruct cb as [a b|error]; [|by cbn].
  cbn zeta. rewrite runClosure_handleFlushTimer. cbn zeta. cbn [outcome final trace].
  destruct (tame_flushTaskQueue (with_timers (cancel b (cancel a (timers w))) w))
    as (Ho & Hg & Hc).
  split_and!; [done| |].
  - eapply disarmed_grows; [|exact Hg].
    apply (disarmed_cancel _ _ b (with_timers (cancel a (timers w)) w)).
    by apply disarmed_cancel.
  - rewrite entered_other by (left; by eapply Hcb). apply Hc.
Qed.

Lemma runClosure_armed cb w :
  armed' w →
  (∀ a b, cb = HandleFlushTimer a b →
          a ≠ timeoutHandle ∧ a ≠ intervalHandle ∧
          b ≠ timeoutHandle ∧ b ≠ intervalHandle) →
  let r := runClosure cb w in
  outcome r ≠ OutOfFuel ∧ armed' (final r) ∧ entered (trace r) = 0.
Proof.
  intros Hd Hcb. destruct cb as [a b|error]; [|by cbn].
  destruct (Hcb a b eq_refl) as (Ha1 & Ha2 & Hb1 & Hb2).
  cbn zeta. rewrite runClosure_handleFlushTimer. cbn zeta. cbn [outcome final trace].
  destruct (tame_flushTaskQueue (with_timers (cancel b (cancel a (timers w))) w))
    as (Ho & Hg & Hc).
  split_and!; [done| |].
  - eapply armed_grows; [|exact Hg].
    apply (armed_cancel _ _ b (with_timers (cancel a (timers w)) w)); [|done..].
    by apply armed_cancel.
  - rewrite entered_other by (by left). apply Hc.
Qed.

(** The pair's own callback enters [handleFlushTimer] once and disarms the
    pair; this holds as well when the host has just spent the timeout. *)
Lemma runClosure_own w :
  hostOK w → timeoutHandle < nextHandle w → intervalHandle < nextHandle w →
  Forall (λ tm, ∀ a b, callback tm = HandleFlushTimer a b →
                       a = timeoutHandle ∨ a = intervalHandle ∨
                       b = timeoutHandle ∨ b = intervalHandle →
                       a = timeoutHandle ∧ b = intervalHandle)
         (timers w) →
  let r := runClosure (HandleFlushTimer timeoutHandle intervalHandle) w in
  outcome r ≠ OutOfFuel ∧ disarmed' (final r) ∧ entered (trace r) = 1.
Proof.
  intros Hok Ht Hi Hp.
  cbn zeta. rewrite runClosure_handleFlushTimer. cbn zeta. cbn [outcome final trace].
  destruct (tame_flushTaskQueue
              (with_timers (cancel intervalHandle (cancel timeoutHandle (timers w))) w))
    as (Ho & Hg & Hc).
  split_and!; [done| |].
  - eapply disarmed_grows; [|exact Hg].
    split_and!; [|done|done|].
    + apply (hostOK_cancel intervalHandle
               (with_timers (cancel timeoutHandle (timers w)) w)).
      by apply hostOK_cancel.
    + simpl. apply Forall_forall. intros tm Htm.
      assert (Hh1 : handle tm ≠ intervalHandle).
      { pose proof (cancel_gone intervalHandle (cancel timeoutHandle (timers w))) as H.
        rewrite Forall_forall in H. by apply H. }
      unfold cancel in Htm. apply list_elem_of_filter in Htm as [_ Htm].
      assert (Hh2 : handle tm ≠ timeoutHandle).
      { pose proof (cancel_gone timeoutHandle (timers w)) as H.
        rewrite Forall_forall in H. by apply H. }
      apply list_elem_of_filter in Htm as [_ Htm].
      split_and!; [done|done|]. intros a b Hab.
      unfold hostOK in Hok. rewrite Forall_forall in Hok, Hp.
      destruct (Hok tm Htm) as [_ Hcb]. destruct (Hcb a b Hab) as (Hor & _ & _).
      destruct (decide (a = timeoutHandle ∨ a = intervalHandle ∨
                        b = timeoutHandle ∨ b = intervalHandle)) as [Hm|Hm]; [|lia].
      destruct (Hp tm Htm a b Hab Hm). lia.
  - rewrite entered_own. f_equal. apply Hc.
Qed.

Lemma fire_disarmed h w :
  disarmed' w →
  outcome (fire h w) = Normal tt ∧ disarmed' (final (fire h w)) ∧
  entered (trace (fire h w)) = 0.
Proof.
  intros Hd. rewrite fire_run.
  destruct (findTimer h (timers w)) as [tm|] eqn:Hf; [|done].
  apply findTimer_Some in Hf as [Htm Hh]. cbn zeta.
  set (w0 := match kind tm with
             | Timeout => with_timers (cancel h (timers w)) w
             | Interval => w
             end).
  assert (Hd0 : disarmed' w0).
  { subst w0. destruct (kind tm); [by apply disarmed_cancel|done]. }
  assert (Hcb : ∀ a b, callback tm = HandleFlushTimer a b → a ≠ timeoutHandle).
  { intros a b Hab. destruct Hd as (_ & _ & _ & Hp). rewrite Forall_forall in Hp.
    destruct (Hp tm Htm) as (_ & _ & Hm). by destruct (Hm a b Hab). }
  destruct (runClosure_disarmed (callback tm) w0 Hd0 Hcb) as (Ho & Hd' & Hc).
  destruct (outcome (runClosure (callback tm) w0)); [| |done];
    cbn [outcome final trace]; (split_and!; [done|done|]).
  - by rewrite entered_skip.
  - by rewrite entered_skip, entered_snoc_unhandled.
Qed.

Lemma fire_armed_other h w :
  armed' w → h ≠ timeoutHandle → h ≠ intervalHandle →
  outcome (fire h w) = Normal tt ∧ armed' (final (fire h w)) ∧
  entered (trace (fire h w)) = 0.
Proof.
  intros Ha Hh1 Hh2. rewrite fire_run.
  destruct (findTimer h (timers w)) as [tm|] eqn:Hf; [|done].
  apply findTimer_Some in Hf as [Htm Hh]. cbn zeta.
  set (w0 := match kind tm with
             | Timeout => with_timers (cancel h (timers w)) w
             | Interval => w
             end).
  assert (Ha0 : armed' w0).
  { subst w0. destruct (kind tm); [by apply armed_cancel|done]. }
  assert (Hcb : ∀ a b, callback tm = HandleFlushTimer a b →
                       a ≠ timeoutHandle ∧ a ≠ intervalHandle ∧
                       b ≠ timeoutHandle ∧ b ≠ intervalHandle).
  { intros a b Hab. destruct Ha as (Hok & _ & _ & _ & _ & Hp).
    unfold hostOK in Hok. rewrite Forall_forall in Hok, Hp.
    destruct (Hok tm Htm) as [_ Hown]. destruct (Hown a b Hab) as (Hor & _ & _).
    destruct (decide (a = timeoutHandle ∨ a = intervalHandle ∨
                      b = timeoutHandle ∨ b = intervalHandle)) as [Hm|Hm]; [|lia].
    destruct (Hp tm Htm a b Hab Hm). lia. }
  destruct (runClosure_armed (callback tm) w0 Ha0 Hcb) as (Ho & Ha' & Hc).
  destruct (outcome (runClosure (callback tm) w0)); [| |done];
    cbn [outcome final trace]; (split_and!; [done|done|]).
  - by rewrite entered_skip.
  - by rewrite entered_skip, entered_snoc_unhandled.
Qed.

Lemma fire_armed_own h w :
  armed' w → h = timeoutHandle ∨ h = intervalHandle →
  outcome (fire h w) = Normal tt ∧ disarmed' (final (fire h w)) ∧
  entered (trace (fire h w)) = 1.
Proof.
  intros (Hok & Ht & Hi & (tm1 & Hf1 & Hc1) & (tm2 & Hf2 & Hc2) & Hp) Hh.
  rewrite fire_run.
  assert (∃ tm, findTimer h (timers w) = Some tm ∧
                callback tm = HandleFlushTimer timeoutHandle intervalHandle)
    as (tm & -> & ->).
  { destruct Hh as [->| ->]; [by exists tm1|by exists tm2]. }
  cbn zeta.
  set (w0 := match kind tm with
             | Timeout => with_timers (cancel h (timers w)) w
             | Interval => w
             end).
  assert (Hown : let r := runClosure (HandleFlushTimer timeoutHandle intervalHandle) w0 in
                 outcome r ≠ OutOfFuel ∧ disarmed' (final r) ∧ entered (trace r) = 1).
  { apply runClosure_own; subst w0; destruct (kind tm); try done.
    - by apply hostOK_cancel.
    - simpl. by apply Forall_cancel. }
  cbn zeta in Hown. destruct Hown as (Ho & Hd' & Hc).
  destruct (outcome (runClosure _ w0)); [| |done];
    cbn [outcome final trace]; (split_and!; [done|done|]).
  - by rewrite entered_skip.
  - by rewrite entered_skip, entered_snoc_unhandled.
Qed.

Lemma fires_cons h schedule w :
  outcome (fire h w) = Normal tt →
  fires (h :: schedule) w =
  Run (outcome (fires schedule (final (fire h w))))
      (final (fires schedule (final (fire h w))))
      (trace (fire h w) ++ trace (fires schedule (final (fire h w)))).
Proof. intros Ho. cbn [fires]. by rewrite (bind_Normal _ _ _ tt). Qed.

Lemma fires_disarmed schedule w :
  disarmed' w →
  outcome (fires schedule w) = Normal tt ∧ disarmed' (final (fires schedule w)) ∧
  entered (trace (fires schedule w)) = 0.
Proof.
  revert w. induction schedule as [|h schedule IH]; intros w Hd; [done|].
  destruct (fire_disarmed h w Hd) as (Ho & Hd' & Hc).
  rewrite fires_cons by done. cbn [outcome final trace].
  destruct (IH _ Hd') as (Ho' & Hd'' & Hc').
  split_and!; [done|done|]. by rewrite handleFlushTimerCalls_app, Hc, Hc'.
Qed.

(** Whatever the host fires and in whatever order, the pair's callback is
    entered once if one of the two timers is ever fired, and not at all
    otherwise; once it has been entered both timers are gone. *)
Lemma fires_armed schedule w :
  armed' w →
  outcome (fires schedule w) = Normal tt ∧
  if bool_decide (timeoutHandle ∈ schedule ∨ intervalHandle ∈ schedule)
  then entered (trace (fires schedule w)) = 1 ∧ disarmed' (final (fires schedule w))
  else entered (trace (fires schedule w)) = 0 ∧ armed' (final (fires schedule w)).
Proof.
  revert w. induction schedule as [|h schedule IH]; intros w Ha.
  { split; [done|]. rewrite bool_decide_eq_false_2; [done|].
    intros [H|H]; by apply not_elem_of_nil in H. }
  destruct (decide (h = timeoutHandle ∨ h = intervalHandle)) as [Hh|Hh].
  - destruct (fire_armed_own h w Ha Hh) as (Ho & Hd & Hc).
    rewrite fires_cons by done. cbn [outcome final trace].
    destruct (fires_disarmed schedule _ Hd) as (Ho' & Hd' & Hc').
    split; [done|]. rewrite bool_decide_eq_true_2.
    + split; [|done]. by rewrite handleFlushTimerCalls_app, Hc, Hc'.
    + destruct Hh as [->| ->]; [left|right]; left.
  - destruct (fire_armed_other h w Ha) as (Ho & Ha' & Hc); [lia..|].
    rewrite fires_cons by done. cbn [outcome final trace].
    destruct (IH _ Ha') as (Ho' & IH').
    split; [done|].
    assert (Hiff : (timeoutHandle ∈ h :: schedule ∨ intervalHandle ∈ h :: schedule) ↔
                   (timeoutHandle ∈ schedule ∨ intervalHandle ∈ schedule)).
    { rewrite !elem_of_cons. split; [|tauto]. intros [[?|?]|[?|?]]; try tauto; lia. }
    rewrite (bool_decide_ext _ _ Hiff).
    destruct (bool_decide _); destruct IH' as [Hc' Hs]; (split; [|done]);
      by rewrite handleFlushTimerCalls_app, Hc, Hc'.
Qed.

End race.

(** The timer-based [requestFlush] arms the pair of handles it draws. *)
Lemma requestFlushTaskQueue_armed w :
  hostOK w → armed (nextHandle w) (S (nextHandle w)) (armMacro w).
Proof.
  intros Hok.
  assert (Hg : grows w (armMacro w)).
  { destruct (tame_requestFlushTaskQueue w) as (_ & Hg & _).
    by rewrite requestFlushTaskQueue_run in Hg. }
  assert (Hnone : ∀ h, nextHandle w ≤ h → findTimer h (timers w) = None).
  { intros h Hh. apply findTimer_None. eapply Forall_impl; [exact Hok|].
    intros tm [Htm _]. lia. }
  assert (Hts : timers (armMacro w) =
                timers w ++ [Timer (nextHandle w) Timeout 0
                               (HandleFlushTimer (nextHandle w) (S (nextHandle w)));
                             Timer (S (nextHandle w)) Interval 50
                               (HandleFlushTimer (nextHandle w) (S (nextHandle w)))]).
  { simpl. by rewrite <- app_assoc. }
  split_and!; [by eapply hostOK_grows|simpl; lia|simpl; lia| | |].
  - eexists. rewrite Hts, findTimer_app_None by (by apply Hnone).
    rewrite findTimer_cons. rewrite decide_True by done. done.
  - eexists. rewrite Hts, findTimer_app_None by (apply Hnone; lia).
    rewrite !findTimer_cons. rewrite decide_False by (simpl; lia).
    rewrite decide_True by done. done.
  - rewrite Hts. apply Forall_app. split.
    + eapply Forall_impl; [exact Hok|]. intros tm [_ Hcb] a b Hab Hor.
      destruct (Hcb a b Hab) as (_ & ? & ?). lia.
    + apply Forall_cons. split; [|apply Forall_singleton];
        by intros a b [= <- <-] _.
Qed.

(** ** Worlds the module can reach *)

(** The micro loop leaves the macro array as the bodies it ran extended it,
    and only registers timers. *)
Lemma whileMicroTaskQueue_frame fuel cap index w :
  defined (microTaskQueue w) →
  grows w (final (whileMicroTaskQueue fuel cap index w)) ∧
  taskQueue (final (whileMicroTaskQueue fuel cap index w)) =
  taskQueue w ++
    (Some <$> queuedMacro (trace (whileMicroTaskQueue fuel cap index w))).
Proof.
  revert index w. induction fuel as [|fuel IH]; intros index w Hdef.
  { simpl. split; [apply grows_refl|by rewrite app_nil_r]. }
  destruct (decide (index < length (microTaskQueue w))) as [Hlt|Hge].
  2:{ rewrite whileMicroTaskQueue_exit by lia. simpl.
      split; [apply grows_refl|by rewrite app_nil_r]. }
  destruct (lookup_lt_is_Some_2 _ _ Hlt) as [c Hc].
  destruct (Forall_lookup_1 _ _ _ _ Hdef Hc) as [t ->].
  rewrite (whileMicroTaskQueue_step _ _ _ _ t) by done. cbn zeta.
  destruct (tame_invoke (Some t) w) as (_ & Hg & _).
  assert (Hq : queuedMacro (trace (invoke (Some t) w)) = macroOf (effects (call t))).
  { rewrite invoke_trace. apply acts_queuedMacro. }
  assert (Ht : taskQueue (final (invoke (Some t) w)) =
               taskQueue w ++ (Some <$> macroOf (effects (call t)))).
  { by rewrite invoke_final, acts_taskQueue. }
  assert (Hdef' : defined (microTaskQueue (final (invoke (Some t) w)))).
  { rewrite invoke_final, acts_microTaskQueue. apply Forall_app. split; [done|].
    apply Forall_fmap, Forall_true. by eexists. }
  assert (Hlen : S index ≤ length (microTaskQueue (final (invoke (Some t) w)))).
  { rewrite invoke_final, acts_microTaskQueue, length_app. lia. }
  destruct (raises (call t)) as [error|]; cbn [outcome final trace].
  { by rewrite Hq. }
  destruct (decide (cap < S index)).
  - destruct (IH 0 (with_microTaskQueue
                      (compacted (S index) (microTaskQueue (final (invoke (Some t) w))))
                      (final (invoke (Some t) w)))) as [Hg' Ht'].
    { by apply compacted_defined. }
    split.
    + eapply grows_trans; [exact Hg|]. eapply grows_trans; [|exact Hg'].
      by apply grows_same.
    + rewrite Ht', queuedMacro_app, Hq. cbn [taskQueue with_microTaskQueue].
      by rewrite Ht, (fmap_app Some (macroOf _)), app_assoc.
  - destruct (IH (S index) (final (invoke (Some t) w)) Hdef') as [Hg' Ht'].
    split; [by eapply grows_trans|].
    rewrite Ht', queuedMacro_app, Hq.
    by rewrite Ht, (fmap_app Some (macroOf _)), app_assoc.
Qed.

Lemma onError_microTaskQueue error task w :
  microTaskQueue (final (onError error task w)) =
  microTaskQueue w ++ (Some <$> queuedMicro (trace (onError error task w))).
Proof.
  destruct task as [t|]; [|simpl; by rewrite app_nil_r].
  destruct (onErrorOf t) as [h|] eqn:Hh.
  - rewrite (onError_handler _ _ h) by done. cbn [final trace].
    rewrite acts_microTaskQueue. cbn. by rewrite (acts_queuedMicro _ w).
  - rewrite onError_unhandled by done. cbn [final trace].
    destruct hasSetImmediate; simpl; by rewrite app_nil_r.
Qed.

Lemma defined_app_Some (q : list (option Task)) ts :
  defined q → defined (q ++ (Some <$> ts)).
Proof. intros Hq. apply Forall_app. split; [done|apply defined_fmap_Some]. Qed.

Lemma hostOK_tame {A} (m : js A) w : tame m → hostOK w → hostOK (final (m w)).
Proof. intros Hm Hok. destruct (Hm w) as (_ & Hg & _). by eapply hostOK_grows. Qed.

Lemma wellFormed_constructor : wellFormed constructor.
Proof. split_and!; constructor. Qed.

Lemma wellFormed_acts l w : wellFormed w → wellFormed (final (acts l w)).
Proof.
  intros (Hm & Ht & Hok). split_and!.
  - rewrite acts_microTaskQueue. by apply defined_app_Some.
  - rewrite acts_taskQueue. by apply defined_app_Some.
  - by apply hostOK_tame; [apply tame_acts|].
Qed.

Lemma wellFormed_flushTaskQueue w :
  wellFormed w → wellFormed (final (flushTaskQueue w)).
Proof.
  intros (Hm & Ht & Hok). destruct (defined_inv _ Ht) as [ts Hts].
  split_and!.
  - pose proof (whileTaskQueue_spec ts [] (with_taskQueue [] w)) as (H1 & _ & H3).
    cbn zeta in *. simpl in H1, H3.
    rewrite flushTaskQueue_run. cbn zeta. rewrite Hts, length_fmap.
    destruct (outcome (whileTaskQueue _ _ _ _)) as [[|error task]| |];
      cbn [final]; try done.
    + rewrite H3. by apply defined_app_Some.
    + rewrite onError_microTaskQueue, H3. by do 2 apply defined_app_Some.
  - rewrite (flushTaskQueue_taskQueue w ts Hts). apply defined_fmap_Some.
  - by apply hostOK_tame; [apply tame_flushTaskQueue|].
Qed.

Lemma wellFormed_flushMicroTaskQueue fuel w :
  wellFormed w → wellFormed (final (flushMicroTaskQueue fuel w)).
Proof.
  intros (Hm & Ht & Hok).
  pose proof (whileMicroTaskQueue_spec fuel (microTaskQueueCapacity w) 0 w Hm)
    as [Hdef _].
  pose proof (whileMicroTaskQueue_frame fuel (microTaskQueueCapacity w) 0 w Hm)
    as [Hg Hq].
  cbn zeta in Hdef. rewrite flushMicroTaskQueue_run. cbn zeta.
  set (r := whileMicroTaskQueue fuel (microTaskQueueCapacity w) 0 w) in *.
  assert (Hr : wellFormed (final r)).
  { split_and!; [done| |by eapply hostOK_grows].
    rewrite Hq. by apply defined_app_Some. }
  assert (Hrm : ∀ w', wellFormed w' → wellFormed (with_microTaskQueue [] w')).
  { intros w' (_ & ? & ?). split_and!; [constructor|done|done]. }
  assert (He : ∀ error task, wellFormed (final (onError error task (final r)))).
  { intros error task. destruct Hr as (Hm' & Ht' & Hok'). split_and!.
    - rewrite onError_microTaskQueue. by apply defined_app_Some.
    - rewrite onError_taskQueue. by apply defined_app_Some.
    - by apply hostOK_tame; [apply tame_onError|]. }
  destruct (outcome r) as [[|error task]| |]; cbn [final]; auto.
  destruct (outcome (onError error task (final r))); cbn [final]; auto.
Qed.

Lemma wellFormed_fire h w : wellFormed w → wellFormed (final (fire h w)).
Proof.
  intros Hw. rewrite fire_run.
  destruct (findTimer h (timers w)) as [tm|]; [|done]. cbn zeta.
  assert (Hc : ∀ a w', wellFormed w' →
                       wellFormed (with_timers (cancel a (timers w')) w')).
  { intros a w' (? & ? & ?). split_and!; [done|done|by apply hostOK_cancel]. }
  set (w0 := match kind tm with
             | Timeout => with_timers (cancel h (timers w)) w
             | Interval => w
             end).
  assert (Hw0 : wellFormed w0) by (subst w0; destruct (kind tm); auto).
  assert (Hr : wellFormed (final (runClosure (callback tm) w0))).
  { destruct (callback tm) as [a b|error]; [|done].
    rewrite runClosure_handleFlushTimer. cbn zeta. cbn [final].
    apply wellFormed_flushTaskQueue.
    apply (Hc b (with_timers (cancel a (timers w0)) w0)). by apply Hc. }
  by destruct (outcome (runClosure (callback tm) w0)).
Qed.

(** X6: every world reached from [constructor] by enqueueing, by draining
    either tier and by the host firing timers is well formed: neither array
    has a hole ([undefined] cell), also after compactions, and every timer
    in the table was registered under a handle the host gave out, a
    [handleFlushTimer] callback holding its own timer's handle. *)
Lemma wellFormed_invariant :
  wellFormed constructor ∧
  (∀ t w, wellFormed w → wellFormed (final (queueMicroTask t w))) ∧
  (∀ t w, wellFormed w → wellFormed (final (queueTask t w))) ∧
  (∀ w, wellFormed w → wellFormed (final (flushTaskQueue w))) ∧
  (∀ fuel w, wellFormed w → wellFormed (final (flushMicroTaskQueue fuel w))) ∧
  (∀ h w, wellFormed w → wellFormed (final (fire h w))).
Proof.
  split_and!.
  - apply wellFormed_constructor.
  - intros t w Hw. pose proof (wellFormed_acts [QueueMicroTask t] w Hw) as H.
    rewrite acts_cons in H. exact H.
  - intros t w Hw. pose proof (wellFormed_acts [QueueTask t] w Hw) as H.
    rewrite acts_cons in H. exact H.
  - apply wellFormed_flushTaskQueue.
  - apply wellFormed_flushMicroTaskQueue.
  - apply wellFormed_fire.
Qed.

(** * Enqueueing, deferral and failure *)

Lemma onError_returns error t w :
  (∀ h, onErrorOf t = Some h → raises (h error) = None) →
  outcome (onError error (Some t) w) = Normal tt.
Proof.
  intros Hh. destruct (onErrorOf t) as [h|] eqn:Ht.
  - rewrite (onError_handler _ _ h) by done. simpl. by rewrite (Hh h).
  - by rewrite onError_unhandled.
Qed.

Lemma acts_burst_micro ts w :
  microTaskQueue w ≠ [] →
  trace (acts (QueueMicroTask <$> ts) w) = EvQueueMicroTask <$> ts.
Proof.
  revert w. induction ts as [|t ts IH]; intros w Hne; [done|].
  cbn [fmap list_fmap]. rewrite acts_cons. cbn [trace].
  rewrite IH by (rewrite act_microTaskQueue; by destruct (microTaskQueue w)).
  unfold act. rewrite queueMicroTask_run.
  destruct (microTaskQueue w); [done|]. by rewrite decide_False by (simpl; lia).
Qed.

Lemma acts_burst_macro ts w :
  taskQueue w ≠ [] →
  trace (acts (QueueTask <$> ts) w) = EvQueueTask <$> ts.
Proof.
  revert w. induction ts as [|t ts IH]; intros w Hne; [done|].
  cbn [fmap list_fmap]. rewrite acts_cons. cbn [trace].
  rewrite IH by (rewrite act_taskQueue; by destruct (taskQueue w)).
  unfold act. rewrite queueTask_run.
  destruct (taskQueue w); [done|]. by rewrite decide_False by (simpl; lia).
Qed.

(** C5: a run of consecutive [queueMicroTask] (resp. [queueTask]) calls that
    starts on an empty array calls the tier's [requestFlush] exactly once,
    inside the first call; and no call made while the tier's array is
    non-empty calls [requestFlush]. *)
Theorem arm_once :
  (∀ w t ts,
     microTaskQueue w = [] →
     trace (acts (QueueMicroTask <$> (t :: ts)) w) =
       EvQueueMicroTask t :: EvRequestFlushMicroTaskQueue :: (EvQueueMicroTask <$> ts)
     ∧ requestsMicro (trace (acts (QueueMicroTask <$> (t :: ts)) w)) = 1) ∧
  (∀ w t ts,
     taskQueue w = [] →
     trace (acts (QueueTask <$> (t :: ts)) w) =
       EvQueueTask t :: EvRequestFlushTaskQueue :: (EvQueueTask <$> ts)
     ∧ requestsMacro (trace (acts (QueueTask <$> (t :: ts)) w)) = 1) ∧
  (∀ w t,
     microTaskQueue w ≠ [] → requestsMicro (trace (queueMicroTask t w)) = 0) ∧
  (∀ w t,
     taskQueue w ≠ [] → requestsMacro (trace (queueTask t w)) = 0).
Proof.
  split_and!.
  - intros w t ts Hw.
    assert (Htr : trace (acts (QueueMicroTask <$> (t :: ts)) w) =
                  EvQueueMicroTask t :: EvRequestFlushMicroTaskQueue ::
                    (EvQueueMicroTask <$> ts)).
    { cbn [fmap list_fmap]. rewrite acts_cons. cbn [trace].
      unfold act at 1 2. rewrite queueMicroTask_run, Hw.
      rewrite decide_True by (simpl; lia). cbn [final trace].
      rewrite acts_burst_micro; [done|].
      unfold pushMicro, array_push. simpl. by destruct (microTaskQueue _). }
    split; [done|]. rewrite Htr. unfold requestsMicro.
    rewrite filter_cons_False by done. rewrite filter_cons_True by done.
    cbn [length]. f_equal. apply length_zero_iff_nil. clear.
    induction ts as [|t' ts IH]; [done|].
    cbn [fmap list_fmap]. by rewrite filter_cons_False by done.
  - intros w t ts Hw.
    assert (Htr : trace (acts (QueueTask <$> (t :: ts)) w) =
                  EvQueueTask t :: EvRequestFlushTaskQueue :: (EvQueueTask <$> ts)).
    { cbn [fmap list_fmap]. rewrite acts_cons. cbn [trace].
      unfold act at 1 2. rewrite queueTask_run, Hw.
      rewrite decide_True by (simpl; lia). cbn [final trace].
      rewrite acts_burst_macro; [done|].
      unfold pushMacro, array_push. simpl. by destruct (taskQueue _). }
    split; [done|]. rewrite Htr. unfold requestsMacro.
    rewrite filter_cons_False by done. rewrite filter_cons_True by done.
    cbn [length]. f_equal. apply length_zero_iff_nil. clear.
    induction ts as [|t' ts IH]; [done|].
    cbn [fmap list_fmap]. by rewrite filter_cons_False by done.
  - intros w t Hne. rewrite queueMicroTask_run.
    destruct (microTaskQueue w); [done|]. by rewrite decide_False by (simpl; lia).
  - intros w t Hne. rewrite queueTask_run.
    destruct (taskQueue w); [done|]. by rewrite decide_False by (simpl; lia).
Qed.

(** C3 (amended): a task [D] handed to [queueTask] by a task running inside
    [flushTaskQueue] is not invoked within that drain: the drain invokes only
    entries of the array captured at its start, and [D] is an entry of the
    instance's fresh array when the drain ends.  The next macro drain invokes
    [D] provided the tasks ahead of [D] in that array return. *)
Theorem macro_reentrant_deferred w ts D :
  taskQueue w = Some <$> ts →
  D ∈ queuedMacro (trace (flushTaskQueue w)) →
  calls (trace (flushTaskQueue w)) `prefix_of` ts ∧
  (D ∉ ts → D ∉ calls (trace (flushTaskQueue w))) ∧
  ∃ pre post,
    taskQueue (final (flushTaskQueue w)) = Some <$> (pre ++ D :: post) ∧
    (Forall returns pre →
     (pre ++ [D]) `prefix_of` calls (trace (flushTaskQueue (final (flushTaskQueue w))))).
Proof.
  intros Hts HD.
  pose proof (flushTaskQueue_prefix w ts Hts) as Hprefix.
  split_and!; [done| |].
  - intros Hnot Hin. apply Hnot. destruct Hprefix as [k ->].
    apply elem_of_app. by left.
  - apply list_elem_of_split in HD as (pre & post & Hsplit).
    exists pre, post.
    assert (Hq : taskQueue (final (flushTaskQueue w)) = Some <$> (pre ++ D :: post)).
    { rewrite (flushTaskQueue_taskQueue w ts Hts). by rewrite Hsplit. }
    split; [done|]. intros Hpre.
    rewrite flushTaskQueue_calls, Hq, length_fmap.
    exact (whileTaskQueue_reaches pre D post [] _ Hpre).
Qed.

(** X16: in a micro drain in which some task throws, the loop stops at that
    task (it is the last task invoked) and the error and the task are handed
    to [onError].  When the task has no [onError] handler, or its handler
    returns, the drain then returns with the micro array truncated to empty,
    which drops whatever was still pending.  When the handler throws, the
    drain completes by that throw from inside the [catch] clause: the
    truncation is not reached and the array is left as the handler left it,
    not empty. *)
Theorem micro_drain_aborts_on_throw fuel w t error :
  defined (microTaskQueue w) →
  t ∈ calls (trace (flushMicroTaskQueue fuel w)) →
  raises (call t) = Some error →
  ∃ pre w1 tr1,
    calls (trace (flushMicroTaskQueue fuel w)) = pre ++ [t] ∧
    Forall returns pre ∧
    calls tr1 = pre ++ [t] ∧
    trace (flushMicroTaskQueue fuel w) =
      EvFlushMicroTaskQueue :: tr1 ++ trace (onError error (Some t) w1) ∧
    ((∀ h, onErrorOf t = Some h → raises (h error) = None) →
     final (flushMicroTaskQueue fuel w) =
       with_microTaskQueue [] (final (onError error (Some t) w1)) ∧
     outcome (flushMicroTaskQueue fuel w) = Normal tt ∧
     microTaskQueue (final (flushMicroTaskQueue fuel w)) = []) ∧
    (∀ h x, onErrorOf t = Some h → raises (h error) = Some x →
     final (flushMicroTaskQueue fuel w) = final (onError error (Some t) w1) ∧
     outcome (flushMicroTaskQueue fuel w) = Throw x ∧
     microTaskQueue (final (flushMicroTaskQueue fuel w)) =
       microTaskQueue w1 ++ (Some <$> microOf (effects (h error))) ∧
     microTaskQueue (final (flushMicroTaskQueue fuel w)) ≠ []).
Proof.
  intros Hdef Hin Hraise.
  destruct (flushMicroTaskQueue_thrower fuel w t error Hdef Hin Hraise)
    as (pre & w1 & tr1 & Hloop & Hcalls & Hpre & Hne & Htr).
  exists pre, w1, tr1. split_and!; [|done|done|done| |].
  - rewrite Htr. change (calls (?e :: ?l)) with (calls ([e] ++ l)).
    by rewrite !calls_app, onError_calls, app_nil_r, Hcalls.
  - intros Hh.
    assert (Hrun : flushMicroTaskQueue fuel w =
                   Run (Normal tt)
                       (with_microTaskQueue [] (final (onError error (Some t) w1)))
                       (EvFlushMicroTaskQueue :: tr1 ++
                          trace (onError error (Some t) w1))).
    { rewrite flushMicroTaskQueue_run, Hloop. cbn [outcome final trace]. cbn zeta.
      by rewrite (onError_returns error t w1 Hh). }
    by rewrite Hrun.
  - intros h x Hh Hx.
    assert (Hrun : flushMicroTaskQueue fuel w =
                   Run (Throw x) (final (onError error (Some t) w1))
                       (EvFlushMicroTaskQueue :: tr1 ++
                          trace (onError error (Some t) w1))).
    { rewrite flushMicroTaskQueue_run, Hloop. cbn [outcome final trace]. cbn zeta.
      rewrite (onError_handler _ _ h) by done. cbn [outcome final trace].
      by rewrite Hx. }
    rewrite Hrun. cbn [outcome final].
    assert (Hq : microTaskQueue (final (onError error (Some t) w1)) =
                 microTaskQueue w1 ++ (Some <$> microOf (effects (h error)))).
    { rewrite (onError_handler _ _ h) by done. cbn [final].
      apply acts_microTaskQueue. }
    split_and!; [done|done|done|].
    rewrite Hq. by intros [? _]%app_eq_nil.
Qed.

(** C8: [queueMicroTask] and [queueTask] always return normally, and run no
    task while they do; and what a drain lets escape is never the error of a
    task body: a drain completes by a throw only with what the [onError]
    handler of the throwing task has thrown itself. *)
Theorem errors_stay_in_drain :
  (∀ t w, outcome (queueMicroTask t w) = Normal tt ∧
          calls (trace (queueMicroTask t w)) = []) ∧
  (∀ t w, outcome (queueTask t w) = Normal tt ∧
          calls (trace (queueTask t w)) = []) ∧
  (∀ w x,
     defined (taskQueue w) →
     outcome (flushTaskQueue w) = Throw x →
     ∃ t error h,
       t ∈ calls (trace (flushTaskQueue w)) ∧ raises (call t) = Some error ∧
       onErrorOf t = Some h ∧ raises (h error) = Some x) ∧
  (∀ fuel w x,
     defined (microTaskQueue w) →
     outcome (flushMicroTaskQueue fuel w) = Throw x →
     ∃ t error h,
       t ∈ calls (trace (flushMicroTaskQueue fuel w)) ∧ raises (call t) = Some error ∧
       onErrorOf t = Some h ∧ raises (h error) = Some x).
Proof.
  split_and!.
  - intros t w. rewrite queueMicroTask_run. by case_decide.
  - intros t w. rewrite queueTask_run. by case_decide.
  - intros w x Hdef Hthrow.
    destruct (defined_inv _ Hdef) as [ts Hts].
    pose proof (whileTaskQueue_spec ts [] (with_taskQueue [] w)) as [Hspec _].
    cbn zeta in Hspec. simpl in Hspec.
    rewrite flushTaskQueue_calls. rewrite flushTaskQueue_run in Hthrow.
    cbn zeta in Hthrow. rewrite Hts, length_fmap in Hthrow |- *.
    destruct (outcome (whileTaskQueue _ _ _ _)) as [[|error task]| |]; try done.
    destruct Hspec as (pre & t & post & -> & _ & _ & Ht & Hcalls).
    cbn [outcome] in Hthrow.
    destruct (onErrorOf t) as [h|] eqn:Hh.
    + rewrite (onError_handler _ _ h) in Hthrow by done. cbn [outcome] in Hthrow.
      exists t, error, h. split_and!; try done.
      * rewrite Hcalls. apply elem_of_app. right. by apply list_elem_of_singleton.
      * by destruct (raises (h error)) as [y|]; [injection Hthrow as ->|].
    + by rewrite onError_unhandled in Hthrow.
  - intros fuel w x Hdef Hthrow.
    pose proof (whileMicroTaskQueue_spec fuel (microTaskQueueCapacity w) 0 w Hdef)
      as [_ Hspec]. cbn zeta in Hspec.
    rewrite flushMicroTaskQueue_run in Hthrow |- *. cbn zeta in Hthrow |- *.
    destruct (outcome (whileMicroTaskQueue _ _ _ _)) as [[|error task]| |]; try done.
    destruct Hspec as (t & pre & -> & Ht & Hcalls & _ & _).
    destruct (onErrorOf t) as [h|] eqn:Hh.
    + rewrite (onError_handler _ _ h) in Hthrow |- * by done.
      cbn [outcome final trace] in Hthrow |- *.
      exists t, error, h.
      destruct (raises (h error)) as [y|]; [|done].
      cbn [trace]. injection Hthrow as ->. split_and!; try done.
      change (calls (?e :: ?l)) with (calls ([e] ++ l)).
      rewrite !calls_app, Hcalls. cbn. rewrite !elem_of_app. left. right.
      by apply list_elem_of_singleton.
    + by rewrite onError_unhandled in Hthrow.
Qed.

(** X17: when a micro task throws and its [onError] handler calls
    [queueMicroTask] and returns, the task [X] it enqueues is lost.  The
    array is non-empty while the handler runs, so nothing the handler
    enqueues arms the micro tier; no task is invoked after the handler; the
    truncation that ends the drain empties the array; and a later micro
    drain of the world this drain leaves invokes nothing. *)
Theorem handler_enqueue_is_lost fuel w t error h X :
  defined (microTaskQueue w) →
  t ∈ calls (trace (flushMicroTaskQueue fuel w)) →
  raises (call t) = Some error →
  onErrorOf t = Some h →
  QueueMicroTask X ∈ effects (h error) →
  raises (h error) = None →
  ∃ tr1 tr2,
    trace (flushMicroTaskQueue fuel w) = tr1 ++ EvOnError t error :: tr2 ∧
    X ∈ queuedMicro tr2 ∧ requestsMicro tr2 = 0 ∧ calls tr2 = [] ∧
    outcome (flushMicroTaskQueue fuel w) = Normal tt ∧
    microTaskQueue (final (flushMicroTaskQueue fuel w)) = [] ∧
    ∀ fuel',
      calls (trace (flushMicroTaskQueue (S fuel') (final (flushMicroTaskQueue fuel w)))) = [].
Proof.
  intros Hdef Hin Hraise Hh HX Hret.
  destruct (flushMicroTaskQueue_thrower fuel w t error Hdef Hin Hraise)
    as (pre & w1 & tr1 & Hloop & Hcalls & Hpre & Hne & Htr).
  assert (Hrun : flushMicroTaskQueue fuel w =
                 Run (Normal tt)
                     (with_microTaskQueue [] (final (acts (effects (h error)) w1)))
                     ((EvFlushMicroTaskQueue :: tr1) ++
                      EvOnError t error :: trace (acts (effects (h error)) w1))).
  { rewrite flushMicroTaskQueue_run, Hloop. cbn [outcome final trace]. cbn zeta.
    rewrite (onError_handler _ _ h) by done. cbn [outcome final trace].
    by rewrite Hret. }
  exists (EvFlushMicroTaskQueue :: tr1), (trace (acts (effects (h error)) w1)).
  rewrite Hrun. cbn [outcome final trace]. split_and!; [done| | | |done|done|].
  - rewrite acts_queuedMicro. by apply elem_of_microOf.
  - by apply acts_requestsMicro.
  - apply acts_calls.
  - intros fuel'. rewrite flushMicroTaskQueue_run. cbn zeta.
    rewrite whileMicroTaskQueue_exit by (simpl; lia). done.
Qed.

(** * Further properties of the code *)

(** ** What every method keeps *)

Section keeps.

Variable P : World → Prop.

Lemma keeps_ret {A} (a : A) : keeps P (ret a).
Proof. by intros w. Qed.

Lemma keeps_throw {A} error : keeps P (@throw A error).
Proof. by intros w. Qed.

Lemma keeps_diverge {A} : keeps P (@diverge A).
Proof. by intros w. Qed.

Lemma keeps_gets {A} (f : World → A) : keeps P (gets f).
Proof. by intros w. Qed.

Lemma keeps_emit ev : keeps P (emit ev).
Proof. by intros w. Qed.

Lemma keeps_modify f : (∀ w, P w → P (f w)) → keeps P (modify f).
Proof. intros Hf w Hw. by apply Hf. Qed.

Lemma keeps_bind {A B} (m : js A) (k : A → js B) :
  keeps P m → (∀ a, keeps P (k a)) → keeps P (bind m k).
Proof.
  intros Hm Hk w Hw. unfold bind. specialize (Hm w Hw).
  destruct (outcome (m w)) as [a| |]; [|done..]. by apply Hk.
Qed.

Lemma keeps_attempt {A} (m : js A) : keeps P m → keeps P (attempt m).
Proof.
  intros Hm w Hw. unfold attempt. specialize (Hm w Hw).
  by destruct (outcome (m w)).
Qed.

(** A property that does not depend on the micro array or on the pending
    immediates, and that the two enqueue operations and the registration of a
    rethrowing timeout keep, is kept by bodies, by [onError], by the macro
    loop and by the micro drain. *)
Hypothesis P_microTaskQueue : ∀ q w, P w → P (with_microTaskQueue q w).
Hypothesis P_immediates : ∀ cs w, P w → P (with_immediates cs w).
Hypothesis P_queueMicroTask : ∀ t, keeps P (queueMicroTask t).
Hypothesis P_queueTask : ∀ t, keeps P (queueTask t).
Hypothesis P_rethrow : ∀ error, keeps P (setTimeout (Rethrow error) 0).

Lemma keeps_acts l : keeps P (acts l).
Proof using P_queueMicroTask P_queueTask.
  induction l as [|a l IH]; [apply keeps_ret|].
  cbn [acts]. apply keeps_bind; [|done]. destruct a; cbn [act]; auto.
Qed.

Lemma keeps_perform b : keeps P (perform b).
Proof using P_queueMicroTask P_queueTask.
  unfold perform. apply keeps_bind; [apply keeps_acts|]. intros _.
  destruct (raises b); [apply keeps_throw|apply keeps_ret].
Qed.

Lemma keeps_invoke task : keeps P (invoke task).
Proof using P_queueMicroTask P_queueTask.
  destruct task as [t|]; [|apply keeps_throw]. cbn [invoke].
  apply keeps_bind; [apply keeps_emit|]. intros _. apply keeps_perform.
Qed.

Lemma keeps_onError error task : keeps P (onError error task).
Proof using P_immediates P_queueMicroTask P_queueTask P_rethrow.
  destruct task as [t|]; [|apply keeps_throw]. cbn [onError].
  destruct (onErrorOf t) as [h|].
  - apply keeps_bind; [apply keeps_emit|]. intros _. apply keeps_perform.
  - destruct hasSetImmediate.
    + apply keeps_modify. intros w. apply P_immediates.
    + apply keeps_bind; [apply P_rethrow|]. intros _. apply keeps_ret.
Qed.

Lemma keeps_whileTaskQueue pending queue index :
  keeps P (whileTaskQueue pending queue index).
Proof using P_queueMicroTask P_queueTask.
  revert index. induction pending as [|pending IH]; intros index; [apply keeps_ret|].
  cbn [whileTaskQueue]. apply keeps_bind; [apply keeps_attempt, keeps_invoke|].
  intros [[]|error]; [apply IH|apply keeps_ret].
Qed.

Lemma keeps_compact index : keeps P (compact index).
Proof using P_microTaskQueue.
  unfold compact. apply keeps_bind.
  { apply keeps_modify. intros w. apply P_microTaskQueue. }
  intros _. apply keeps_bind; [apply keeps_gets|]. intros queue.
  case_decide; [|apply keeps_throw]. apply keeps_modify. apply P_microTaskQueue.
Qed.

Lemma keeps_whileMicroTaskQueue fuel cap index :
  keeps P (whileMicroTaskQueue fuel cap index).
Proof using P_microTaskQueue P_queueMicroTask P_queueTask.
  revert index. induction fuel as [|fuel IH]; intros index; [apply keeps_diverge|].
  cbn [whileMicroTaskQueue]. apply keeps_bind; [apply keeps_gets|]. intros queue.
  case_decide; [|apply keeps_ret].
  apply keeps_bind; [apply keeps_attempt, keeps_invoke|].
  intros [[]|error]; [|apply keeps_ret].
  case_decide; [|apply IH].
  apply keeps_bind; [apply keeps_attempt, keeps_compact|].
  intros [[]|error]; [apply IH|apply keeps_ret].
Qed.

Lemma keeps_flushMicroTaskQueue fuel : keeps P (flushMicroTaskQueue fuel).
Proof using P_microTaskQueue P_immediates P_queueMicroTask P_queueTask P_rethrow.
  unfold flushMicroTaskQueue.
  apply keeps_bind; [apply keeps_emit|]. intros _.
  apply keeps_bind; [apply keeps_gets|]. intros capacity.
  apply keeps_bind; [apply keeps_whileMicroTaskQueue|]. intros r.
  apply keeps_bind.
  { destruct r; [apply keeps_ret|apply keeps_onError]. }
  intros _. apply keeps_modify. apply P_microTaskQueue.
Qed.

(** If the property does not depend on the macro array either, the macro
    drain keeps it; and if not on the timer table, so does the host firing a
    timer. *)
Hypothesis P_taskQueue : ∀ q w, P w → P (with_taskQueue q w).

Lemma keeps_flushTaskQueue : keeps P flushTaskQueue.
Proof using P_immediates P_queueMicroTask P_queueTask P_rethrow P_taskQueue.
  unfold flushTaskQueue.
  apply keeps_bind; [apply keeps_emit|]. intros _.
  apply keeps_bind; [apply keeps_gets|]. intros queue.
  apply keeps_bind; [apply keeps_modify, P_taskQueue|]. intros _.
  apply keeps_bind; [apply keeps_whileTaskQueue|].
  intros [|error task]; [apply keeps_ret|apply keeps_onError].
Qed.

Hypothesis P_timers : ∀ ts w, P w → P (with_timers ts w).

Lemma keeps_fire h : keeps P (fire h).
Proof using P_immediates P_queueMicroTask P_queueTask P_rethrow P_taskQueue P_timers.
  unfold fire. apply keeps_bind; [apply keeps_gets|]. intros ts.
  destruct (findTimer h ts) as [tm|]; [|apply keeps_ret].
  apply keeps_bind; [apply keeps_emit|]. intros _.
  apply keeps_bind.
  { destruct (kind tm); [|apply keeps_ret].
    apply keeps_modify. intros w. apply P_timers. }
  intros _. apply keeps_bind.
  - apply keeps_attempt. destruct (callback tm) as [a b|error]; [|apply keeps_throw].
    cbn [runClosure]. apply keeps_bind; [apply keeps_emit|]. intros _.
    apply keeps_bind; [apply keeps_modify; intros w; apply P_timers|]. intros _.
    apply keeps_bind; [apply keeps_modify; intros w; apply P_timers|]. intros _.
    apply keeps_flushTaskQueue.
  - intros [[]|error]; [apply keeps_ret|apply keeps_emit].
Qed.

End keeps.

(** ** The mutation-observer requestFlush *)

Lemma observerOK_queueMicroTask t : keeps observerOK (queueMicroTask t).
Proof.
  intros w [Ht Hd]. rewrite queueMicroTask_run.
  case_decide; [|done]. split; simpl; [lia|by right].
Qed.

Lemma observerOK_queueTask t : keeps observerOK (queueTask t).
Proof. intros w Hw. rewrite queueTask_run. by case_decide. Qed.

Lemma observerOK_rethrow error : keeps observerOK (setTimeout (Rethrow error) 0).
Proof. by intros w Hw. Qed.

(** X11: [toggle] alternates between 1 and -1 in every world the module reaches,
    and the observed node holds the empty initial data or the current
    [toggle]; so every call of the observer-based [requestFlush] writes to
    the node a value different from the one it holds, and two calls bring
    [toggle] back. *)
Theorem observer_requestFlush_changes_node :
  observerOK constructor ∧
  (∀ t w, observerOK w → observerOK (final (queueMicroTask t w))) ∧
  (∀ t w, observerOK w → observerOK (final (queueTask t w))) ∧
  (∀ w, observerOK w → observerOK (final (flushTaskQueue w))) ∧
  (∀ fuel w, observerOK w → observerOK (final (flushMicroTaskQueue fuel w))) ∧
  (∀ h w, observerOK w → observerOK (final (fire h w))) ∧
  (∀ w, observerOK w →
        nodeData (final (requestFlushMicroTaskQueue w)) ≠ nodeData w ∧
        nodeData (final (requestFlushMicroTaskQueue w)) = Some (- toggle w)%Z ∧
        toggle (final (requestFlushMicroTaskQueue
                         (final (requestFlushMicroTaskQueue w)))) = toggle w).
Proof.
  split_and!.
  - split; [by left|by left].
  - apply observerOK_queueMicroTask.
  - apply observerOK_queueTask.
  - apply keeps_flushTaskQueue;
      [done|apply observerOK_queueMicroTask|apply observerOK_queueTask
      |apply observerOK_rethrow|done].
  - intros fuel. apply keeps_flushMicroTaskQueue;
      [done|done|apply observerOK_queueMicroTask|apply observerOK_queueTask
      |apply observerOK_rethrow].
  - intros h. apply keeps_fire;
      [done|apply observerOK_queueMicroTask|apply observerOK_queueTask
      |apply observerOK_rethrow|done|done].
  - intros w [Ht Hd]. rewrite !requestFlushMicroTaskQueue_run. simpl.
    split_and!; [|done|lia].
    destruct Hd as [-> | ->]; [done|]. intros [= Heq]. lia.
Qed.

(** ** A queued macro task always has an active timer *)

Lemma armed_same th ih w w' :
  timers w' = timers w → nextHandle w' = nextHandle w →
  armed th ih w → armed th ih w'.
Proof. intros Ht Hn Ha. eapply armed_grows; [exact Ha|by apply grows_same]. Qed.

Lemma live_same w w' :
  timers w' = timers w → nextHandle w' = nextHandle w →
  taskQueue w' = taskQueue w → live w → live w'.
Proof.
  intros Ht Hn Hq [Hok Ha]. split.
  - eapply hostOK_grows; [exact Hok|by apply grows_same].
  - rewrite Hq. intros Hne. destruct (Ha Hne) as (th & ih & Harmed).
    exists th, ih. by eapply armed_same.
Qed.

Lemma live_grows w w' :
  taskQueue w' = taskQueue w → grows w w' → live w → live w'.
Proof.
  intros Hq Hg [Hok Ha]. split; [by eapply hostOK_grows|].
  rewrite Hq. intros Hne. destruct (Ha Hne) as (th & ih & Harmed).
  exists th, ih. by eapply armed_grows.
Qed.

Lemma live_queueMicroTask t : keeps live (queueMicroTask t).
Proof.
  intros w Hw. rewrite queueMicroTask_run.
  case_decide; by eapply live_same; [..|exact Hw].
Qed.

Lemma live_queueTask t : keeps live (queueTask t).
Proof.
  intros w [Hok Ha]. rewrite queueTask_run. case_decide as Hlen; cbn [final].
  - assert (Harmed := requestFlushTaskQueue_armed w Hok).
    split.
    + eapply hostOK_grows; [exact (proj1 Harmed)|by apply grows_same].
    + intros _. exists (nextHandle w), (S (nextHandle w)).
      by eapply armed_same; [..|exact Harmed].
  - destruct Ha as (th & ih & Harmed).
    { intros Hnil. rewrite Hnil in Hlen. simpl in Hlen. lia. }
    split.
    + eapply hostOK_grows; [exact Hok|by apply grows_same].
    + intros _. exists th, ih. by eapply armed_same; [..|exact Harmed].
Qed.

Lemma live_rethrow error : keeps live (setTimeout (Rethrow error) 0).
Proof.
  intros w Hw. eapply live_grows; [| |exact Hw]; [done|].
  by destruct (tame_setTimeout (Rethrow error) 0 (λ a b, ltac:(done)) w)
    as (_ & Hg & _).
Qed.

Lemma live_microTaskQueue q w : live w → live (with_microTaskQueue q w).
Proof. by apply live_same. Qed.

Lemma live_immediates cs w : live w → live (with_immediates cs w).
Proof. by apply live_same. Qed.

(** The macro drain starts on a fresh empty array, so it leaves the tier
    live whatever it found. *)
Lemma live_flushTaskQueue w : hostOK w → live (final (flushTaskQueue w)).
Proof.
  intros Hok. unfold flushTaskQueue. rewrite bind_emit. cbn [final].
  rewrite bind_gets, bind_modify.
  assert (Hk : keeps live
                 (bind (whileTaskQueue (length (taskQueue w)) (taskQueue w) 0)
                       (λ r, match r with
                             | Completed => ret tt
                             | Caught error task => onError error task
                             end))).
  { apply keeps_bind.
    - apply keeps_whileTaskQueue;
        [apply live_queueMicroTask|apply live_queueTask].
    - intros [|error task]; [apply keeps_ret|].
      apply keeps_onError;
        [apply live_immediates|apply live_queueMicroTask
        |apply live_queueTask|apply live_rethrow]. }
  apply Hk. split; [done|]. by intros [].
Qed.

Lemma live_fire h : keeps live (fire h).
Proof.
  intros w [Hok Ha]. rewrite fire_run.
  destruct (findTimer h (timers w)) as [tm|] eqn:Hf; [|done]. cbn zeta.
  set (w0 := match kind tm with
             | Timeout => with_timers (cancel h (timers w)) w
             | Interval => w
             end).
  assert (Hok0 : hostOK w0).
  { subst w0. destruct (kind tm); [by apply hostOK_cancel|done]. }
  assert (Hr : live (final (runClosure (callback tm) w0))).
  { destruct (callback tm) as [a b|error] eqn:Hcb.
    - rewrite runClosure_handleFlushTimer. cbn zeta. cbn [final].
      apply live_flushTaskQueue.
      apply (hostOK_cancel b (with_timers (cancel a (timers w0)) w0)).
      by apply hostOK_cancel.
    - cbn. split; [done|].
      assert (Hq : taskQueue w0 = taskQueue w) by (subst w0; by destruct (kind tm)).
      rewrite Hq. intros Hne. destruct (Ha Hne) as (th & ih & Harmed).
      exists th, ih. subst w0. destruct (kind tm); [|done].
      destruct Harmed as (Hok' & Ht & Hi & (tm1 & Hf1 & Hc1) & (tm2 & Hf2 & Hc2) & Hp).
      apply armed_cancel; [by split_and!; eauto| |]; intros ->; congruence. }
  by destruct (outcome (runClosure (callback tm) w0)).
Qed.

(** X9: in every world reached from [constructor] by enqueueing on either tier,
    by micro drains and by the host firing timers (which is how macro drains
    run), a non-empty macro array has both timers of some [requestFlush] call
    active; and the host firing either of them enters that call's
    [handleFlushTimer], hence the macro drain, once. *)
Theorem macro_tier_never_stranded :
  live constructor ∧
  (∀ t w, live w → live (final (queueMicroTask t w))) ∧
  (∀ t w, live w → live (final (queueTask t w))) ∧
  (∀ fuel w, live w → live (final (flushMicroTaskQueue fuel w))) ∧
  (∀ w, live w → live (final (flushTaskQueue w))) ∧
  (∀ h w, live w → live (final (fire h w))) ∧
  (∀ th ih h w,
     armed th ih w → h = th ∨ h = ih →
     handleFlushTimerCalls th ih (trace (fire h w)) = 1).
Proof.
  split_and!.
  - split; [constructor|done].
  - apply live_queueMicroTask.
  - apply live_queueTask.
  - intros fuel. apply keeps_flushMicroTaskQueue;
      [apply live_microTaskQueue|apply live_immediates|apply live_queueMicroTask
      |apply live_queueTask|apply live_rethrow].
  - intros w [Hok _]. by apply live_flushTaskQueue.
  - apply live_fire.
  - intros th ih h w Ha Hh. by destruct (fire_armed_own th ih h w Ha Hh) as (_ & _ & ?).
Qed.

(** ** Arming, tier by tier *)

Lemma armings_app (q : list (option Task)) a b :
  armings q a + armings (q ++ (Some <$> a)) b = armings q (a ++ b).
Proof. by destruct q, a. Qed.

Section tier.

Variable queue : World → list (option Task).
Variable queued : list event → list Task.
Variable requests : list event → nat.

Hypothesis queued_nil : queued [] = [].
Hypothesis requests_nil : requests [] = 0.
Hypothesis queued_app : ∀ tr1 tr2, queued (tr1 ++ tr2) = queued tr1 ++ queued tr2.
Hypothesis requests_app :
  ∀ tr1 tr2, requests (tr1 ++ tr2) = requests tr1 + requests tr2.
Hypothesis queued_plain : ∀ ev, plain ev → queued [ev] = [].
Hypothesis requests_plain : ∀ ev, plain ev → requests [ev] = 0.
Hypothesis queue_immediates : ∀ cs w, queue (with_immediates cs w) = queue w.
Hypothesis queue_timers : ∀ ts w, queue (with_timers ts w) = queue w.
Hypothesis queue_nextHandle : ∀ n w, queue (with_nextHandle n w) = queue w.
Hypothesis arming_queueMicroTask : ∀ t, arming queue queued requests (queueMicroTask t).
Hypothesis arming_queueTask : ∀ t, arming queue queued requests (queueTask t).

Local Abbreviation arming' := (arming queue queued requests).

Lemma arming_silent {A} (m : js A) :
  (∀ w, queue (final (m w)) = queue w ∧ trace (m w) = []) → arming' m.
Proof using queued_nil requests_nil.
  intros Hm w. destruct (Hm w) as [-> ->].
  rewrite queued_nil, requests_nil. simpl. rewrite app_nil_r.
  split; [done|]. by destruct (queue w).
Qed.

Lemma arming_ret {A} (a : A) : arming' (ret a).
Proof using queued_nil requests_nil. by apply arming_silent. Qed.

Lemma arming_throw {A} error : arming' (@throw A error).
Proof using queued_nil requests_nil. by apply arming_silent. Qed.

Lemma arming_diverge {A} : arming' (@diverge A).
Proof using queued_nil requests_nil. by apply arming_silent. Qed.

Lemma arming_gets {A} (f : World → A) : arming' (gets f).
Proof using queued_nil requests_nil. by apply arming_silent. Qed.

Lemma arming_modify f : (∀ w, queue (f w) = queue w) → arming' (modify f).
Proof using queued_nil requests_nil.
  intros Hf. apply arming_silent. intros w. split; [apply Hf|done].
Qed.

Lemma arming_emit ev : plain ev → arming' (emit ev).
Proof using queued_plain requests_plain.
  intros Hev w. cbn [emit final trace].
  rewrite queued_plain, requests_plain by done. simpl. rewrite app_nil_r.
  split; [done|]. by destruct (queue w).
Qed.

Lemma arming_bind {A B} (m : js A) (k : A → js B) :
  arming' m → (∀ a, arming' (k a)) → arming' (bind m k).
Proof using queued_app requests_app.
  intros Hm Hk w. destruct (Hm w) as [Hq Hr]. unfold bind.
  destruct (outcome (m w)) as [a| |]; [|done..].
  destruct (Hk a (final (m w))) as [Hq' Hr']. cbn [final trace].
  rewrite queued_app, requests_app, Hq', Hr', Hr, Hq, fmap_app.
  split; [by rewrite app_assoc|apply armings_app].
Qed.

Lemma arming_attempt {A} (m : js A) : arming' m → arming' (attempt m).
Proof.
  intros Hm w. specialize (Hm w). unfold attempt. by destruct (outcome (m w)).
Qed.

Lemma arming_acts l : arming' (acts l).
Proof using queued_nil requests_nil queued_app requests_app
  arming_queueMicroTask arming_queueTask.
  induction l as [|a l IH]; [apply arming_ret|].
  cbn [acts]. apply arming_bind; [|done]. destruct a; cbn [act]; auto.
Qed.

Lemma arming_perform b : arming' (perform b).
Proof using queued_nil requests_nil queued_app requests_app
  arming_queueMicroTask arming_queueTask.
  unfold perform. apply arming_bind; [apply arming_acts|]. intros _.
  destruct (raises b); [apply arming_throw|apply arming_ret].
Qed.

Lemma arming_invoke task : arming' (invoke task).
Proof using queued_nil requests_nil queued_app requests_app queued_plain
  requests_plain arming_queueMicroTask arming_queueTask.
  destruct task as [t|]; [|apply arming_throw]. cbn [invoke].
  apply arming_bind; [by apply arming_emit|]. intros _. apply arming_perform.
Qed.

Lemma arming_onError error task : arming' (onError error task).
Proof using queued_nil requests_nil queued_app requests_app queued_plain
  requests_plain queue_immediates queue_timers queue_nextHandle
  arming_queueMicroTask arming_queueTask.
  destruct task as [t|]; [|apply arming_throw]. cbn [onError].
  destruct (onErrorOf t) as [h|].
  - apply arming_bind; [by apply arming_emit|]. intros _. apply arming_perform.
  - destruct hasSetImmediate.
    + apply arming_modify. intros w. apply queue_immediates.
    + apply arming_bind; [|intros _; apply arming_ret].
      apply arming_silent. intros w. split; [|done]. cbn [setTimeout final].
      by rewrite queue_nextHandle, queue_timers.
Qed.

Lemma arming_whileTaskQueue pending array index :
  arming' (whileTaskQueue pending array index).
Proof using queued_nil requests_nil queued_app requests_app queued_plain
  requests_plain arming_queueMicroTask arming_queueTask.
  revert index. induction pending as [|pending IH]; intros index; [apply arming_ret|].
  cbn [whileTaskQueue]. apply arming_bind; [apply arming_attempt, arming_invoke|].
  intros [[]|error]; [apply IH|apply arming_ret].
Qed.

(** A tier whose array the micro drain does not touch: the macro tier. *)
Lemma arming_flushMicroTaskQueue fuel :
  (∀ q w, queue (with_microTaskQueue q w) = queue w) →
  arming' (flushMicroTaskQueue fuel).
Proof using queued_nil requests_nil queued_app requests_app queued_plain
  requests_plain queue_immediates queue_timers queue_nextHandle
  arming_queueMicroTask arming_queueTask.
  intros queue_microTaskQueue.
  assert (Hcompact : ∀ index, arming' (compact index)).
  { intros index. unfold compact. apply arming_bind.
    { apply arming_modify. intros w. apply queue_microTaskQueue. }
    intros _. apply arming_bind; [apply arming_gets|]. intros q.
    case_decide; [|apply arming_throw]. apply arming_modify.
    apply queue_microTaskQueue. }
  assert (Hloop : ∀ fuel cap index, arming' (whileMicroTaskQueue fuel cap index)).
  { clear fuel. intros fuel cap. induction fuel as [|fuel IH]; intros index;
      [apply arming_diverge|].
    cbn [whileMicroTaskQueue]. apply arming_bind; [apply arming_gets|]. intros q.
    case_decide; [|apply arming_ret].
    apply arming_bind; [apply arming_attempt, arming_invoke|].
    intros [[]|error]; [|apply arming_ret].
    case_decide; [|apply IH].
    apply arming_bind; [apply arming_attempt, Hcompact|].
    intros [[]|error]; [apply IH|apply arming_ret]. }
  unfold flushMicroTaskQueue.
  apply arming_bind; [by apply arming_emit|]. intros _.
  apply arming_bind; [apply arming_gets|]. intros capacity.
  apply arming_bind; [apply Hloop|]. intros r.
  apply arming_bind.
  { destruct r; [apply arming_ret|apply arming_onError]. }
  intros _. apply arming_modify. apply queue_microTaskQueue.
Qed.

(** A tier whose array the macro drain does not touch: the micro tier. *)
Lemma arming_flushTaskQueue :
  (∀ q w, queue (with_taskQueue q w) = queue w) → arming' flushTaskQueue.
Proof using queued_nil requests_nil queued_app requests_app queued_plain
  requests_plain queue_immediates queue_timers queue_nextHandle
  arming_queueMicroTask arming_queueTask.
  intros queue_taskQueue. unfold flushTaskQueue.
  apply arming_bind; [by apply arming_emit|]. intros _.
  apply arming_bind; [apply arming_gets|]. intros q.
  apply arming_bind; [apply arming_modify, queue_taskQueue|]. intros _.
  apply arming_bind; [apply arming_whileTaskQueue|].
  intros [|error task]; [apply arming_ret|apply arming_onError].
Qed.

End tier.

Lemma requestsMacro_cons_plain ev tr :
  plain ev → requestsMacro (ev :: tr) = requestsMacro tr.
Proof.
  intros Hev. unfold requestsMacro. rewrite filter_cons_False; [done|].
  by destruct ev.
Qed.

Lemma requestsMicro_cons_plain ev tr :
  plain ev → requestsMicro (ev :: tr) = requestsMicro tr.
Proof.
  intros Hev. unfold requestsMicro. rewrite filter_cons_False; [done|].
  by destruct ev.
Qed.

Lemma queuedMacro_cons_plain ev tr : plain ev → queuedMacro (ev :: tr) = queuedMacro tr.
Proof. by destruct ev. Qed.

Lemma queuedMicro_cons_plain ev tr : plain ev → queuedMicro (ev :: tr) = queuedMicro tr.
Proof. by destruct ev. Qed.

Lemma macroTier_queueMicroTask t :
  arming taskQueue queuedMacro requestsMacro (queueMicroTask t).
Proof.
  intros w. rewrite queueMicroTask_run.
  case_decide; cbn; rewrite app_nil_r; (split; [done|]); by destruct (taskQueue w).
Qed.

Lemma macroTier_queueTask t :
  arming taskQueue queuedMacro requestsMacro (queueTask t).
Proof.
  intros w. rewrite queueTask_run. case_decide as Hlen; cbn.
  - destruct (taskQueue w); [done|simpl in Hlen; lia].
  - destruct (taskQueue w); [simpl in Hlen; lia|done].
Qed.

Lemma microTier_queueMicroTask t :
  arming microTaskQueue queuedMicro requestsMicro (queueMicroTask t).
Proof.
  intros w. rewrite queueMicroTask_run. case_decide as Hlen; cbn.
  - destruct (microTaskQueue w); [done|simpl in Hlen; lia].
  - destruct (microTaskQueue w); [simpl in Hlen; lia|done].
Qed.

Lemma microTier_queueTask t :
  arming microTaskQueue queuedMicro requestsMicro (queueTask t).
Proof.
  intros w. rewrite queueTask_run.
  case_decide; cbn; rewrite app_nil_r; (split; [done|]);
    by destruct (microTaskQueue w).
Qed.

Lemma macroTier_flushMicroTaskQueue fuel :
  arming taskQueue queuedMacro requestsMacro (flushMicroTaskQueue fuel).
Proof.
  apply arming_flushMicroTaskQueue; try done.
  - apply queuedMacro_app.
  - apply requestsMacro_app.
  - intros ev Hev. by apply (queuedMacro_cons_plain ev []).
  - intros ev Hev. by apply (requestsMacro_cons_plain ev []).
  - apply macroTier_queueMicroTask.
  - apply macroTier_queueTask.
Qed.

Lemma microTier_flushTaskQueue :
  arming microTaskQueue queuedMicro requestsMicro flushTaskQueue.
Proof.
  apply arming_flushTaskQueue; try done.
  - apply queuedMicro_app.
  - apply requestsMicro_app.
  - intros ev Hev. by apply (queuedMicro_cons_plain ev []).
  - intros ev Hev. by apply (requestsMicro_cons_plain ev []).
  - apply microTier_queueMicroTask.
  - apply microTier_queueTask.
Qed.

(** X7: within one macro drain the macro tier's [requestFlush] is called exactly
    once if some task or handler of the cycle enqueues a macro task, and not
    at all otherwise: the drain has swapped in an empty array, so the first
    reentrant [queueTask] arms the tier and the later ones find it
    non-empty.  The micro tier's [requestFlush] is called once if the cycle
    enqueues a micro task and the micro array was empty, else never. *)
Theorem flushTaskQueue_arms_once w :
  requestsMacro (trace (flushTaskQueue w)) =
    armings [] (queuedMacro (trace (flushTaskQueue w))) ∧
  requestsMicro (trace (flushTaskQueue w)) =
    armings (microTaskQueue w) (queuedMicro (trace (flushTaskQueue w))).
Proof.
  split; [|apply microTier_flushTaskQueue].
  unfold flushTaskQueue. rewrite bind_emit. cbn [trace].
  rewrite bind_gets, bind_modify.
  rewrite requestsMacro_cons_plain, queuedMacro_cons_plain by done.
  assert (Hk : arming taskQueue queuedMacro requestsMacro
                 (bind (whileTaskQueue (length (taskQueue w)) (taskQueue w) 0)
                       (λ r, match r with
                             | Completed => ret tt
                             | Caught error task => onError error task
                             end))).
  { assert (Hp1 : ∀ ev, plain ev → queuedMacro [ev] = [])
      by (intros ev Hev; by apply (queuedMacro_cons_plain ev [])).
    assert (Hp2 : ∀ ev, plain ev → requestsMacro [ev] = 0)
      by (intros ev Hev; by apply (requestsMacro_cons_plain ev [])).
    apply arming_bind; [apply queuedMacro_app|apply requestsMacro_app| |].
    - apply arming_whileTaskQueue; try done;
        [apply queuedMacro_app|apply requestsMacro_app
        |apply macroTier_queueMicroTask|apply macroTier_queueTask].
    - intros [|error task]; [by apply arming_ret|].
      apply arming_onError; try done;
        [apply queuedMacro_app|apply requestsMacro_app
        |apply macroTier_queueMicroTask|apply macroTier_queueTask]. }
  by destruct (Hk (with_taskQueue [] w)) as [_ ->].
Qed.

(** X12: a drain of one tier takes nothing out of the other tier's array and does
    not reorder it, whether or not a task throws: the other array ends as it
    was, followed by the tasks enqueued on it during the drain, in order. *)
Theorem drains_leave_other_tier w :
  microTaskQueue (final (flushTaskQueue w)) =
    microTaskQueue w ++ (Some <$> queuedMicro (trace (flushTaskQueue w))) ∧
  ∀ fuel,
    taskQueue (final (flushMicroTaskQueue fuel w)) =
      taskQueue w ++ (Some <$> queuedMacro (trace (flushMicroTaskQueue fuel w))).
Proof.
  split; [apply microTier_flushTaskQueue|].
  intros fuel. apply macroTier_flushMicroTaskQueue.
Qed.

Lemma whileMicroTaskQueue_requestsMicro fuel cap index w :
  defined (microTaskQueue w) →
  requestsMicro (trace (whileMicroTaskQueue fuel cap index w)) = 0.
Proof.
  revert index w. induction fuel as [|fuel IH]; intros index w Hdef; [done|].
  destruct (decide (index < length (microTaskQueue w))) as [Hlt|Hge].
  2:{ by rewrite whileMicroTaskQueue_exit by lia. }
  destruct (lookup_lt_is_Some_2 _ _ Hlt) as [c Hc].
  destruct (Forall_lookup_1 _ _ _ _ Hdef Hc) as [t ->].
  rewrite (whileMicroTaskQueue_step _ _ _ _ t) by done. cbn zeta.
  assert (Hinv : requestsMicro (trace (invoke (Some t) w)) = 0).
  { rewrite invoke_trace, requestsMicro_cons_plain by done.
    apply acts_requestsMicro. intros Hnil. rewrite Hnil in Hlt. simpl in Hlt. lia. }
  assert (Hdef' : defined (microTaskQueue (final (invoke (Some t) w)))).
  { rewrite invoke_final, acts_microTaskQueue. apply Forall_app. split; [done|].
    apply defined_fmap_Some. }
  assert (Hlen : S index ≤ length (microTaskQueue (final (invoke (Some t) w)))).
  { rewrite invoke_final, acts_microTaskQueue, length_app. lia. }
  destruct (raises (call t)) as [error|]; cbn [trace]; [done|].
  rewrite requestsMicro_app, Hinv.
  case_decide; rewrite IH; try done. by apply compacted_defined.
Qed.

(** X8: a micro drain never calls the micro tier's [requestFlush]: whatever its
    tasks and handlers enqueue there, they enqueue it on a non-empty array.
    The macro tier's [requestFlush] is called once if the drain enqueues a
    macro task and the macro array was empty, else never. *)
Theorem flushMicroTaskQueue_never_rearms fuel w :
  defined (microTaskQueue w) →
  requestsMicro (trace (flushMicroTaskQueue fuel w)) = 0 ∧
  requestsMacro (trace (flushMicroTaskQueue fuel w)) =
    armings (taskQueue w) (queuedMacro (trace (flushMicroTaskQueue fuel w))).
Proof.
  intros Hdef. split; [|apply macroTier_flushMicroTaskQueue].
  pose proof (whileMicroTaskQueue_spec fuel (microTaskQueueCapacity w) 0 w Hdef)
    as [_ Hspec].
  pose proof (whileMicroTaskQueue_requestsMicro fuel (microTaskQueueCapacity w) 0 w Hdef)
    as Hloop.
  rewrite flushMicroTaskQueue_run. cbn zeta in *.
  destruct (outcome (whileMicroTaskQueue _ _ _ _)) as [[|error task]| |];
    cbn [trace]; try (by rewrite requestsMicro_cons_plain).
  destruct Hspec as (t & pre & -> & _ & _ & _ & Hne).
  assert (He : requestsMicro
                 (trace (onError error (Some t)
                           (final (whileMicroTaskQueue fuel
                                     (microTaskQueueCapacity w) 0 w)))) = 0).
  { destruct (onErrorOf t) as [h|] eqn:Hh.
    - rewrite (onError_handler _ _ h) by done. cbn [trace].
      rewrite requestsMicro_cons_plain by done. by apply acts_requestsMicro.
    - by rewrite onError_unhandled. }
  destruct (outcome (onError _ _ _)); cbn [trace];
    by rewrite requestsMicro_cons_plain, requestsMicro_app, Hloop, He.
Qed.

(** ** Drains: order, abort, and what stays queued *)

(** X1: a macro drain over an array of tasks that all return invokes every
    one of them, in the order of the array, whatever its length, and
    returns. *)
Theorem macro_drain_is_fifo w ts :
  taskQueue w = Some <$> ts → Forall returns ts →
  outcome (flushTaskQueue w) = Normal tt ∧ calls (trace (flushTaskQueue w)) = ts.
Proof.
  intros Hts Hret. rewrite flushTaskQueue_calls, flushTaskQueue_run.
  cbn zeta. rewrite Hts, length_fmap.
  pose proof (whileTaskQueue_spec ts [] (with_taskQueue [] w)) as (Hspec & _).
  cbn zeta in Hspec. simpl in Hspec.
  destruct (outcome (whileTaskQueue _ _ _ _)) as [[|error task]| |]; try done.
  - by destruct Hspec as [_ ->].
  - destruct Hspec as (pre & t & post & _ & -> & _ & Ht & _).
    rewrite Forall_app, Forall_cons in Hret. destruct Hret as (_ & Hret & _).
    unfold returns in Hret. congruence.
Qed.

(** X2: a micro drain over at most [2 * (capacity + 1)] queued tasks that
    neither enqueue nor throw invokes every one of them, in the order of the
    array, returns (given fuel beyond the number of tasks) and leaves the
    array empty. *)
Theorem micro_drain_is_fifo_up_to_twice_capacity fuel w ts :
  microTaskQueue w = Some <$> ts →
  Forall inert ts →
  length ts ≤ 2 * S (microTaskQueueCapacity w) → length ts < fuel →
  outcome (flushMicroTaskQueue fuel w) = Normal tt ∧
  calls (trace (flushMicroTaskQueue fuel w)) = ts ∧
  microTaskQueue (final (flushMicroTaskQueue fuel w)) = [].
Proof.
  intros Hq Hin Hlen Hfuel.
  destruct (whileMicroTaskQueue_fifo fuel (microTaskQueueCapacity w) 0 w ts)
    as [Ho Hcalls]; [done|by rewrite drop_0|lia|done|lia|].
  rewrite drop_0 in Hcalls.
  rewrite flushMicroTaskQueue_calls, flushMicroTaskQueue_run. cbn zeta.
  by rewrite Ho.
Qed.

(** X3: a micro drain that returns, in which no task throws and which invokes
    no more tasks than the capacity (so that no compaction runs), has invoked
    the tasks found in the array and then every task handed to
    [queueMicroTask] while it ran, each once, in the order of enqueueing. *)
Theorem micro_drain_runs_reentrant_tasks fuel w q :
  microTaskQueue w = Some <$> q →
  outcome (flushMicroTaskQueue fuel w) = Normal tt →
  Forall returns (calls (trace (flushMicroTaskQueue fuel w))) →
  length (calls (trace (flushMicroTaskQueue fuel w))) ≤ microTaskQueueCapacity w →
  calls (trace (flushMicroTaskQueue fuel w)) =
  q ++ queuedMicro (trace (flushMicroTaskQueue fuel w)).
Proof.
  intros Hq Ho Hall Hlen. rewrite flushMicroTaskQueue_calls in Hall, Hlen |- *.
  pose proof (whileMicroTaskQueue_spec fuel (microTaskQueueCapacity w) 0 w) as Hspec.
  pose proof (whileMicroTaskQueue_reentrant fuel (microTaskQueueCapacity w) 0 w q Hq)
    as Hloop.
  rewrite flushMicroTaskQueue_run in Ho |- *. cbn zeta in *.
  destruct Hspec as [_ Hspec]; [rewrite Hq; apply defined_fmap_Some|].
  destruct (outcome (whileMicroTaskQueue _ _ _ _)) as [[|error task]| |]; try done.
  - cbn [trace]. rewrite queuedMicro_cons_plain by done. by apply Hloop.
  - destruct Hspec as (t & pre & -> & Ht & Hcalls & _ & _). exfalso.
    rewrite Hcalls, Forall_app, Forall_singleton in Hall.
    destruct Hall as [_ Hall]. unfold returns in Hall. congruence.
Qed.

(** X4: the compaction block, run with an index within the array, does not
    throw and shortens the array by [index].  Cell [i] of the array it leaves
    is the old cell [i + index] for [i < index] and the old cell [i], not
    shifted, from there on.  So when at most [index] cells are pending it
    leaves exactly the pending cells, and when at least [index] are pending
    it leaves the first [index] pending cells followed by the first
    [length - 2 * index] pending cells again.  Every old cell at a position
    from [index] up to [max (2 * index) (length - index)] is in the array
    left; when the old cells are pairwise distinct, no old cell from that
    position on is. *)
Theorem compaction_effect index w :
  index ≤ length (microTaskQueue w) →
  outcome (compact index w) = Normal tt ∧
  length (microTaskQueue (final (compact index w))) =
    length (microTaskQueue w) - index ∧
  (length (microTaskQueue w) ≤ 2 * index →
   microTaskQueue (final (compact index w)) = drop index (microTaskQueue w)) ∧
  (2 * index ≤ length (microTaskQueue w) →
   microTaskQueue (final (compact index w)) =
     take index (drop index (microTaskQueue w)) ++
     take (length (microTaskQueue w) - 2 * index) (drop index (microTaskQueue w))) ∧
  (∀ i, i < length (microTaskQueue w) - index →
        microTaskQueue (final (compact index w)) !! i =
        microTaskQueue w !! (if decide (i < index) then i + index else i)) ∧
  (∀ i c, index ≤ i < (2 * index) `max` (length (microTaskQueue w) - index) →
          microTaskQueue w !! i = Some c →
          c ∈ microTaskQueue (final (compact index w))) ∧
  (NoDup (microTaskQueue w) →
   ∀ i c, (2 * index) `max` (length (microTaskQueue w) - index) ≤ i →
          microTaskQueue w !! i = Some c →
          c ∉ microTaskQueue (final (compact index w))).
Proof.
  intros Hlen. rewrite compact_run by done. cbn [outcome final microTaskQueue
    with_microTaskQueue].
  assert (Hcell : ∀ i, i < length (microTaskQueue w) - index →
            compacted index (microTaskQueue w) !! i =
            microTaskQueue w !! (if decide (i < index) then i + index else i)).
  { intros i Hi. rewrite compacted_lookup by done. rewrite decide_True by done.
    case_decide; [|done].
    destruct (lookup_lt_is_Some_2 (microTaskQueue w) (i + index)) as [c Hc]; [lia|].
    by rewrite Hc, (array_get_lookup _ _ c). }
  split_and!; [done|by apply compacted_length| | |done| |].
  - intros H. by apply compacted_drop.
  - intros H. by apply compacted_long.
  - intros i c Hi Hc. apply lookup_lt_Some in Hc as Hlt.
    apply list_elem_of_lookup.
    destruct (decide (i < 2 * index)).
    + exists (i - index). rewrite Hcell by lia. rewrite decide_True by lia.
      by replace (i - index + index) with i by lia.
    + exists i. rewrite Hcell by lia. by rewrite decide_False by lia.
  - intros Hnd i c Hi Hc Hin. apply list_elem_of_lookup in Hin as [j Hj].
    apply lookup_lt_Some in Hj as Hlt. rewrite compacted_length in Hlt by done.
    rewrite Hcell in Hj by done.
    pose proof (NoDup_lookup _ _ _ _ Hnd Hj Hc) as Heq.
    case_decide; lia.
Qed.

Lemma prefix_first_failure {A} (P : A → Prop) (pre pre' : list A) t :
  (pre ++ [t]) `prefix_of` (pre' ++ [t]) → Forall P pre' → ¬ P t → pre = pre'.
Proof.
  revert pre'. induction pre as [|a pre IH]; intros [|x pre'] Hpre Hall Ht.
  - done.
  - apply prefix_cons_inv_1 in Hpre as <-. by apply Forall_cons in Hall as [? _].
  - cbn in Hpre. apply prefix_cons_inv_2, prefix_nil_inv in Hpre.
    by destruct pre.
  - cbn in Hpre. pose proof (prefix_cons_inv_1 _ _ _ _ Hpre) as ->.
    apply prefix_cons_inv_2 in Hpre. apply Forall_cons in Hall as [_ Hall].
    f_equal. by apply IH.
Qed.

(** X5: a macro drain over an array in which task [t] is the first that
    throws invokes the tasks ahead of [t] and then [t], and none of the tasks
    behind it; it hands the error and [t] to [onError] and completes as
    [onError] does.  The tasks behind [t] are not put back: the array of the
    instance afterwards holds what was enqueued during the cycle, only. *)
Theorem macro_drain_aborts_on_throw w pre t post error :
  taskQueue w = Some <$> (pre ++ t :: post) →
  Forall returns pre → raises (call t) = Some error →
  calls (trace (flushTaskQueue w)) = pre ++ [t] ∧
  taskQueue (final (flushTaskQueue w)) =
    Some <$> queuedMacro (trace (flushTaskQueue w)) ∧
  ∃ w1 tr1,
    calls tr1 = pre ++ [t] ∧
    flushTaskQueue w =
      Run (outcome (onError error (Some t) w1)) (final (onError error (Some t) w1))
          (EvFlushTaskQueue :: tr1 ++ trace (onError error (Some t) w1)).
Proof.
  intros Hq Hpre Ht.
  assert (Hreach : (pre ++ [t]) `prefix_of` calls (trace (flushTaskQueue w))).
  { rewrite flushTaskQueue_calls, Hq, length_fmap.
    exact (whileTaskQueue_reaches pre t post [] _ Hpre). }
  assert (Hin : t ∈ calls (trace (flushTaskQueue w))).
  { destruct Hreach as [k ->]. rewrite !elem_of_app, list_elem_of_singleton. tauto. }
  destruct (flushTaskQueue_thrower w t error) as (pre' & w1 & tr1 & Hc & Hret & Hrun);
    [rewrite Hq; apply defined_fmap_Some|done|done|].
  assert (Hcalls : calls (trace (flushTaskQueue w)) = pre' ++ [t]).
  { rewrite Hrun. cbn [trace]. change (calls (?e :: ?l)) with (calls ([e] ++ l)).
    by rewrite !calls_app, onError_calls, app_nil_r, Hc. }
  assert (pre = pre') as <-.
  { rewrite Hcalls in Hreach. eapply (prefix_first_failure returns); [done..|].
    unfold returns. congruence. }
  split_and!; [done|by eapply flushTaskQueue_taskQueue|].
  by exists w1, tr1.
Qed.

(** X14: whatever is handed to [queueTask] during a macro drain, by a task or
    by an [onError] handler, is in the instance's array when the drain ends,
    in the order of enqueueing; and if there is any, both timers of a
    [requestFlush] call are active then, so that a next drain will come. *)
Theorem macro_drain_keeps_reentrant_tasks w ts :
  hostOK w → taskQueue w = Some <$> ts →
  taskQueue (final (flushTaskQueue w)) =
    Some <$> queuedMacro (trace (flushTaskQueue w)) ∧
  (queuedMacro (trace (flushTaskQueue w)) ≠ [] →
   ∃ th ih, armed th ih (final (flushTaskQueue w))).
Proof.
  intros Hok Hq. pose proof (flushTaskQueue_taskQueue w ts Hq) as Hfinal.
  split; [done|]. intros Hne.
  destruct (live_flushTaskQueue w Hok) as [_ Ha]. apply Ha.
  rewrite Hfinal. by destruct (queuedMacro _).
Qed.

(** X10: a micro drain that completes by a throw (the [onError] handler of
    the failing task threw) leaves the micro array non-empty; from then on no
    enqueue, on either tier and from whatever code, calls the micro tier's
    [requestFlush]: nothing asks the host for another micro drain. *)
Theorem micro_tier_stuck_after_handler_throw fuel w x :
  defined (microTaskQueue w) →
  outcome (flushMicroTaskQueue fuel w) = Throw x →
  microTaskQueue (final (flushMicroTaskQueue fuel w)) ≠ [] ∧
  ∀ l, requestsMicro (trace (acts l (final (flushMicroTaskQueue fuel w)))) = 0 ∧
       microTaskQueue (final (acts l (final (flushMicroTaskQueue fuel w)))) ≠ [].
Proof.
  intros Hdef Hthrow.
  assert (Hne : microTaskQueue (final (flushMicroTaskQueue fuel w)) ≠ []).
  { pose proof (whileMicroTaskQueue_spec fuel (microTaskQueueCapacity w) 0 w Hdef)
      as [_ Hspec].
    rewrite flushMicroTaskQueue_run in Hthrow |- *. cbn zeta in *.
    destruct (outcome (whileMicroTaskQueue _ _ _ _)) as [[|error task]| |]; try done.
    destruct Hspec as (t & pre & -> & _ & _ & _ & Hne).
    destruct (outcome (onError _ _ _)) eqn:Ho; try done. cbn [final].
    rewrite onError_microTaskQueue. by intros [? _]%app_eq_nil. }
  split; [done|]. intros l. split; [by apply acts_requestsMicro|].
  rewrite acts_microTaskQueue. by intros [? _]%app_eq_nil.
Qed.

Lemma cancel_fresh h ts : Forall (λ tm, handle tm ≠ h) ts → cancel h ts = ts.
Proof.
  induction 1 as [|tm ts Htm _ IH]; [done|].
  rewrite cancel_cons, decide_True by done. by rewrite IH.
Qed.

(** X13: where the host has no [setImmediate], the error of a task without
    handler is not raised by [onError], which returns normally and leaves no
    event; it reaches the host's unhandled-error channel when the host fires
    the zero-delay timeout [onError] registered, and only then: the timeout
    is spent by firing, the timer table is as it was before [onError], and
    firing the same handle again does nothing. *)
Theorem unhandled_error_surfaces_once error t w :
  hostOK w → onErrorOf t = None → hasSetImmediate = false →
  let w1 := final (onError error (Some t) w) in
  let h := nextHandle w in
  outcome (onError error (Some t) w) = Normal tt ∧
  trace (onError error (Some t) w) = [] ∧
  outcome (fire h w1) = Normal tt ∧
  trace (fire h w1) = [EvFired h; EvUnhandled error] ∧
  timers (final (fire h w1)) = timers w ∧
  trace (fire h (final (fire h w1))) = [].
Proof.
  intros Hok Hh Hi. cbn zeta. rewrite onError_unhandled by done. rewrite Hi.
  cbn [outcome final trace].
  assert (Hold : Forall (λ tm, handle tm ≠ nextHandle w) (timers w)).
  { eapply Forall_impl; [exact Hok|]. intros tm [Htm _]. lia. }
  remember (with_nextHandle (S (nextHandle w))
              (with_timers (timers w ++ [Timer (nextHandle w) Timeout 0 (Rethrow error)])
                 w)) as w1 eqn:Hw1.
  assert (Hfind : findTimer (nextHandle w) (timers w1) =
                  Some (Timer (nextHandle w) Timeout 0 (Rethrow error))).
  { subst w1. cbn [timers with_nextHandle with_timers].
    rewrite findTimer_app_None by (by apply findTimer_None).
    rewrite findTimer_cons. by rewrite decide_True. }
  assert (Hcancel : cancel (nextHandle w) (timers w1) = timers w).
  { subst w1. cbn [timers with_nextHandle with_timers]. unfold cancel.
    rewrite filter_app. fold (cancel (nextHandle w) (timers w)).
    rewrite cancel_fresh by done. rewrite filter_cons_False by (simpl; tauto).
    by rewrite app_nil_r. }
  assert (Hfire : fire (nextHandle w) w1 =
                  Run (Normal tt) (with_timers (timers w) w1)
                      [EvFired (nextHandle w); EvUnhandled error]).
  { rewrite fire_run, Hfind. cbn. by rewrite Hcancel. }
  clear Hw1.
  rewrite Hfire. cbn [outcome final trace timers with_timers].
  split_and!; try done.
  rewrite fire_run. cbn [timers with_timers].
  by rewrite (proj2 (findTimer_None _ _) Hold).
Qed.

(** ** The micro drain past twice the capacity *)

(** Over idle tasks, the loop runs from any index up to the capacity and then
    compacts. *)
Lemma whileMicroTaskQueue_to_compaction fuel cap index w ts :
  microTaskQueue w = Some <$> ts → Forall inert ts →
  index ≤ cap → cap < length ts → cap - index < fuel →
  whileMicroTaskQueue fuel cap index w =
  let r := whileMicroTaskQueue (fuel - S (cap - index)) cap 0
             (with_microTaskQueue (compacted (S cap) (Some <$> ts)) w) in
  Run (outcome r) (final r)
      ((EvCall <$> take (S cap - index) (drop index ts)) ++ trace r).
Proof.
  revert index. induction fuel as [|fuel IH]; intros index Hq Hin Hidx Hlen Hfuel;
    [lia|].
  destruct (lookup_lt_is_Some_2 ts index) as [t Ht]; [lia|].
  assert (Hit : inert t).
  { rewrite Forall_forall in Hin. apply Hin. by eapply list_elem_of_lookup_2. }
  rewrite (whileMicroTaskQueue_step _ _ _ _ t)
    by (by rewrite Hq, list_lookup_fmap, Ht).
  rewrite (invoke_inert _ _ Hit). cbn zeta. cbn [final trace].
  assert (Hr : raises (call t) = None) by (by rewrite Hit). rewrite Hr.
  rewrite (drop_S _ _ _ Ht).
  destruct (decide (cap < S index)) as [Hc|Hc].
  - assert (index = cap) as -> by lia.
    replace (S cap - cap) with 1 by lia. replace (S fuel - S (cap - cap)) with fuel by lia.
    rewrite Hq. cbn [take fmap list_fmap]. by rewrite take_0.
  - rewrite IH by (done || lia). cbn zeta. cbn [outcome final trace].
    replace (S fuel - S (cap - index)) with (fuel - S (cap - S index)) by lia.
    replace (S cap - index) with (S (S cap - S index)) by lia.
    done.
Qed.

Lemma calls_EvCall ts : calls (EvCall <$> ts) = ts.
Proof. induction ts as [|t ts IH]; [done|]. cbn. by rewrite <- IH at 2. Qed.

(** X15: of more than [2 * (capacity + 1)] queued tasks that neither enqueue
    nor throw, the micro drain invokes the task at position [capacity + 1] a
    second time where the task at position [2 * (capacity + 1)] is due; so,
    if the queued tasks are pairwise distinct, it does not invoke them in the
    order of enqueueing. *)
Theorem micro_drain_repeats_task_past_twice_capacity fuel w ts :
  microTaskQueue w = Some <$> ts → Forall inert ts →
  2 * S (microTaskQueueCapacity w) < length ts →
  2 * S (microTaskQueueCapacity w) < fuel →
  calls (trace (flushMicroTaskQueue fuel w)) !! (2 * S (microTaskQueueCapacity w)) =
    ts !! S (microTaskQueueCapacity w) ∧
  (NoDup ts → calls (trace (flushMicroTaskQueue fuel w)) ≠ ts).
Proof.
  intros Hq Hin Hlen Hfuel. set (cap := microTaskQueueCapacity w) in *.
  assert (Hmain : calls (trace (flushMicroTaskQueue fuel w)) !! (2 * S cap) =
                  ts !! S cap).
  { rewrite flushMicroTaskQueue_calls. fold cap.
    (* first stretch and first compaction *)
    rewrite (whileMicroTaskQueue_to_compaction fuel cap 0 w ts) by (done || lia).
    cbn zeta. cbn [trace]. rewrite Nat.sub_0_r, drop_0.
    set (ts1 := take (S cap) (drop (S cap) ts) ++
                take (length ts - 2 * S cap) (drop (S cap) ts)).
    assert (Hc1 : compacted (S cap) (Some <$> ts) = Some <$> ts1).
    { rewrite compacted_long by (rewrite length_fmap; lia).
      subst ts1. by rewrite length_fmap, fmap_app, !fmap_take, !fmap_drop. }
    rewrite Hc1.
    assert (Hlen1 : length ts1 = length ts - S cap).
    { subst ts1. rewrite length_app, !length_take, length_drop. lia. }
    assert (Hin1 : Forall inert ts1).
    { subst ts1. apply Forall_app. split; by apply Forall_take, Forall_drop. }
    (* second stretch and second compaction *)
    rewrite (whileMicroTaskQueue_to_compaction _ cap 0 _ ts1) by (done || lia).
    cbn zeta. cbn [trace]. rewrite Nat.sub_0_r, drop_0.
    rewrite !calls_app, !calls_EvCall.
    rewrite lookup_app_r by (rewrite length_take; lia).
    rewrite lookup_app_r by (rewrite !length_take; lia).
    rewrite !length_take.
    replace (2 * S cap - S cap `min` length ts - S cap `min` length ts1) with 0 by lia.
    (* the first task after it *)
    destruct (lookup_lt_is_Some_2 ts (S cap)) as [t Ht]; [lia|].
    assert (Hit : inert t).
    { rewrite Forall_forall in Hin. apply Hin. by eapply list_elem_of_lookup_2. }
    assert (Ht1 : ts1 !! S cap = Some t).
    { subst ts1. rewrite lookup_app_r by (rewrite length_take, length_drop; lia).
      rewrite length_take, length_drop.
      replace (S cap - S cap `min` (length ts - S cap)) with 0 by lia.
      rewrite lookup_take_lt by lia. rewrite lookup_drop. by rewrite Nat.add_0_r. }
    destruct (fuel - S (cap - 0) - S (cap - 0)) as [|fuel'] eqn:Hf; [lia|].
    rewrite (whileMicroTaskQueue_step _ _ _ _ t).
    2:{ cbn [microTaskQueue with_microTaskQueue].
        rewrite compacted_lookup by (rewrite length_fmap; lia).
        rewrite length_fmap, decide_True by lia. rewrite decide_True by lia.
        f_equal. apply array_get_lookup.
        by rewrite Nat.add_0_l, list_lookup_fmap, Ht1. }
    rewrite (invoke_inert _ _ Hit). cbn zeta.
    assert (Hr : raises (call t) = None) by (by rewrite Hit). rewrite Hr.
    cbn [trace]. by rewrite Ht. }
  split; [done|]. intros Hnd Heq. rewrite Heq in Hmain.
  destruct (lookup_lt_is_Some_2 ts (S cap)) as [t Ht]; [lia|].
  rewrite Ht in Hmain.
  pose proof (NoDup_lookup _ _ _ _ Hnd Hmain Ht). lia.
Qed.

(** ** What the code run by a drain leaves in the trace *)

Lemma emits_silent {A} Q (m : js A) : (∀ w, trace (m w) = []) → emits Q m.
Proof. intros Hm w. by rewrite Hm. Qed.

Lemma emits_emit Q ev : Q ev → emits Q (emit ev).
Proof. intros Hev w. by apply Forall_singleton. Qed.

Lemma emits_bind {A B} Q (m : js A) (k : A → js B) :
  emits Q m → (∀ a, emits Q (k a)) → emits Q (bind m k).
Proof.
  intros Hm Hk w. unfold bind. specialize (Hm w).
  destruct (outcome (m w)) as [a| |]; [|done..].
  cbn [trace]. apply Forall_app. split; [done|apply Hk].
Qed.

Lemma emits_attempt {A} Q (m : js A) : emits Q m → emits Q (attempt m).
Proof. intros Hm w. unfold attempt. specialize (Hm w). by destruct (outcome (m w)). Qed.

Lemma inner_act a : emits inner (act a).
Proof.
  intros w. destruct a as [t|t]; cbn [act].
  - rewrite queueMicroTask_run. case_decide; by repeat constructor.
  - rewrite queueTask_run. case_decide; by repeat constructor.
Qed.

Lemma inner_acts l : emits inner (acts l).
Proof.
  induction l as [|a l IH]; [by apply emits_silent|].
  cbn [acts]. apply emits_bind; [apply inner_act|done].
Qed.

Lemma inner_perform b : emits inner (perform b).
Proof. intros w. rewrite perform_trace. apply inner_acts. Qed.

Lemma inner_invoke task : emits inner (invoke task).
Proof.
  destruct task as [t|]; [|by apply emits_silent]. cbn [invoke].
  apply emits_bind; [by apply emits_emit|]. intros _. apply inner_perform.
Qed.

Lemma inner_whileTaskQueue pending queue index :
  emits inner (whileTaskQueue pending queue index).
Proof.
  revert index. induction pending as [|pending IH]; intros index;
    [by apply emits_silent|].
  cbn [whileTaskQueue]. apply emits_bind; [apply emits_attempt, inner_invoke|].
  intros [[]|error]; [apply IH|by apply emits_silent].
Qed.

Lemma inner_compact index : emits inner (compact index).
Proof.
  unfold compact. apply emits_bind; [by apply emits_silent|]. intros _.
  apply emits_bind; [by apply emits_silent|]. intros queue.
  case_decide; by apply emits_silent.
Qed.

Lemma inner_whileMicroTaskQueue fuel cap index :
  emits inner (whileMicroTaskQueue fuel cap index).
Proof.
  revert index. induction fuel as [|fuel IH]; intros index; [by apply emits_silent|].
  cbn [whileMicroTaskQueue]. apply emits_bind; [by apply emits_silent|]. intros queue.
  case_decide; [|by apply emits_silent].
  apply emits_bind; [apply emits_attempt, inner_invoke|].
  intros [[]|error]; [|by apply emits_silent].
  case_decide; [|apply IH].
  apply emits_bind; [apply emits_attempt, inner_compact|].
  intros [[]|error]; [apply IH|by apply emits_silent].
Qed.

Lemma handled_app tr1 tr2 : handled (tr1 ++ tr2) = handled tr1 ++ handled tr2.
Proof. apply omap_app. Qed.

Lemma flushesMacro_app tr1 tr2 :
  flushesMacro (tr1 ++ tr2) = flushesMacro tr1 + flushesMacro tr2.
Proof. unfold flushesMacro. by rewrite filter_app, length_app. Qed.

Lemma handled_inner tr : Forall inner tr → handled tr = [].
Proof.
  induction 1 as [|ev tr Hev _ IH]; [done|].
  change (handled (ev :: tr)) with (handled ([ev] ++ tr)).
  rewrite handled_app, IH. by destruct ev.
Qed.

Lemma flushesMacro_inner tr : Forall inner tr → flushesMacro tr = 0.
Proof.
  induction 1 as [|ev tr Hev _ IH]; [done|].
  change (flushesMacro (ev :: tr)) with (flushesMacro ([ev] ++ tr)).
  rewrite flushesMacro_app, IH. by destruct ev.
Qed.

(** ** What is waiting to be rethrown *)

Lemma rethrows_app ts1 ts2 : rethrows (ts1 ++ ts2) = rethrows ts1 ++ rethrows ts2.
Proof. apply omap_app. Qed.

(** The enqueue operations schedule no rethrow. *)
Lemma pending_queueMicroTask cs es t :
  keeps (λ w, immediates w = cs ∧ rethrows (timers w) = es) (queueMicroTask t).
Proof. intros w [Hi Hr]. rewrite queueMicroTask_run. by case_decide. Qed.

Lemma pending_queueTask cs es t :
  keeps (λ w, immediates w = cs ∧ rethrows (timers w) = es) (queueTask t).
Proof.
  intros w [Hi Hr]. rewrite queueTask_run. case_decide; [|done].
  split; [done|]. cbn [final timers pushMacro armMacro with_taskQueue with_timers
                         with_nextHandle].
  rewrite !rethrows_app, Hr. cbn. by rewrite !app_nil_r.
Qed.

Lemma pending_acts cs es l :
  keeps (λ w, immediates w = cs ∧ rethrows (timers w) = es) (acts l).
Proof.
  apply keeps_acts; [apply pending_queueMicroTask|apply pending_queueTask].
Qed.

Lemma pending_whileTaskQueue cs es pending queue index :
  keeps (λ w, immediates w = cs ∧ rethrows (timers w) = es)
        (whileTaskQueue pending queue index).
Proof.
  apply keeps_whileTaskQueue; [apply pending_queueMicroTask|apply pending_queueTask].
Qed.

Lemma pending_whileMicroTaskQueue cs es fuel cap index :
  keeps (λ w, immediates w = cs ∧ rethrows (timers w) = es)
        (whileMicroTaskQueue fuel cap index).
Proof.
  apply keeps_whileMicroTaskQueue;
    [done|apply pending_queueMicroTask|apply pending_queueTask].
Qed.

(** The host firing a timer that holds a rethrowing callback. *)
Lemma fire_rethrow k w tm error :
  findTimer k (timers w) = Some tm → callback tm = Rethrow error →
  trace (fire k w) = [EvFired k; EvUnhandled error].
Proof. intros Hf Hcb. rewrite fire_run, Hf. cbn zeta. by rewrite Hcb. Qed.

(** A macro drain in which an invoked task throws: its loop ends in the
    [catch] clause with that task and its error. *)
Lemma flushTaskQueue_caught w t error :
  defined (taskQueue w) →
  t ∈ calls (trace (flushTaskQueue w)) →
  raises (call t) = Some error →
  let r0 := whileTaskQueue (length (taskQueue w)) (taskQueue w) 0
                           (with_taskQueue [] w) in
  outcome r0 = Normal (Caught error (Some t)) ∧
  ∃ pre, calls (trace r0) = pre ++ [t] ∧ Forall returns pre.
Proof.
  intros Hdef Hin Hraise. cbn zeta.
  destruct (defined_inv _ Hdef) as [ts Hts].
  pose proof (whileTaskQueue_spec ts [] (with_taskQueue [] w)) as [Hspec _].
  cbn zeta in Hspec. simpl in Hspec.
  rewrite flushTaskQueue_calls in Hin.
  rewrite Hts, length_fmap in Hin |- *.
  set (r := whileTaskQueue (length ts) (Some <$> ts) 0 (with_taskQueue [] w)) in *.
  destruct (outcome r) as [[|error' task]| |]; try done.
  - exfalso. destruct Hspec as [Hall Hcalls]. rewrite Hcalls in Hin.
    rewrite Forall_forall in Hall. apply Hall in Hin.
    unfold returns in Hin. congruence.
  - destruct Hspec as (pre & t' & post & -> & _ & Hpre & Ht' & Hcalls).
    rewrite Hcalls in Hin. apply elem_of_app in Hin as [Hin|Hin].
    + exfalso. rewrite Forall_forall in Hpre. apply Hpre in Hin.
      unfold returns in Hin. congruence.
    + apply list_elem_of_singleton in Hin as <-.
      assert (error' = error) as -> by congruence.
      split; [done|]. by exists pre.
Qed.

(** C7: when the body of a task [t] invoked by a drain of either tier throws
    [error], the drain routes the error as [onError] says.  If [t] has an
    [onError] handler, the drain calls it, once, with that error, right after
    the call of [t] and before the drain is left: what the handler enqueues
    is enqueued by then, the drain completes as the handler does, and nothing
    is scheduled to rethrow.  If [t] has none, the drain returns normally,
    calls no handler, and has scheduled a callback that rethrows the error:
    with [setImmediate] where the host has it, else as a zero-delay timeout,
    which delivers the error to the host's unhandled-error channel when the
    host fires it. *)
Theorem onError_routes error t w (r : run unit) :
  (r = flushTaskQueue w ∧ defined (taskQueue w)) ∨
  (∃ fuel, r = flushMicroTaskQueue fuel w ∧ defined (microTaskQueue w)) →
  t ∈ calls (trace r) → raises (call t) = Some error →
  (∀ h, onErrorOf t = Some h →
     handled (trace r) = [(t, error)] ∧
     (∃ pre tr1 tr2,
        trace r = tr1 ++ EvOnError t error :: tr2 ∧
        calls tr1 = pre ++ [t] ∧ Forall returns pre ∧ calls tr2 = [] ∧
        queuedMicro tr2 = microOf (effects (h error)) ∧
        queuedMacro tr2 = macroOf (effects (h error))) ∧
     outcome r = match raises (h error) with
                 | Some x => Throw x
                 | None => Normal tt
                 end ∧
     immediates (final r) = immediates w ∧
     rethrows (timers (final r)) = rethrows (timers w)) ∧
  (onErrorOf t = None → hasSetImmediate = true →
     outcome r = Normal tt ∧ handled (trace r) = [] ∧
     immediates (final r) = immediates w ++ [Rethrow error] ∧
     rethrows (timers (final r)) = rethrows (timers w)) ∧
  (onErrorOf t = None → hasSetImmediate = false →
     outcome r = Normal tt ∧ handled (trace r) = [] ∧
     immediates (final r) = immediates w ∧
     ∃ old k,
       timers (final r) = old ++ [Timer k Timeout 0 (Rethrow error)] ∧
       rethrows old = rethrows (timers w) ∧
       (hostOK w → trace (fire k (final r)) = [EvFired k; EvUnhandled error])).
Proof.
  intros Hr Hin Hraise.
  assert (∃ w1 tr0 pre,
            trace r = tr0 ++ trace (onError error (Some t) w1) ∧
            outcome r = outcome (onError error (Some t) w1) ∧
            immediates (final r) = immediates (final (onError error (Some t) w1)) ∧
            timers (final r) = timers (final (onError error (Some t) w1)) ∧
            handled tr0 = [] ∧ calls tr0 = pre ++ [t] ∧ Forall returns pre ∧
            (immediates w1 = immediates w ∧ rethrows (timers w1) = rethrows (timers w)) ∧
            (hostOK w → hostOK w1))
    as (w1 & tr0 & pre & Htr & Ho & Hi & Hts & Hh0 & Hc0 & Hpre & [Hi1 Hr1] & Hok1).
  { destruct Hr as [[-> Hdef]|(fuel & -> & Hdef)].
    - destruct (flushTaskQueue_caught w t error Hdef Hin Hraise) as (Hc & pre & Hcalls & Hpre).
      cbn zeta in Hc, Hcalls. rewrite flushTaskQueue_run. cbn zeta. rewrite Hc.
      set (r0 := whileTaskQueue _ _ _ _) in *.
      exists (final r0), (EvFlushTaskQueue :: trace r0), pre.
      split_and!; try done.
      + change (handled (?e :: ?l)) with (handled ([e] ++ l)).
        rewrite handled_app. cbn. apply handled_inner, inner_whileTaskQueue.
      + by apply (pending_whileTaskQueue (immediates w) (rethrows (timers w))
                    _ _ _ (with_taskQueue [] w)).
      + by apply (pending_whileTaskQueue (immediates w) (rethrows (timers w))
                    _ _ _ (with_taskQueue [] w)).
      + intros Hok. by apply (hostOK_tame _ (with_taskQueue [] w));
          [apply tame_whileTaskQueue|].
    - destruct (flushMicroTaskQueue_thrower fuel w t error Hdef Hin Hraise)
        as (pre & w1 & tr1 & Hloop & Hcalls & Hpre & _ & _).
      pose proof (inner_whileMicroTaskQueue fuel (microTaskQueueCapacity w) 0 w) as Hinner.
      pose proof (pending_whileMicroTaskQueue (immediates w) (rethrows (timers w))
                    fuel (microTaskQueueCapacity w) 0 w (conj eq_refl eq_refl)) as Hpend.
      pose proof (whileMicroTaskQueue_frame fuel (microTaskQueueCapacity w) 0 w Hdef)
        as [Hg _].
      rewrite Hloop in Hinner, Hpend, Hg. cbn [final trace] in Hinner, Hpend, Hg.
      destruct Hpend as [Hpend1 Hpend2].
      rewrite flushMicroTaskQueue_run, Hloop. cbn [outcome final trace]. cbn zeta.
      exists w1, (EvFlushMicroTaskQueue :: tr1), pre.
      destruct (tame_onError error (Some t) w1) as (Hno & _ & _).
      assert (Hh0 : handled (EvFlushMicroTaskQueue :: tr1) = []).
      { change (handled (?e :: ?l)) with (handled ([e] ++ l)).
        rewrite handled_app. cbn. by apply handled_inner. }
      destruct (outcome (onError error (Some t) w1)) as [[]| |] eqn:Hoe;
        [|by split_and!; try done; intros Hok; eapply hostOK_grows|done].
      split_and!; try done. intros Hok. by eapply hostOK_grows. }
  split_and!.
  - intros h Hh. rewrite (onError_handler _ _ h) in Htr, Ho, Hi, Hts by done.
    cbn [outcome final trace] in Htr, Ho, Hi, Hts.
    destruct (pending_acts (immediates w) (rethrows (timers w)) (effects (h error)) w1)
      as [Hi2 Hr2]; [done|].
    split_and!.
    + rewrite Htr, handled_app, Hh0.
      change (handled (?e :: ?l)) with (handled ([e] ++ l)).
      rewrite handled_app. cbn. by rewrite (handled_inner _ (inner_acts _ _)).
    + exists pre, tr0, (trace (acts (effects (h error)) w1)).
      split_and!; [done|done|done|apply acts_calls|apply acts_queuedMicro
                  |apply acts_queuedMacro].
    + done.
    + by rewrite Hi.
    + by rewrite Hts.
  - intros Hnone Himm. rewrite onError_unhandled in Htr, Ho, Hi, Hts by done.
    rewrite Himm in Hi, Hts. cbn [outcome final trace] in Htr, Ho, Hi, Hts.
    rewrite app_nil_r in Htr. split_and!; [done|by rewrite Htr| |].
    + rewrite Hi. cbn. by rewrite Hi1.
    + rewrite Hts. cbn. done.
  - intros Hnone Himm. rewrite onError_unhandled in Htr, Ho, Hi, Hts by done.
    rewrite Himm in Hi, Hts. cbn [outcome final trace] in Htr, Ho, Hi, Hts.
    rewrite app_nil_r in Htr. split_and!; [done|by rewrite Htr| |].
    + rewrite Hi. cbn. done.
    + exists (timers w1), (nextHandle w1). split_and!; [by rewrite Hts|done|].
      intros Hok. specialize (Hok1 Hok).
      apply (fire_rethrow _ _ (Timer (nextHandle w1) Timeout 0 (Rethrow error)));
        [|done].
      rewrite Hts. cbn [timers with_nextHandle with_timers].
      rewrite findTimer_app_None.
      * rewrite findTimer_cons. by rewrite decide_True.
      * apply findTimer_None. eapply Forall_impl; [exact Hok1|].
        intros tm [Htm _]. lia.
Qed.

(** ** The timer race: what the winning timer runs *)

Lemma cancel_cancel a b ts : cancel a (cancel b ts) = cancel b (cancel a ts).
Proof.
  induction ts as [|tm ts IH]; [done|].
  rewrite !(cancel_cons _ tm ts).
  destruct (decide (handle tm ≠ b)), (decide (handle tm ≠ a));
    rewrite ?cancel_cons, ?decide_True, ?decide_False by done; by rewrite ?IH.
Qed.

Lemma cancel_twice a ts : cancel a (cancel a ts) = cancel a ts.
Proof. apply cancel_fresh, cancel_gone. Qed.

Lemma cancel_pair t i h ts :
  h = t ∨ h = i → cancel i (cancel t (cancel h ts)) = cancel i (cancel t ts).
Proof.
  intros [->| ->]; [by rewrite cancel_twice|].
  by rewrite (cancel_cancel t i), cancel_twice, (cancel_cancel i t).
Qed.

Lemma fire_gone h w : findTimer h (timers w) = None → fire h w = Run (Normal tt) w [].
Proof. intros Hf. by rewrite fire_run, Hf. Qed.

Lemma fires_gone schedule w :
  Forall (λ h, findTimer h (timers w) = None) schedule →
  fires schedule w = Run (Normal tt) w [].
Proof.
  induction 1 as [|h schedule Hh _ IH]; [done|].
  rewrite fires_cons by (by rewrite fire_gone).
  rewrite (fire_gone h w Hh). cbn [final trace]. by rewrite IH.
Qed.

Lemma disarmed_gone t i w :
  disarmed t i w →
  findTimer t (timers w) = None ∧ findTimer i (timers w) = None.
Proof.
  intros (_ & _ & _ & Hp).
  split; apply findTimer_None; (eapply Forall_impl; [exact Hp|]);
    by intros tm (? & ? & _).
Qed.

Lemma flushesMacro_onError error task w :
  flushesMacro (trace (onError error task w)) = 0.
Proof.
  destruct task as [t|]; [|done]. destruct (onErrorOf t) as [h|] eqn:Hh.
  - rewrite (onError_handler _ _ h) by done. cbn [trace].
    change (flushesMacro (?e :: ?l)) with (flushesMacro ([e] ++ l)).
    rewrite flushesMacro_app. cbn. apply flushesMacro_inner, inner_acts.
  - by rewrite onError_unhandled.
Qed.

(** One run of the macro drain enters [flushTaskQueue] once: nothing a task
    or a handler can do enters it again. *)
Lemma flushesMacro_flushTaskQueue w : flushesMacro (trace (flushTaskQueue w)) = 1.
Proof.
  rewrite flushTaskQueue_run. cbn zeta.
  pose proof (inner_whileTaskQueue (length (taskQueue w)) (taskQueue w) 0
                (with_taskQueue [] w)) as Hinner.
  apply flushesMacro_inner in Hinner.
  destruct (outcome (whileTaskQueue _ _ _ _)) as [[|error task]| |]; cbn [trace];
    change (flushesMacro (?e :: ?l)) with (flushesMacro ([e] ++ l));
    rewrite !flushesMacro_app, ?Hinner, ?flushesMacro_onError; done.
Qed.

(** The host firing one of the two timers of an armed pair: the callback
    cancels both and runs the macro drain, once. *)
Lemma fire_own_run t i h w :
  armed t i w → h = t ∨ h = i →
  fire h w =
  let d := flushTaskQueue (with_timers (cancel i (cancel t (timers w))) w) in
  Run (Normal tt) (final d)
      (EvFired h :: EvHandleFlushTimer t i :: trace d ++
         match outcome d with Throw x => [EvUnhandled x] | _ => [] end).
Proof.
  intros (Hok & Ht & Hi & (tm1 & Hf1 & Hc1) & (tm2 & Hf2 & Hc2) & Hp) Hh.
  rewrite fire_run.
  assert (∃ tm, findTimer h (timers w) = Some tm ∧
                callback tm = HandleFlushTimer t i) as (tm & -> & ->).
  { destruct Hh as [->| ->]; [by exists tm1|by exists tm2]. }
  cbn zeta. rewrite runClosure_handleFlushTimer. cbn zeta. cbn [outcome final trace].
  assert (Hw : with_timers
                 (cancel i (cancel t (timers match kind tm with
                                             | Timeout => with_timers (cancel h (timers w)) w
                                             | Interval => w
                                             end)))
                 match kind tm with
                 | Timeout => with_timers (cancel h (timers w)) w
                 | Interval => w
                 end =
               with_timers (cancel i (cancel t (timers w))) w).
  { destruct (kind tm); [|done]. cbn [timers with_timers].
    rewrite cancel_pair by done. done. }
  rewrite Hw.
  destruct (tame_flushTaskQueue (with_timers (cancel i (cancel t (timers w))) w))
    as (Hno & _ & _).
  destruct (outcome (flushTaskQueue _)) as [[]| |]; [|done|done].
  by rewrite app_nil_r.
Qed.

(** When the host fires nothing but the two timers of an armed pair, only
    the first firing does anything. *)
Lemma fires_pair_only t i h rest w :
  armed t i w → Forall (λ h, h = t ∨ h = i) (h :: rest) →
  fires (h :: rest) w = fire h w.
Proof.
  intros Ha Hall. apply Forall_cons in Hall as [Hh Hrest].
  destruct (fire_armed_own t i h w Ha Hh) as (Ho & Hd & _).
  destruct (disarmed_gone t i _ Hd) as [Hgt Hgi].
  rewrite fires_cons by done. rewrite fires_gone.
  - cbn [outcome final trace]. rewrite app_nil_r, <- Ho. symmetry. apply run_eta.
  - eapply Forall_impl; [exact Hrest|]. by intros h' [->| ->].
Qed.

(** In any schedule that fires one of the two timers of an armed pair, the
    pair's callback is followed by a run of the macro drain that starts with
    both timers gone. *)
Lemma fires_armed_drain t i schedule w :
  armed t i w → t ∈ schedule ∨ i ∈ schedule →
  ∃ tr0 w0 tr2,
    trace (fires schedule w) =
      tr0 ++ EvHandleFlushTimer t i :: trace (flushTaskQueue w0) ++ tr2 ∧
    handleFlushTimerCalls t i tr0 = 0 ∧ handleFlushTimerCalls t i tr2 = 0 ∧
    findTimer t (timers w0) = None ∧ findTimer i (timers w0) = None.
Proof.
  revert w. induction schedule as [|h schedule IH]; intros w Ha Hin.
  { destruct Hin as [Hin|Hin]; by apply not_elem_of_nil in Hin. }
  destruct (decide (h = t ∨ h = i)) as [Hh|Hh].
  - pose proof (fire_own_run t i h w Ha Hh) as Hrun. cbn zeta in Hrun.
    destruct (fire_armed_own t i h w Ha Hh) as (Ho & Hd & _).
    rewrite fires_cons by done. rewrite Hrun in Hd |- *.
    cbn [trace final] in Hd |- *.
    destruct (fires_disarmed t i schedule _ Hd) as (_ & _ & Hc').
    set (w0 := with_timers (cancel i (cancel t (timers w))) w) in *.
    exists [EvFired h], w0,
      (match outcome (flushTaskQueue w0) with
       | Throw x => [EvUnhandled x]
       | _ => []
       end ++ trace (fires schedule (final (flushTaskQueue w0)))).
    split_and!.
    + cbn [app]. by rewrite <- !app_assoc.
    + done.
    + rewrite handleFlushTimerCalls_app, Hc'.
      by destruct (outcome (flushTaskQueue w0)).
    + apply findTimer_None. subst w0. cbn [timers with_timers].
      apply Forall_cancel, cancel_gone.
    + apply findTimer_None. subst w0. cbn [timers with_timers]. apply cancel_gone.
  - destruct (fire_armed_other t i h w Ha) as (Ho & Ha' & Hc); [lia..|].
    rewrite fires_cons by done. cbn [trace].
    destruct (IH _ Ha') as (tr0 & w0 & tr2 & Htr & H0 & H2 & Ht & Hi).
    { rewrite !elem_of_cons in Hin. destruct Hin as [[?|?]|[?|?]]; auto; lia. }
    exists (trace (fire h w) ++ tr0), w0, tr2. split_and!; [|  |done..].
    + by rewrite Htr, <- app_assoc.
    + by rewrite handleFlushTimerCalls_app, Hc, H0.
Qed.

(** C9: one call of the timer-based [requestFlush] registers a zero-delay
    timeout and a 50ms interval on one [handleFlushTimer].  In any world
    whose timer table is as that call left it, the host may fire any timers
    in any order and any number of times: the callback of this call is
    entered exactly once if the host ever fires one of the two timers (and
    never otherwise); that entry runs the macro drain, which starts with both
    timers cancelled; and from then on neither timer is active.  When the
    host fires only these two timers, the whole run is the first firing
    followed by one run of [flushTaskQueue]: the drain is entered once, and
    queued tasks that return are each invoked once, in order. *)
Theorem timer_race_once w w' schedule :
  hostOK w →
  let timeoutHandle := nextHandle w in
  let intervalHandle := S (nextHandle w) in
  let handleFlushTimer := HandleFlushTimer timeoutHandle intervalHandle in
  let w1 := final (requestFlushTaskQueue w) in
  timers w' = timers w1 → nextHandle w' = nextHandle w1 →
  let r := fires schedule w' in
  timers w1 = timers w ++ [Timer timeoutHandle Timeout 0 handleFlushTimer;
                           Timer intervalHandle Interval 50 handleFlushTimer] ∧
  outcome r = Normal tt ∧
  handleFlushTimerCalls timeoutHandle intervalHandle (trace r) =
    (if bool_decide (timeoutHandle ∈ schedule ∨ intervalHandle ∈ schedule)
     then 1 else 0) ∧
  (timeoutHandle ∈ schedule ∨ intervalHandle ∈ schedule →
   findTimer timeoutHandle (timers (final r)) = None ∧
   findTimer intervalHandle (timers (final r)) = None ∧
   ∃ tr0 w0 tr2,
     trace r = tr0 ++ EvHandleFlushTimer timeoutHandle intervalHandle ::
                 trace (flushTaskQueue w0) ++ tr2 ∧
     handleFlushTimerCalls timeoutHandle intervalHandle tr0 = 0 ∧
     handleFlushTimerCalls timeoutHandle intervalHandle tr2 = 0 ∧
     findTimer timeoutHandle (timers w0) = None ∧
     findTimer intervalHandle (timers w0) = None) ∧
  (∀ h rest,
     schedule = h :: rest →
     Forall (λ h, h = timeoutHandle ∨ h = intervalHandle) schedule →
     let d := flushTaskQueue (with_timers (timers w) w') in
     r = Run (Normal tt) (final d)
             (EvFired h :: EvHandleFlushTimer timeoutHandle intervalHandle ::
                trace d ++ match outcome d with Throw x => [EvUnhandled x] | _ => [] end) ∧
     flushesMacro (trace r) = 1 ∧
     ∀ ts, taskQueue w' = Some <$> ts → Forall returns ts → calls (trace r) = ts).
Proof.
  intros Hok. cbn zeta. rewrite requestFlushTaskQueue_run. cbn [final].
  intros Hts Hn.
  assert (Htable : timers (armMacro w) =
                   timers w ++ [Timer (nextHandle w) Timeout 0
                                  (HandleFlushTimer (nextHandle w) (S (nextHandle w)));
                                Timer (S (nextHandle w)) Interval 50
                                  (HandleFlushTimer (nextHandle w) (S (nextHandle w)))]).
  { simpl. by rewrite <- app_assoc. }
  assert (Harmed : armed (nextHandle w) (S (nextHandle w)) w').
  { apply (armed_same _ _ (armMacro w)); [done|done|].
    by apply requestFlushTaskQueue_armed. }
  destruct (fires_armed _ _ schedule _ Harmed) as [Ho Hrace].
  split_and!; [done|done| | |].
  - by destruct (bool_decide _); destruct Hrace.
  - intros Hin. rewrite bool_decide_eq_true_2 in Hrace by done.
    destruct Hrace as [_ Hd]. destruct (disarmed_gone _ _ _ Hd) as [Hgt Hgi].
    split_and!; [done|done|]. by apply fires_armed_drain.
  - intros h rest -> Hall.
    assert (Hh : h = nextHandle w ∨ h = S (nextHandle w)).
    { by apply Forall_cons in Hall as [Hh _]. }
    assert (Hcancel : cancel (S (nextHandle w)) (cancel (nextHandle w) (timers w')) =
                      timers w).
    { rewrite Hts, Htable. unfold cancel. rewrite !filter_app.
      fold (cancel (nextHandle w) (timers w)).
      rewrite (cancel_fresh (nextHandle w) (timers w)).
      2:{ eapply Forall_impl; [exact Hok|]. intros tm [Htm _]. lia. }
      fold (cancel (S (nextHandle w)) (timers w)).
      rewrite (cancel_fresh (S (nextHandle w)) (timers w)).
      2:{ eapply Forall_impl; [exact Hok|]. intros tm [Htm _]. lia. }
      rewrite filter_cons_False by (simpl; tauto).
      rewrite filter_cons_True by (simpl; lia).
      rewrite filter_nil, filter_cons_False by (simpl; tauto).
      by rewrite filter_nil, app_nil_r. }
    rewrite (fires_pair_only _ _ h rest w' Harmed Hall).
    rewrite (fire_own_run _ _ h w' Harmed Hh). cbn zeta. rewrite Hcancel.
    cbn [trace]. set (d := flushTaskQueue (with_timers (timers w) w')).
    split_and!; [done| |].
    + change (flushesMacro (?a :: ?b :: ?l)) with (flushesMacro ([a; b] ++ l)).
      rewrite !flushesMacro_app. subst d. rewrite flushesMacro_flushTaskQueue.
      by destruct (outcome (flushTaskQueue _)).
    + intros ts Hq Hret.
      destruct (flushTaskQueue_fifo (with_timers (timers w) w') ts Hq Hret)
        as [Hod Hcd].
      fold d in Hod, Hcd. rewrite Hod, app_nil_r. exact Hcd.
Qed.

End TaskQueue.

(** * Concrete runs

    Tasks are numbered; errors are numbers too. *)

Abbreviation world := (@World nat nat).

(** The world after [queueMicroTask] has been called on each of [ts], in
    order, on a new instance. *)
Definition microBurst (ts : list nat) : world :=
  final (acts (QueueMicroTask <$> ts) constructor).

(** The same for [queueTask]. *)
Definition macroBurst (ts : list nat) : world :=
  final (acts (QueueTask <$> ts) constructor).

(** Tasks that do nothing, and no task has an [onError]. *)
Definition idle (t : nat) : @behaviour nat nat := Behaviour [] None.
Definition unhandled (t : nat) : option (@exn nat → @behaviour nat nat) := None.

(** Task 0 enqueues micro task 5000; every other task does nothing. *)
Definition spawning (t : nat) : @behaviour nat nat :=
  match t with
  | 0 => Behaviour [QueueMicroTask 5000] None
  | _ => Behaviour [] None
  end.

(** Macro task 0 enqueues macro task 2; every other task does nothing. *)
Definition deferring (t : nat) : @behaviour nat nat :=
  match t with
  | 0 => Behaviour [QueueTask 2] None
  | _ => Behaviour [] None
  end.

(** Macro task 0 enqueues macro tasks 1 and 2; task 1 throws 7. *)
Definition blocked (t : nat) : @behaviour nat nat :=
  match t with
  | 0 => Behaviour [QueueTask 1; QueueTask 2] None
  | 1 => Behaviour [] (Some (Thrown 7))
  | _ => Behaviour [] None
  end.

(** Task 0 throws 7; every other task does nothing. *)
Definition failing (t : nat) : @behaviour nat nat :=
  match t with
  | 0 => Behaviour [] (Some (Thrown 7))
  | _ => Behaviour [] None
  end.

(** Task 0 has a handler that enqueues micro task 9 and returns. *)
Definition requeueing (t : nat) : option (@exn nat → @behaviour nat nat) :=
  match t with
  | 0 => Some (λ _, Behaviour [QueueMicroTask 9] None)
  | _ => None
  end.

(** Task 0 has a handler that throws 8. *)
Definition rethrowing (t : nat) : option (@exn nat → @behaviour nat nat) :=
  match t with
  | 0 => Some (λ _, Behaviour [] (Some (Thrown 8)))
  | _ => None
  end.

(** Task 0 has a handler that enqueues micro task 9 and then throws 8. *)
Definition requeueingThenThrowing (t : nat)
  : option (@exn nat → @behaviour nat nat) :=
  match t with
  | 0 => Some (λ _, Behaviour [QueueMicroTask 9] (Some (Thrown 8)))
  | _ => None
  end.

Lemma microBurst_queue ts : microTaskQueue (microBurst ts) = Some <$> ts.
Proof.
  unfold microBurst. by rewrite acts_microTaskQueue, microOf_burst.
Qed.

Lemma microBurst_capacity ts : microTaskQueueCapacity (microBurst ts) = 1024.
Proof. unfold microBurst. by rewrite acts_capacity. Qed.

Lemma macroBurst_queue ts : taskQueue (macroBurst ts) = Some <$> ts.
Proof.
  unfold macroBurst. by rewrite acts_taskQueue, macroOf_burst.
Qed.

Lemma idle_inert t : inert idle t.
Proof. done. Qed.

(** The micro drain of a new instance on which 2051 idle tasks, numbered 0 to
    2050, were queued; and the same with 2000 tasks. *)
Definition idle2051 : @run nat nat unit :=
  flushMicroTaskQueue idle unhandled true 4000 (microBurst (seq 0 2051)).

Definition idle2000 : @run nat nat unit :=
  flushMicroTaskQueue idle unhandled true 4000 (microBurst (seq 0 2000)).

(** The micro drain of a new instance on which tasks 0 to 2050 were queued,
    task 0 enqueueing task 5000 when it runs. *)
Definition spawning2051 : @run nat nat unit :=
  flushMicroTaskQueue spawning unhandled true 4000 (microBurst (seq 0 2051)).

Lemma idle2051_eval :
  (outcome idle2051, calls (trace idle2051)) = (Normal tt, seq 0 2050 ++ [1025]).
Proof. vm_compute. reflexivity. Qed.

Lemma spawning2051_eval :
  (outcome spawning2051, microTaskQueue (final spawning2051),
   queuedMicro (trace spawning2051), calls (trace spawning2051)) =
  (Normal tt, [], [5000], seq 0 2050 ++ [1025; 1026]).
Proof. vm_compute. reflexivity. Qed.

(** C1: 2051 micro tasks that neither throw nor enqueue, queued before one
    drain.  The drain returns, having invoked tasks 0 to 2049 in order and
    then task 1025 a second time; task 2050 is never invoked.  The order of
    invocation is not the order of enqueueing. *)
Theorem micro_fifo_breaks_at_2051 :
  outcome idle2051 = Normal tt ∧
  calls (trace idle2051) = seq 0 2050 ++ [1025] ∧
  calls (trace idle2051) ≠ seq 0 2051.
Proof.
  destruct (proj1 (pair_equal_spec _ _ _ _) idle2051_eval) as [Ho Hc].
  split; [exact Ho|]. split; [exact Hc|].
  rewrite Hc. intros Heq. rewrite (seq_S 2050 0) in Heq.
  apply app_inj_tail in Heq as [_ Heq]. lia.
Qed.

(** C2: a burst of 2000 idle micro tasks is drained in order, each task
    once.  With 2051 the first compaction, at index 1025, finds 1026 cells
    pending and copies 1025 of them: the array it leaves is not the pending
    suffix, its last cell holds task 1025 again instead of task 2050.  The
    drain then invokes task 1025 a second time, as its last task, and never
    invokes task 2050. *)
Theorem compaction_loses_tail_at_2051 :
  (outcome idle2000 = Normal tt ∧ calls (trace idle2000) = seq 0 2000) ∧
  (compacted 1025 (Some <$> seq 0 2051) = (Some <$> seq 1025 1025) ++ [Some 1025] ∧
   drop 1025 (Some <$> seq 0 2051) = (Some <$> seq 1025 1025) ++ [Some 2050]) ∧
  (calls (trace idle2051) !! 1025 = Some 1025 ∧
   calls (trace idle2051) !! 2050 = Some 1025 ∧
   2050 ∉ calls (trace idle2051)).
Proof.
  split; [|split].
  - destruct (flushMicroTaskQueue_fifo idle unhandled true 4000
                (microBurst (seq 0 2000)) (seq 0 2000)) as (Ho & Hc & _).
    + apply microBurst_queue.
    + apply Forall_forall. intros t _. apply idle_inert.
    + rewrite microBurst_capacity, length_seq. apply Nat.leb_le.
      vm_compute. reflexivity.
    + rewrite length_seq. apply Nat.ltb_lt. vm_compute. reflexivity.
    + split; [exact Ho|exact Hc].
  - split; vm_compute; reflexivity.
  - destruct (proj1 (pair_equal_spec _ _ _ _) idle2051_eval) as [_ Hc].
    rewrite Hc. split; [vm_compute; reflexivity|].
    split; [vm_compute; reflexivity|].
    rewrite elem_of_app, elem_of_seq, list_elem_of_singleton. lia.
Qed.

(** C4: of 2051 queued micro tasks, none of which throws, the first one
    enqueues task 5000 while the drain runs.  The drain returns, and leaves
    the array empty, without having invoked task 5000. *)
Theorem reentrant_micro_task_lost :
  outcome spawning2051 = Normal tt ∧
  Forall (returns spawning) (calls (trace spawning2051)) ∧
  5000 ∈ queuedMicro (trace spawning2051) ∧
  (5000 ∉ calls (trace spawning2051)) ∧
  microTaskQueue (final spawning2051) = [].
Proof.
  pose proof spawning2051_eval as H.
  apply pair_equal_spec in H as [H Hc]. apply pair_equal_spec in H as [H Hq].
  apply pair_equal_spec in H as [Ho Hf].
  split; [exact Ho|]. split; [|split; [|split; [|exact Hf]]].
  - apply Forall_forall. intros [|t] _; reflexivity.
  - rewrite Hq. by apply list_elem_of_singleton.
  - rewrite Hc, elem_of_app, elem_of_seq, !elem_of_cons.
    intros [?|[?|[?|?%not_elem_of_nil]]]; [lia|lia|lia|done].
Qed.

(** ** Small runs *)

(** C3, as stated, fails: macro task 0 enqueues tasks 1 and 2 while the first
    drain runs; the first drain invokes task 0 only; the next drain invokes
    task 1, which throws, and returns with the array empty: task 2 is not
    invoked in the next drain. *)
Lemma next_macro_drain_skips_enqueued_task :
  let r1 := flushTaskQueue blocked unhandled true (macroBurst [0]) in
  let r2 := flushTaskQueue blocked unhandled true (final r1) in
  calls (trace r1) = [0] ∧ queuedMacro (trace r1) = [1; 2] ∧
  calls (trace r2) = [1] ∧ (2 ∉ calls (trace r2)) ∧ taskQueue (final r2) = [].
Proof.
  cbn zeta. split_and!; try (vm_compute; reflexivity).
  replace (calls _) with [1] by (vm_compute; reflexivity).
  rewrite list_elem_of_singleton. lia.
Qed.

(** Macro task 0 enqueues task 2 while the first drain runs: the first drain
    invokes task 0 only and the next one invokes task 2. *)
Lemma macro_reentrant_deferred_witness :
  taskQueue (macroBurst [0]) = Some <$> [0] ∧
  2 ∈ queuedMacro (trace (flushTaskQueue deferring unhandled true (macroBurst [0]))) ∧
  (calls (trace (flushTaskQueue deferring unhandled true (macroBurst [0])))
     `prefix_of` [0] ∧
   (2 ∉ [0] →
    2 ∉ calls (trace (flushTaskQueue deferring unhandled true (macroBurst [0])))) ∧
   ∃ pre post,
     taskQueue (final (flushTaskQueue deferring unhandled true (macroBurst [0]))) =
       Some <$> (pre ++ 2 :: post) ∧
     (Forall (returns deferring) pre →
      (pre ++ [2]) `prefix_of`
        calls (trace (flushTaskQueue deferring unhandled true
                        (final (flushTaskQueue deferring unhandled true
                                  (macroBurst [0]))))))).
Proof.
  split; [reflexivity|]. split.
  - replace (queuedMacro _) with [2] by (vm_compute; reflexivity).
    by apply list_elem_of_singleton.
  - apply (macro_reentrant_deferred deferring unhandled true (macroBurst [0]) [0] 2).
    + reflexivity.
    + replace (queuedMacro _) with [2] by (vm_compute; reflexivity).
      by apply list_elem_of_singleton.
Defined.

(** Three [queueMicroTask] calls on a new instance: one [requestFlush], inside
    the first call. *)
Lemma arm_once_witness :
  microTaskQueue (constructor : world) = [] ∧
  trace (acts (QueueMicroTask <$> [1; 2; 3]) (constructor : world)) =
    [EvQueueMicroTask 1; EvRequestFlushMicroTaskQueue;
     EvQueueMicroTask 2; EvQueueMicroTask 3] ∧
  requestsMicro (trace (acts (QueueMicroTask <$> [1; 2; 3]) (constructor : world))) = 1.
Proof.
  split; [reflexivity|].
  apply (proj1 (@arm_once nat nat) constructor 1 [2; 3]). reflexivity.
Defined.

(** C6: micro tasks 0 and 1 are queued; task 0 throws 7 and its [onError]
    handler throws 8.  The loop stops at task 0 and the handler is called
    with task 0 and the error 7, as specified; but the drain completes
    by throwing 8 and the micro array is not truncated: it still holds both
    tasks.  The macro drain of the same tasks ends with its array empty, and
    so does the micro drain when the handler returns.  A later micro drain
    of the world left starts again at the stale task 0. *)
Theorem micro_queue_not_truncated_when_handler_throws :
  let r := flushMicroTaskQueue failing rethrowing true 10 (microBurst [0; 1]) in
  (calls (trace r) = [0] ∧ handled (trace r) = [(0, Thrown 7)]) ∧
  (outcome r = Throw (Thrown 8) ∧
   microTaskQueue (final r) = [Some 0; Some 1] ∧ microTaskQueue (final r) ≠ []) ∧
  (let macro := flushTaskQueue failing rethrowing true (macroBurst [0; 1]) in
   calls (trace macro) = [0] ∧ outcome macro = Throw (Thrown 8) ∧
   taskQueue (final macro) = []) ∧
  (let returning := flushMicroTaskQueue failing requeueing true 10 (microBurst [0; 1]) in
   calls (trace returning) = [0] ∧ outcome returning = Normal tt ∧
   microTaskQueue (final returning) = []) ∧
  calls (trace (flushMicroTaskQueue failing rethrowing true 10 (final r))) = [0].
Proof.
  cbn zeta. split_and!; try (vm_compute; reflexivity). by vm_compute.
Qed.

(** Micro tasks 0 and 1 are queued and task 0 throws 7.  With a handler that
    returns, task 1 is not invoked and the array is emptied; with a handler
    that throws 8, the drain throws 8 and the array is not emptied. *)
Lemma micro_drain_aborts_on_throw_witness :
  let r := flushMicroTaskQueue failing requeueing true 10 (microBurst [0; 1]) in
  let r' := flushMicroTaskQueue failing rethrowing true 10 (microBurst [0; 1]) in
  defined (microTaskQueue (microBurst [0; 1])) ∧
  0 ∈ calls (trace r) ∧ 0 ∈ calls (trace r') ∧
  raises (failing 0) = Some (Thrown 7) ∧
  ((∃ pre, calls (trace r) = pre ++ [0] ∧ Forall (returns failing) pre) ∧
   outcome r = Normal tt ∧ microTaskQueue (final r) = []) ∧
  ((∃ pre, calls (trace r') = pre ++ [0] ∧ Forall (returns failing) pre) ∧
   outcome r' = Throw (Thrown 8) ∧ microTaskQueue (final r') ≠ []).
Proof.
  cbn zeta.
  assert (Hdef : defined (microTaskQueue (microBurst [0; 1]))).
  { rewrite microBurst_queue. apply defined_fmap_Some. }
  assert (Hin : 0 ∈ calls (trace (flushMicroTaskQueue failing requeueing true 10
                                    (microBurst [0; 1])))).
  { replace (calls _) with [0] by (vm_compute; reflexivity).
    by apply list_elem_of_singleton. }
  assert (Hin' : 0 ∈ calls (trace (flushMicroTaskQueue failing rethrowing true 10
                                     (microBurst [0; 1])))).
  { replace (calls _) with [0] by (vm_compute; reflexivity).
    by apply list_elem_of_singleton. }
  split; [exact Hdef|]. split; [exact Hin|]. split; [exact Hin'|].
  split; [reflexivity|]. split.
  - destruct (micro_drain_aborts_on_throw failing requeueing true 10 (microBurst [0; 1])
                0 (Thrown 7) Hdef Hin eq_refl)
      as (pre & w1 & tr1 & Hcalls & Hpre & _ & _ & Hret & _).
    destruct Hret as (_ & Ho & Hq).
    { intros h [= <-]. reflexivity. }
    split; [by exists pre|]. split; [exact Ho|exact Hq].
  - destruct (micro_drain_aborts_on_throw failing rethrowing true 10 (microBurst [0; 1])
                0 (Thrown 7) Hdef Hin' eq_refl)
      as (pre & w1 & tr1 & Hcalls & Hpre & _ & _ & _ & Hthrow).
    destruct (Hthrow (λ _, Behaviour [] (Some (Thrown 8))) (Thrown 8) eq_refl eq_refl)
      as (_ & Ho & _ & Hne).
    split; [by exists pre|]. split; [exact Ho|exact Hne].
Defined.

(** C10: micro tasks 0 and 1 are queued; task 0 throws 7 and its [onError]
    handler enqueues micro task 9 and then throws 8.  The enqueue calls no
    [requestFlush], as specified; but the drain completes by throwing 8
    and its truncation does not run: task 9 is not discarded, it is left in
    the array behind the two stale tasks.  It is not invoked either: a later
    micro drain of the world left starts again at the stale task 0, whose
    handler enqueues task 9 once more.  When the handler returns after
    enqueueing, the truncation empties the array. *)
Theorem handler_enqueue_not_truncated_when_handler_throws :
  let r := flushMicroTaskQueue failing requeueingThenThrowing true 10
             (microBurst [0; 1]) in
  (queuedMicro (trace r) = [9] ∧ requestsMicro (trace r) = 0 ∧ calls (trace r) = [0]) ∧
  (outcome r = Throw (Thrown 8) ∧
   microTaskQueue (final r) = [Some 0; Some 1; Some 9]) ∧
  (let later := flushMicroTaskQueue failing requeueingThenThrowing true 10 (final r) in
   calls (trace later) = [0] ∧
   microTaskQueue (final later) = [Some 0; Some 1; Some 9; Some 9]) ∧
  (let returning := flushMicroTaskQueue failing requeueing true 10 (microBurst [0; 1]) in
   queuedMicro (trace returning) = [9] ∧ outcome returning = Normal tt ∧
   microTaskQueue (final returning) = []).
Proof. cbn zeta. split_and!; vm_compute; reflexivity. Qed.

(** Micro tasks 0 and 1 are queued, task 0 throws 7 and its handler enqueues
    task 9 and returns: task 9 is dropped by the truncation. *)
Lemma handler_enqueue_is_lost_witness :
  defined (microTaskQueue (microBurst [0; 1])) ∧
  0 ∈ calls (trace (flushMicroTaskQueue failing requeueing true 10 (microBurst [0; 1]))) ∧
  raises (failing 0) = Some (Thrown 7) ∧
  requeueing 0 = Some (λ _, Behaviour [QueueMicroTask 9] None) ∧
  QueueMicroTask 9 ∈ [@QueueMicroTask nat 9] ∧
  ∃ tr1 tr2,
    trace (flushMicroTaskQueue failing requeueing true 10 (microBurst [0; 1])) =
      tr1 ++ EvOnError 0 (Thrown 7) :: tr2 ∧
    9 ∈ queuedMicro tr2 ∧ requestsMicro tr2 = 0 ∧ calls tr2 = [] ∧
    outcome (flushMicroTaskQueue failing requeueing true 10 (microBurst [0; 1])) =
      Normal tt ∧
    microTaskQueue
      (final (flushMicroTaskQueue failing requeueing true 10 (microBurst [0; 1]))) = [] ∧
    ∀ fuel',
      calls (trace (flushMicroTaskQueue failing requeueing true (S fuel')
                      (final (flushMicroTaskQueue failing requeueing true 10
                                (microBurst [0; 1]))))) = [].
Proof.
  assert (Hdef : defined (microTaskQueue (microBurst [0; 1]))).
  { rewrite microBurst_queue. apply defined_fmap_Some. }
  assert (Hin : 0 ∈ calls (trace (flushMicroTaskQueue failing requeueing true 10
                                    (microBurst [0; 1])))).
  { replace (calls _) with [0] by (vm_compute; reflexivity).
    by apply list_elem_of_singleton. }
  assert (HX : QueueMicroTask 9 ∈ [@QueueMicroTask nat 9])
    by (by apply list_elem_of_singleton).
  split; [exact Hdef|]. split; [exact Hin|]. split; [reflexivity|].
  split; [reflexivity|]. split; [exact HX|].
  exact (handler_enqueue_is_lost failing requeueing true 10 (microBurst [0; 1])
           0 (Thrown 7) (λ _, Behaviour [QueueMicroTask 9] None) 9
           Hdef Hin eq_refl eq_refl HX eq_refl).
Defined.

(** Task 0 throws 7 in a drain over tasks 0 and 1.  In the micro drain,
    without handler and with [setImmediate], the drain returns and has
    scheduled the rethrow of 7; in the macro drain, with a handler that
    enqueues micro task 9, the handler is called once, with 7, and task 9 is
    enqueued; in the macro drain, without handler and without
    [setImmediate], firing the timeout registered delivers 7 to the host. *)
Lemma onError_routes_witness :
  let micro := flushMicroTaskQueue failing unhandled true 10 (microBurst [0; 1]) in
  let macro := flushTaskQueue failing requeueing true (macroBurst [0; 1]) in
  let timed := flushTaskQueue failing unhandled false (macroBurst [0; 1]) in
  (defined (microTaskQueue (microBurst [0; 1])) ∧ defined (taskQueue (macroBurst [0; 1]))) ∧
  (0 ∈ calls (trace micro) ∧ 0 ∈ calls (trace macro) ∧ 0 ∈ calls (trace timed)) ∧
  raises (failing 0) = Some (Thrown 7) ∧
  (outcome micro = Normal tt ∧ handled (trace micro) = [] ∧
   immediates (final micro) = immediates (microBurst [0; 1]) ++ [Rethrow (Thrown 7)]) ∧
  (handled (trace macro) = [(0, Thrown 7)] ∧ outcome macro = Normal tt ∧
   immediates (final macro) = immediates (macroBurst [0; 1]) ∧
   ∃ tr1 tr2, trace macro = tr1 ++ EvOnError 0 (Thrown 7) :: tr2 ∧
              queuedMicro tr2 = [9]) ∧
  (outcome timed = Normal tt ∧
   immediates (final timed) = immediates (macroBurst [0; 1]) ∧
   ∃ old k, timers (final timed) = old ++ [Timer k Timeout 0 (Rethrow (Thrown 7))] ∧
            trace (fire failing unhandled false k (final timed)) =
              [EvFired k; EvUnhandled (Thrown 7)]).
Proof.
  cbn zeta.
  assert (Hmicro : defined (microTaskQueue (microBurst [0; 1]))).
  { rewrite microBurst_queue. apply defined_fmap_Some. }
  assert (Hmacro : defined (taskQueue (macroBurst [0; 1]))).
  { rewrite macroBurst_queue. apply defined_fmap_Some. }
  assert (Hin1 : 0 ∈ calls (trace (flushMicroTaskQueue failing unhandled true 10
                                     (microBurst [0; 1])))).
  { replace (calls _) with [0] by (vm_compute; reflexivity).
    by apply list_elem_of_singleton. }
  assert (Hin2 : 0 ∈ calls (trace (flushTaskQueue failing requeueing true
                                     (macroBurst [0; 1])))).
  { replace (calls _) with [0] by (vm_compute; reflexivity).
    by apply list_elem_of_singleton. }
  assert (Hin3 : 0 ∈ calls (trace (flushTaskQueue failing unhandled false
                                     (macroBurst [0; 1])))).
  { replace (calls _) with [0] by (vm_compute; reflexivity).
    by apply list_elem_of_singleton. }
  assert (Hok : hostOK (macroBurst [0; 1])).
  { apply (hostOK_tame (acts (QueueTask <$> [0; 1])) constructor);
      [apply tame_acts|constructor]. }
  split; [split; [exact Hmicro|exact Hmacro]|].
  split; [split; [exact Hin1|split; [exact Hin2|exact Hin3]]|].
  split; [reflexivity|].
  split; [|split].
  - destruct (onError_routes failing unhandled true (Thrown 7) 0 (microBurst [0; 1])
                (flushMicroTaskQueue failing unhandled true 10 (microBurst [0; 1]))
                (or_intror (ex_intro _ 10 (conj eq_refl Hmicro))) Hin1 eq_refl)
      as (_ & Himm & _).
    destruct (Himm eq_refl eq_refl) as (Ho & Hh & Hi & _).
    split; [exact Ho|]. split; [exact Hh|exact Hi].
  - destruct (onError_routes failing requeueing true (Thrown 7) 0 (macroBurst [0; 1])
                (flushTaskQueue failing requeueing true (macroBurst [0; 1]))
                (or_introl (conj eq_refl Hmacro)) Hin2 eq_refl)
      as (Hhandler & _ & _).
    destruct (Hhandler (λ _, Behaviour [QueueMicroTask 9] None) eq_refl)
      as (Hh & (pre & tr1 & tr2 & Htr & _ & _ & _ & Hq & _) & Ho & Hi & _).
    split; [exact Hh|]. split; [exact Ho|]. split; [exact Hi|].
    exists tr1, tr2. split; [exact Htr|exact Hq].
  - destruct (onError_routes failing unhandled false (Thrown 7) 0 (macroBurst [0; 1])
                (flushTaskQueue failing unhandled false (macroBurst [0; 1]))
                (or_introl (conj eq_refl Hmacro)) Hin3 eq_refl)
      as (_ & _ & Htimed).
    destruct (Htimed eq_refl eq_refl) as (Ho & _ & Hi & old & k & Hts & _ & Hfire).
    split; [exact Ho|]. split; [exact Hi|]. exists old, k.
    split; [exact Hts|exact (Hfire Hok)].
Defined.

(** A macro drain that completes by a throw: what it throws is the 8 of the
    handler of task 0, not the 7 of its body. *)
Lemma errors_stay_in_drain_witness :
  defined (taskQueue (macroBurst [0; 1])) ∧
  outcome (flushTaskQueue failing rethrowing true (macroBurst [0; 1])) =
    Throw (Thrown 8) ∧
  ∃ t error h,
    t ∈ calls (trace (flushTaskQueue failing rethrowing true (macroBurst [0; 1]))) ∧
    raises (failing t) = Some error ∧ rethrowing t = Some h ∧
    raises (h error) = Some (Thrown 8).
Proof.
  assert (Hdef : defined (taskQueue (macroBurst [0; 1]))).
  { rewrite macroBurst_queue. apply defined_fmap_Some. }
  assert (Ho : outcome (flushTaskQueue failing rethrowing true (macroBurst [0; 1])) =
               Throw (Thrown 8)) by (vm_compute; reflexivity).
  split; [exact Hdef|]. split; [exact Ho|].
  exact (proj1 (proj2 (proj2 (errors_stay_in_drain failing rethrowing true)))
           (macroBurst [0; 1]) (Thrown 8) Hdef Ho).
Defined.

Lemma hostOK_constructor : hostOK (constructor : world).
Proof. constructor. Qed.

(** Macro tasks 5 and 6 are queued on a new instance, which calls the
    timer-based [requestFlush] once; the host fires the interval, then the
    timeout, then the interval again: one entry into [handleFlushTimer], one
    run of the drain, and each task invoked once. *)
Lemma timer_race_once_witness :
  let r := fires idle unhandled true [1; 0; 1] (macroBurst [5; 6]) in
  hostOK (constructor : world) ∧
  timers (macroBurst [5; 6]) =
    timers (final (requestFlushTaskQueue (constructor : world))) ∧
  nextHandle (macroBurst [5; 6]) =
    nextHandle (final (requestFlushTaskQueue (constructor : world))) ∧
  outcome r = Normal tt ∧
  handleFlushTimerCalls 0 1 (trace r) =
    (if bool_decide (0 ∈ [1; 0; 1] ∨ 1 ∈ [1; 0; 1]) then 1 else 0) ∧
  (findTimer 0 (timers (final r)) = None ∧ findTimer 1 (timers (final r)) = None) ∧
  flushesMacro (trace r) = 1 ∧ calls (trace r) = [5; 6].
Proof.
  cbn zeta.
  destruct (timer_race_once idle unhandled true constructor (macroBurst [5; 6])
              [1; 0; 1] hostOK_constructor eq_refl eq_refl)
    as (_ & Ho & Hc & Hgone & Honly).
  destruct Hgone as (Hg0 & Hg1 & _).
  { right. constructor. }
  destruct (Honly 1 [0; 1] eq_refl) as (_ & Hf & Hcalls).
  { apply Forall_cons; split; [right; reflexivity|].
    apply Forall_cons; split; [left; reflexivity|].
    apply Forall_cons; split; [right; reflexivity|]. constructor. }
  split; [exact hostOK_constructor|]. split; [reflexivity|]. split; [reflexivity|].
  split; [exact Ho|]. split; [exact Hc|]. split; [split; [exact Hg0|exact Hg1]|].
  split; [exact Hf|].
  apply (Hcalls [5; 6]); [reflexivity|]. by repeat constructor.
Defined.

(** ** Instances of the further properties *)

Lemma macro_drain_is_fifo_witness :
  taskQueue (macroBurst [0; 1; 2]) = Some <$> [0; 1; 2] ∧
  Forall (returns idle) [0; 1; 2] ∧
  outcome (flushTaskQueue idle unhandled true (macroBurst [0; 1; 2])) = Normal tt ∧
  calls (trace (flushTaskQueue idle unhandled true (macroBurst [0; 1; 2]))) = [0; 1; 2].
Proof.
  assert (Hr : Forall (returns idle) [0; 1; 2]) by (by repeat constructor).
  split; [reflexivity|]. split; [exact Hr|].
  exact (macro_drain_is_fifo idle unhandled true (macroBurst [0; 1; 2]) [0; 1; 2]
           eq_refl Hr).
Defined.

Lemma micro_drain_is_fifo_up_to_twice_capacity_witness :
  microTaskQueue (microBurst [0; 1; 2]) = Some <$> [0; 1; 2] ∧
  Forall (inert idle) [0; 1; 2] ∧
  length [0; 1; 2] ≤ 2 * S (microTaskQueueCapacity (microBurst [0; 1; 2])) ∧
  length [0; 1; 2] < 10 ∧
  outcome (flushMicroTaskQueue idle unhandled true 10 (microBurst [0; 1; 2])) = Normal tt ∧
  calls (trace (flushMicroTaskQueue idle unhandled true 10 (microBurst [0; 1; 2]))) =
    [0; 1; 2] ∧
  microTaskQueue (final (flushMicroTaskQueue idle unhandled true 10
                           (microBurst [0; 1; 2]))) = [].
Proof.
  assert (Hi : Forall (inert idle) [0; 1; 2]) by (by repeat constructor).
  assert (Hc : length [0; 1; 2] ≤ 2 * S (microTaskQueueCapacity (microBurst [0; 1; 2]))).
  { rewrite microBurst_capacity. apply Nat.leb_le. vm_compute. reflexivity. }
  assert (Hf : length [0; 1; 2] < 10) by (simpl; lia).
  split; [reflexivity|]. split; [exact Hi|]. split; [exact Hc|]. split; [exact Hf|].
  exact (micro_drain_is_fifo_up_to_twice_capacity idle unhandled true 10
           (microBurst [0; 1; 2]) [0; 1; 2] eq_refl Hi Hc Hf).
Defined.

Lemma micro_drain_runs_reentrant_tasks_witness :
  microTaskQueue (microBurst [0; 1]) = Some <$> [0; 1] ∧
  outcome (flushMicroTaskQueue spawning unhandled true 10 (microBurst [0; 1])) =
    Normal tt ∧
  Forall (returns spawning)
    (calls (trace (flushMicroTaskQueue spawning unhandled true 10 (microBurst [0; 1])))) ∧
  length (calls (trace (flushMicroTaskQueue spawning unhandled true 10
                          (microBurst [0; 1])))) ≤
    microTaskQueueCapacity (microBurst [0; 1]) ∧
  calls (trace (flushMicroTaskQueue spawning unhandled true 10 (microBurst [0; 1]))) =
    [0; 1] ++
    queuedMicro (trace (flushMicroTaskQueue spawning unhandled true 10
                          (microBurst [0; 1]))).
Proof.
  assert (Ho : outcome (flushMicroTaskQueue spawning unhandled true 10
                          (microBurst [0; 1])) = Normal tt) by reflexivity.
  assert (Hr : Forall (returns spawning)
                 (calls (trace (flushMicroTaskQueue spawning unhandled true 10
                                  (microBurst [0; 1]))))).
  { apply Forall_forall. intros [|t] _; reflexivity. }
  assert (Hl : length (calls (trace (flushMicroTaskQueue spawning unhandled true 10
                                       (microBurst [0; 1])))) ≤
               microTaskQueueCapacity (microBurst [0; 1])).
  { apply Nat.leb_le. vm_compute. reflexivity. }
  split; [reflexivity|]. split; [exact Ho|]. split; [exact Hr|]. split; [exact Hl|].
  exact (micro_drain_runs_reentrant_tasks spawning unhandled true 10
           (microBurst [0; 1]) [0; 1] eq_refl Ho Hr Hl).
Defined.

(** The compaction with index 2 of an array of seven cells: the cell of
    task 4 is kept, and repeated cells of tasks 2 and 3 stand where the
    cells of tasks 5 and 6 are due. *)
Lemma compaction_effect_witness :
  let w := microBurst [0; 1; 2; 3; 4; 5; 6] in
  2 ≤ length (microTaskQueue w) ∧ NoDup (microTaskQueue w) ∧
  outcome (compact 2 w) = Normal tt ∧
  length (microTaskQueue (final (compact 2 w))) = length (microTaskQueue w) - 2 ∧
  microTaskQueue (final (compact 2 w)) =
    take 2 (drop 2 (microTaskQueue w)) ++
    take (length (microTaskQueue w) - 2 * 2) (drop 2 (microTaskQueue w)) ∧
  microTaskQueue (final (compact 2 w)) = [Some 2; Some 3; Some 2; Some 3; Some 4] ∧
  Some 4 ∈ microTaskQueue (final (compact 2 w)) ∧
  (Some 5 ∉ microTaskQueue (final (compact 2 w))) ∧
  (Some 6 ∉ microTaskQueue (final (compact 2 w))).
Proof.
  cbn zeta.
  assert (Hl : 2 ≤ length (microTaskQueue (microBurst [0; 1; 2; 3; 4; 5; 6])))
    by (simpl; lia).
  assert (Hnd : NoDup (microTaskQueue (microBurst [0; 1; 2; 3; 4; 5; 6]))).
  { rewrite microBurst_queue. apply NoDup_fmap; [by intros ?? [=]|].
    apply (NoDup_seq 0 7). }
  destruct (@compaction_effect nat nat 2 (microBurst [0; 1; 2; 3; 4; 5; 6]) Hl)
    as (Ho & Hlen & _ & Hlong & _ & Hkept & Hlost).
  split; [exact Hl|]. split; [exact Hnd|]. split; [exact Ho|]. split; [exact Hlen|].
  split; [apply Hlong; simpl; lia|]. split; [by rewrite Hlong by (simpl; lia)|].
  split; [apply (Hkept 4); [simpl; lia|reflexivity]|].
  split; [apply (Hlost Hnd 5); [simpl; lia|reflexivity]
         |apply (Hlost Hnd 6); [simpl; lia|reflexivity]].
Defined.

Lemma macro_drain_aborts_on_throw_witness :
  taskQueue (macroBurst [1; 0; 2]) = Some <$> ([1] ++ 0 :: [2]) ∧
  Forall (returns failing) [1] ∧
  raises (failing 0) = Some (Thrown 7) ∧
  calls (trace (flushTaskQueue failing unhandled true (macroBurst [1; 0; 2]))) =
    [1] ++ [0] ∧
  taskQueue (final (flushTaskQueue failing unhandled true (macroBurst [1; 0; 2]))) =
    Some <$> queuedMacro (trace (flushTaskQueue failing unhandled true
                                   (macroBurst [1; 0; 2]))) ∧
  ∃ w1 tr1,
    calls tr1 = [1] ++ [0] ∧
    flushTaskQueue failing unhandled true (macroBurst [1; 0; 2]) =
      Run (outcome (onError unhandled true (Thrown 7) (Some 0) w1))
          (final (onError unhandled true (Thrown 7) (Some 0) w1))
          (EvFlushTaskQueue :: tr1 ++ trace (onError unhandled true (Thrown 7) (Some 0) w1)).
Proof.
  assert (Hr : Forall (returns failing) [1]) by (by repeat constructor).
  split; [reflexivity|]. split; [exact Hr|]. split; [reflexivity|].
  exact (macro_drain_aborts_on_throw failing unhandled true (macroBurst [1; 0; 2])
           [1] 0 [2] (Thrown 7) eq_refl Hr eq_refl).
Defined.

Lemma wellFormed_invariant_witness :
  wellFormed (constructor : world) ∧
  wellFormed (final (flushMicroTaskQueue failing rethrowing true 10
                       (final (queueMicroTask 0 (constructor : world))))).
Proof.
  pose proof (wellFormed_invariant failing rethrowing true)
    as (H0 & Hm & _ & _ & Hf & _).
  split; [exact H0|]. apply Hf, Hm, H0.
Defined.

Lemma flushMicroTaskQueue_never_rearms_witness :
  defined (microTaskQueue (microBurst [0; 1])) ∧
  requestsMicro (trace (flushMicroTaskQueue failing requeueing true 10
                          (microBurst [0; 1]))) = 0 ∧
  requestsMacro (trace (flushMicroTaskQueue failing requeueing true 10
                          (microBurst [0; 1]))) =
    armings (taskQueue (microBurst [0; 1]))
      (queuedMacro (trace (flushMicroTaskQueue failing requeueing true 10
                             (microBurst [0; 1])))).
Proof.
  assert (Hdef : defined (microTaskQueue (microBurst [0; 1]))).
  { rewrite microBurst_queue. apply defined_fmap_Some. }
  split; [exact Hdef|].
  exact (flushMicroTaskQueue_never_rearms failing requeueing true 10
           (microBurst [0; 1]) Hdef).
Defined.

Lemma macro_tier_never_stranded_witness :
  live (constructor : world) ∧
  live (final (flushMicroTaskQueue deferring unhandled true 10
                 (final (queueTask 0 (constructor : world))))).
Proof.
  pose proof (macro_tier_never_stranded deferring unhandled true)
    as (H0 & _ & Hq & Hf & _).
  split; [exact H0|]. apply Hf, Hq, H0.
Defined.

Lemma micro_tier_stuck_after_handler_throw_witness :
  defined (microTaskQueue (microBurst [0; 1])) ∧
  outcome (flushMicroTaskQueue failing rethrowing true 10 (microBurst [0; 1])) =
    Throw (Thrown 8) ∧
  microTaskQueue (final (flushMicroTaskQueue failing rethrowing true 10
                           (microBurst [0; 1]))) ≠ [] ∧
  ∀ l, requestsMicro
         (trace (acts l (final (flushMicroTaskQueue failing rethrowing true 10
                                  (microBurst [0; 1]))))) = 0 ∧
       microTaskQueue
         (final (acts l (final (flushMicroTaskQueue failing rethrowing true 10
                                  (microBurst [0; 1]))))) ≠ [].
Proof.
  assert (Hdef : defined (microTaskQueue (microBurst [0; 1]))).
  { rewrite microBurst_queue. apply defined_fmap_Some. }
  split; [exact Hdef|]. split; [reflexivity|].
  exact (micro_tier_stuck_after_handler_throw failing rethrowing true 10
           (microBurst [0; 1]) (Thrown 8) Hdef eq_refl).
Defined.

Lemma observer_requestFlush_changes_node_witness :
  observerOK (constructor : world) ∧
  nodeData (final (requestFlushMicroTaskQueue (constructor : world))) ≠
    nodeData (constructor : world) ∧
  nodeData (final (requestFlushMicroTaskQueue (constructor : world))) =
    Some (- toggle (constructor : world))%Z ∧
  toggle (final (requestFlushMicroTaskQueue
                   (final (requestFlushMicroTaskQueue (constructor : world))))) =
    toggle (constructor : world).
Proof.
  pose proof (observer_requestFlush_changes_node idle unhandled true)
    as (H0 & _ & _ & _ & _ & _ & Hreq).
  split; [exact H0|]. exact (Hreq constructor H0).
Defined.

Lemma unhandled_error_surfaces_once_witness :
  hostOK (constructor : world) ∧ unhandled 0 = None ∧ false = false ∧
  outcome (onError unhandled false (Thrown 7) (Some 0) constructor) = Normal tt ∧
  trace (onError unhandled false (Thrown 7) (Some 0) constructor) = [] ∧
  outcome (fire failing unhandled false 0
             (final (onError unhandled false (Thrown 7) (Some 0) constructor))) =
    Normal tt ∧
  trace (fire failing unhandled false 0
           (final (onError unhandled false (Thrown 7) (Some 0) constructor))) =
    [EvFired 0; EvUnhandled (Thrown 7)] ∧
  timers (final (fire failing unhandled false 0
                   (final (onError unhandled false (Thrown 7) (Some 0) constructor)))) =
    [] ∧
  trace (fire failing unhandled false 0
           (final (fire failing unhandled false 0
                     (final (onError unhandled false (Thrown 7) (Some 0) constructor))))) =
    [].
Proof.
  split; [exact hostOK_constructor|]. split; [reflexivity|]. split; [reflexivity|].
  exact (unhandled_error_surfaces_once failing unhandled false (Thrown 7) 0 constructor
           hostOK_constructor eq_refl eq_refl).
Defined.

Lemma macro_drain_keeps_reentrant_tasks_witness :
  hostOK (macroBurst [0]) ∧
  taskQueue (macroBurst [0]) = Some <$> [0] ∧
  taskQueue (final (flushTaskQueue deferring unhandled true (macroBurst [0]))) =
    Some <$> queuedMacro (trace (flushTaskQueue deferring unhandled true (macroBurst [0]))) ∧
  (queuedMacro (trace (flushTaskQueue deferring unhandled true (macroBurst [0]))) ≠ [] →
   ∃ th ih, armed th ih (final (flushTaskQueue deferring unhandled true (macroBurst [0])))).
Proof.
  assert (Hok : hostOK (macroBurst [0])).
  { apply hostOK_tame; [apply tame_acts|exact hostOK_constructor]. }
  split; [exact Hok|]. split; [reflexivity|].
  exact (macro_drain_keeps_reentrant_tasks deferring unhandled true (macroBurst [0]) [0]
           Hok eq_refl).
Defined.

Lemma micro_drain_repeats_task_past_twice_capacity_witness :
  microTaskQueue (microBurst (seq 0 2051)) = Some <$> seq 0 2051 ∧
  Forall (inert idle) (seq 0 2051) ∧
  2 * S (microTaskQueueCapacity (microBurst (seq 0 2051))) < length (seq 0 2051) ∧
  2 * S (microTaskQueueCapacity (microBurst (seq 0 2051))) < 4000 ∧
  calls (trace (flushMicroTaskQueue idle unhandled true 4000 (microBurst (seq 0 2051))))
    !! (2 * S (microTaskQueueCapacity (microBurst (seq 0 2051)))) =
    seq 0 2051 !! S (microTaskQueueCapacity (microBurst (seq 0 2051))) ∧
  (NoDup (seq 0 2051) →
   calls (trace (flushMicroTaskQueue idle unhandled true 4000 (microBurst (seq 0 2051))))
     ≠ seq 0 2051).
Proof.
  assert (Hq := microBurst_queue (seq 0 2051)).
  assert (Hi : Forall (inert idle) (seq 0 2051)).
  { apply Forall_forall. intros t _. apply idle_inert. }
  assert (Hl : 2 * S (microTaskQueueCapacity (microBurst (seq 0 2051))) <
               length (seq 0 2051)).
  { rewrite microBurst_capacity, length_seq. apply Nat.ltb_lt. vm_compute. reflexivity. }
  assert (Hf : 2 * S (microTaskQueueCapacity (microBurst (seq 0 2051))) < 4000).
  { rewrite microBurst_capacity. apply Nat.ltb_lt. vm_compute. reflexivity. }
  split; [exact Hq|]. split; [exact Hi|]. split; [exact Hl|]. split; [exact Hf|].
  exact (micro_drain_repeats_task_past_twice_capacity idle unhandled true 4000
           (microBurst (seq 0 2051)) (seq 0 2051) Hq Hi Hl Hf).
Defined.

